(** * A lambda-calculus interpreter: lexer, parser, evaluator

    Shallow embedding of the TypeScript sources [ast.ts], [lexer.ts],
    [parser.ts], [interpreter.ts] and [index.ts], followed by the
    properties of the evaluator, the parser and the printer. *)

From Stdlib Require Import String Ascii List Bool Arith ZArith NArith QArith Lia.
From Equations Require Import Equations.
Import ListNotations.

Close Scope Q_scope.
Local Open Scope list_scope.
Local Open Scope string_scope.

(* ===================================================================== *)
(** ** ast.ts *)
(* ===================================================================== *)

Module Ast.

(** [Node] is the closed variant of [ast.ts]; the three constructors are
    the helper functions [variable], [abstraction] and [application], and
    the [type] tag of the TypeScript objects is the constructor itself. *)
Inductive Node : Type :=
| variable (name : string)
| abstraction (param : string) (body : Node)
| application (left right : Node).

(** Number of nodes of a tree; the measure of the recursive traversals. *)
Fixpoint size (node : Node) : nat :=
  match node with
  | variable _ => 1
  | abstraction _ body => S (size body)
  | application l r => S (size l + size r)
  end.

(** Length of the longest variable name occurring in a tree. *)
Fixpoint maxNameLen (node : Node) : nat :=
  match node with
  | variable name => String.length name
  | abstraction _ body => maxNameLen body
  | application l r => Nat.max (maxNameLen l) (maxNameLen r)
  end.

End Ast.
Export Ast.

(* ===================================================================== *)
(** ** lexer.ts: tokens *)
(* ===================================================================== *)

(** A TypeScript string is a sequence of UTF-16 code units; the source
    text is kept as the list of its code units, so that [position] counts
    what the TypeScript indices count.  Names and printed terms are Rocq
    strings: a name read by the lexer consists of ASCII letters and
    digits, one character per code unit. *)
Definition jsstring := list N.

(** [TokenType]; [TVariable] is [TokenType.Variable], and so on. *)
Inductive TokenType : Type :=
| TLambda | TVariable | TDot | TLParen | TRParen | TEOF.

Record Token : Type := mkToken {
  type : TokenType;
  value : option string;
  position : nat
}.

(** [===] on token types. *)
Definition TokenType_eqb (a b : TokenType) : bool :=
  match a, b with
  | TLambda, TLambda | TVariable, TVariable | TDot, TDot
  | TLParen, TLParen | TRParen, TRParen | TEOF, TEOF => true
  | _, _ => false
  end.

(* ===================================================================== *)
(** ** Numbers *)
(* ===================================================================== *)

(** A JavaScript [number], as far as a step bound needs it.  Every finite
    double is a rational number and is given by it; the three other values
    of the type are [Infinity], [-Infinity] and [NaN].  The sources only
    compare a bound with a counter. *)
Inductive number : Type :=
| Finite (q : Q)
| Infinity
| NegInfinity
| NaN.

(** The number of an integer literal. *)
Definition int (z : Z) : number := Finite (inject_Z z).

(** [steps < maxSteps] for a counter [steps] that holds an integer:
    comparisons with [NaN] are false. *)
Definition lessThan (steps : Z) (maxSteps : number) : bool :=
  match maxSteps with
  | Finite q => negb (Qle_bool q (inject_Z steps))
  | Infinity => true
  | NegInfinity => false
  | NaN => false
  end.

(** [stepCount >= maxSteps]. *)
Definition atLeast (stepCount : Z) (maxSteps : number) : bool :=
  match maxSteps with
  | Finite q => Qle_bool q (inject_Z stepCount)
  | Infinity => false
  | NegInfinity => true
  | NaN => false
  end.

(** The integers up to [2^53] are doubles; [2^53 + 1] is not. *)
Definition maxExact : Z := 9007199254740992.

(** [steps++] for a counter started at 0: the sum is exact below [2^53];
    [2^53 + 1] lies half way between the doubles [2^53] and [2^53 + 2] and
    is rounded to the even one, [2^53], so the counter stays there. *)
Definition increment (steps : Z) : Z :=
  if (steps <? maxExact)%Z then (steps + 1)%Z else steps.

(* ===================================================================== *)
(** ** Errors and results *)
(* ===================================================================== *)

(** The errors thrown by the sources.  TypeScript throws [Error] objects
    whose message interpolates the data kept here:
    - [LexError c position]: "Unexpected character: c at position position";
    - [ParseError message position]: "message at position position", thrown
      by [consume];
    - [UnexpectedToken type position]: "Unexpected token: type at position
      position", thrown by [atom];
    - [NonTermination maxSteps]: "Evaluation exceeded maximum steps
      (maxSteps). Possible non-terminating expression.";
    - [TypeError]: the runtime's error when a property of [undefined] is
      read (a token array read past its end). *)
Inductive Error : Type :=
| LexError (c : jsstring) (position : nat)
| ParseError (message : string) (position : nat)
| UnexpectedToken (type : TokenType) (position : nat)
| NonTermination (maxSteps : number)
| TypeError.

(** A call either returns a value or throws. *)
Inductive Result (A : Type) : Type :=
| Ok (a : A)
| Throw (e : Error).
Arguments Ok {A} a.
Arguments Throw {A} e.

(** A call whose loop may run forever, given by what it has done after at
    most [fuel] rounds of the loop: [None] while the loop is still running. *)
Definition Run (A : Type) : Type := nat -> option A.

(** The call ends, with [a]. *)
Definition returns {A : Type} (run : Run A) (a : A) : Prop :=
  exists fuel, run fuel = Some a.

(** The call never ends. *)
Definition hangs {A : Type} (run : Run A) : Prop :=
  forall fuel, run fuel = None.

(** Keeps the outcome of a test available as an equation in the branches. *)
Definition inspect {A : Type} (a : A) : {b : A | a = b} := exist _ a eq_refl.

(* ===================================================================== *)
(** ** lexer.ts: the lexer *)
(* ===================================================================== *)

(** The code units of a text written with ASCII characters only. *)
Definition units (s : string) : jsstring :=
  map N_of_ascii (list_ascii_of_string s).

(** The text of a run of ASCII code units ([substring] on a name). *)
Definition text (cs : jsstring) : string :=
  string_of_list_ascii (map ascii_of_N cs).

(** [String.prototype.trim]: the white space and line terminator code
    points of ECMAScript. *)
Definition isTrimSpace (c : N) : bool :=
  ((9 <=? c) && (c <=? 13) || (c =? 32) || (c =? 160) || (c =? 5760)
   || (8192 <=? c) && (c <=? 8202) || (c =? 8232) || (c =? 8233)
   || (c =? 8239) || (c =? 8287) || (c =? 12288) || (c =? 65279))%N.

Fixpoint trimStart (s : jsstring) : jsstring :=
  match s with
  | c :: s' => if isTrimSpace c then trimStart s' else s
  | [] => []
  end.

Definition trim (s : jsstring) : jsstring :=
  rev (trimStart (rev (trimStart s))).

(** [===] on strings. *)
Definition streq (a b : jsstring) : bool :=
  if list_eq_dec N.eq_dec a b then true else false.

(** [/[a-zA-Z]/.test(c)] and [/[0-9]/.test(c)]: some code unit of [c] is in
    the class. *)
Definition isAlpha (c : jsstring) : bool :=
  existsb (fun u => (97 <=? u) && (u <=? 122) || (65 <=? u) && (u <=? 90))%N c.

Definition isAlphaNumeric (c : jsstring) : bool :=
  isAlpha c || existsb (fun u => (48 <=? u) && (u <=? 57))%N c.

Module Lexer.
Section WithInput.

(** [this.input], already trimmed by the constructor. *)
Variable input : jsstring.

Definition inputLength : nat := List.length input.

Definition isAtEnd (position : nat) : bool := (inputLength <=? position)%nat.

(** [this.input[position]], a string of one code unit. *)
Definition charAt (position : nat) : jsstring :=
  match nth_error input position with
  | Some u => [u]
  | None => []
  end.

Definition peek (position : nat) : jsstring :=
  if isAtEnd position then [] else charAt position.

(** [advance()] at [position]: the character and the position reached. *)
Definition advance (position : nat) : jsstring * nat :=
  if isAtEnd position then ([], position) else (charAt position, S position).

Lemma peek_nonempty (position : nat) :
  peek position <> [] -> position < inputLength.
Proof.
  unfold peek, isAtEnd. destruct (inputLength <=? position)%nat eqn:E; [congruence|].
  intros _. now apply Nat.leb_gt in E.
Qed.

Lemma isAlphaNumeric_peek (position : nat) :
  isAlphaNumeric (peek position) = true -> position < inputLength.
Proof.
  intros H. apply peek_nonempty. intros E. rewrite E in H. discriminate.
Qed.

(** [readVariable]: the loop advances while the next unit is a letter or a
    digit; the result is the position reached. *)
Equations? readVariable_loop (position : nat) : nat
  by wf (inputLength - position) lt :=
  readVariable_loop position with inspect (isAlphaNumeric (peek position)) => {
    | exist _ true _ := readVariable_loop (snd (advance position));
    | exist _ false _ := position }.
Proof.
  match goal with
  | H : isAlphaNumeric (peek ?p) = true |- _ =>
      apply isAlphaNumeric_peek in H; unfold advance, isAtEnd;
      destruct (Nat.leb_spec inputLength p); simpl; lia
  end.
Qed.

Definition substring (start stop : nat) : jsstring :=
  firstn (stop - start) (skipn start input).

(** [readVariable()] at [position]: the name and the position reached. *)
Definition readVariable (position : nat) : string * nat :=
  let start := position in
  let position := readVariable_loop position in
  (text (substring start position), position).

(** [skipWhitespace()] at [position]: the position reached. *)
Equations? skipWhitespace (position : nat) : nat
  by wf (inputLength - position) lt :=
  skipWhitespace position with inspect (isAtEnd position) => {
    | exist _ true _ := position;
    | exist _ false _ with
        (let c := peek position in
         streq c [32%N] || streq c [9%N] || streq c [13%N] || streq c [10%N]) => {
        | true := skipWhitespace (snd (advance position));
        | false := position } }.
Proof.
  match goal with
  | H : isAtEnd ?p = false |- _ =>
      unfold advance; rewrite H; simpl; unfold isAtEnd in H;
      apply Nat.leb_gt in H; lia
  end.
Qed.

(** [nextToken()] at [position]: the token and the position reached.  The
    second label of the first [case] is, in the source file, the literal
    of the two characters U+00CE and U+00BB (code units 206 and 187); [c]
    holds one code unit and never equals it, so the Greek letter lambda
    (code unit 955) falls through to the [default] case. *)
Definition nextToken (position : nat) : Result (Token * nat) :=
  let position := skipWhitespace position in
  if isAtEnd position then Ok (mkToken TEOF None position, position)
  else
    let currentPosition := position in
    let (c, position) := advance position in
    if streq c [92%N] || streq c [206%N; 187%N] then
      Ok (mkToken TLambda None currentPosition, position)
    else if streq c [46%N] then
      Ok (mkToken TDot None currentPosition, position)
    else if streq c [40%N] then
      Ok (mkToken TLParen None currentPosition, position)
    else if streq c [41%N] then
      Ok (mkToken TRParen None currentPosition, position)
    else if isAlpha c then
      let position := currentPosition in
      let (variable, position) := readVariable position in
      Ok (mkToken TVariable (Some variable) currentPosition, position)
    else
      Throw (LexError c currentPosition).

Lemma skipWhitespace_ge (position : nat) : position <= skipWhitespace position.
Proof.
  funelim (skipWhitespace position); try lia.
  revert H. unfold advance. rewrite e. simpl. lia.
Qed.

Lemma readVariable_loop_ge (position : nat) : position <= readVariable_loop position.
Proof.
  funelim (readVariable_loop position); try lia.
  pose proof (isAlphaNumeric_peek _ e). revert H. unfold advance, isAtEnd.
  destruct (Nat.leb_spec inputLength position0); simpl; lia.
Qed.

Lemma readVariable_loop_eq (position : nat) :
  readVariable_loop position =
  if isAlphaNumeric (peek position) then readVariable_loop (snd (advance position))
  else position.
Proof.
  funelim (readVariable_loop position); rewrite e; reflexivity.
Qed.

Lemma readVariable_loop_step (position : nat) :
  isAlphaNumeric (peek position) = true ->
  readVariable_loop position = readVariable_loop (S position).
Proof.
  intros H. rewrite readVariable_loop_eq at 1. rewrite H.
  apply isAlphaNumeric_peek in H. unfold advance, isAtEnd.
  destruct (Nat.leb_spec inputLength position); simpl; [lia | reflexivity].
Qed.

(** A token other than [EOF] consumes at least one code unit. *)
Lemma nextToken_progress (p p' : nat) (token : Token) :
  nextToken p = Ok (token, p') -> type token <> TEOF ->
  p < p' /\ p < inputLength.
Proof.
  unfold nextToken. pose proof (skipWhitespace_ge p) as Hge.
  destruct (isAtEnd (skipWhitespace p)) eqn:Hend.
  - intros H; inversion H; subst; simpl; congruence.
  - unfold advance. rewrite Hend.
    assert (Hp : peek (skipWhitespace p) = charAt (skipWhitespace p))
      by (unfold peek; now rewrite Hend).
    unfold isAtEnd in Hend. apply Nat.leb_gt in Hend. intros H _.
    repeat match type of H with
           | (if ?b then _ else _) = _ =>
               destruct b eqn:?; [inversion H; subst; lia|]
           end.
    destruct (isAlpha (charAt (skipWhitespace p))) eqn:Ha; [|discriminate].
    unfold readVariable in H. inversion H; subst.
    rewrite readVariable_loop_step
      by (rewrite Hp; unfold isAlphaNumeric; now rewrite Ha).
    pose proof (readVariable_loop_ge (S (skipWhitespace p))). lia.
Qed.

(** [tokenize()]: the loop, started with no token at position 0. *)
Equations? tokenize_loop (tokens : list Token) (position : nat) : Result (list Token)
  by wf (inputLength - position) lt :=
  tokenize_loop tokens position with inspect (nextToken position) => {
    | exist _ (Throw e) _ := Throw e;
    | exist _ (Ok (token, position')) _ with inspect (TokenType_eqb (type token) TEOF) => {
        | exist _ true _ := Ok (tokens ++ [token])%list;
        | exist _ false _ := tokenize_loop (tokens ++ [token])%list position' } }.
Proof.
  match goal with
  | H : nextToken ?p = Ok _ |- _ => apply nextToken_progress in H
  end; [lia|].
  destruct (type token); simpl in *; congruence.
Qed.

Definition tokenize : Result (list Token) := tokenize_loop [] 0.

End WithInput.

(** [new Lexer(input)] followed by [tokenize()]. *)
Definition run (input : jsstring) : Result (list Token) := tokenize (trim input).

End Lexer.

(* ===================================================================== *)
(** ** parser.ts *)
(* ===================================================================== *)

Module Parser.
Section WithTokens.

(** [this.tokens]. *)
Variable tokens : list Token.

(** A method of the parser reads and moves [this.current]: it takes the
    index and returns its value with the index reached, or throws. *)
Definition P (A : Type) : Type := nat -> Result (A * nat).

Definition ret {A : Type} (a : A) : P A := fun current => Ok (a, current).

Definition bind {A B : Type} (m : P A) (k : A -> P B) : P B :=
  fun current =>
    match m current with
    | Ok (a, current') => k a current'
    | Throw e => Throw e
    end.

Definition throw {A : Type} (e : Error) : P A := fun _ => Throw e.

Notation "x <- m ;; k" := (bind m (fun x => k))
  (at level 61, m at next level, right associativity).

(** [a && b] and [!a] on calls, [&&] evaluating [b] only when needed. *)
Definition andP (a b : P bool) : P bool :=
  x <- a ;; if x then b else ret false.

Definition notP (a : P bool) : P bool :=
  x <- a ;; ret (negb x).

(** Reading a property of [tokens[i]]; [tokens[i]] is [undefined] outside
    the array, and reading a property of [undefined] throws. *)
Definition prop {A : Type} (t : option Token) (field : Token -> A) : P A :=
  match t with
  | Some token => ret (field token)
  | None => throw TypeError
  end.

(** [peek()]: [tokens[current]]. *)
Definition peek : P (option Token) :=
  fun current => Ok (nth_error tokens current, current).

(** [previous()]: [tokens[current - 1]]. *)
Definition previous : P (option Token) :=
  fun current =>
    Ok (match current with 0 => None | S i => nth_error tokens i end, current).

Definition isAtEnd : P bool :=
  t <- peek ;; ty <- prop t type ;; ret (TokenType_eqb ty TEOF).

Definition advance : P (option Token) :=
  atEnd <- isAtEnd ;;
  _ <- (if negb atEnd then (fun current => Ok (tt, S current)) else ret tt) ;;
  previous.

Definition check (type' : TokenType) : P bool :=
  atEnd <- isAtEnd ;;
  if atEnd then ret false
  else t <- peek ;; ty <- prop t type ;; ret (TokenType_eqb ty type').

(** [match(...types)]. *)
Fixpoint match_ (types : list TokenType) : P bool :=
  match types with
  | [] => ret false
  | type' :: types' =>
      c <- check type' ;;
      if c then _ <- advance ;; ret true else match_ types'
  end.

Definition consume (type' : TokenType) (message : string) : P (option Token) :=
  c <- check type' ;;
  if c then advance
  else
    token <- peek ;;
    pos <- prop token position ;;
    throw (ParseError message pos).

(** [token.value!]: the assertion holds of the [Variable] tokens of the
    lexer, which all carry a name; a token without one reads as the empty
    name. *)
Definition value_ (t : option Token) : P string :=
  v <- prop t value ;; ret (match v with Some name => name | None => "" end).

(** The mutually recursive methods [expression], [application] (with its
    [while] loop) and [atom].  Every call consumes one unit of [fuel];
    [None] says that the units ran out before the call returned.
    [expression_returns] below shows that [3 * length tokens + 3] units
    are always enough. *)
Definition PF (A : Type) : Type := nat -> option (Result (A * nat)).

Definition lift {A : Type} (m : P A) : PF A := fun current => Some (m current).

Definition bindF {A B : Type} (m : PF A) (k : A -> PF B) : PF B :=
  fun current =>
    match m current with
    | Some (Ok (a, current')) => k a current'
    | Some (Throw e) => Some (Throw e)
    | None => None
    end.

Notation "x <-- m ;; k" := (bindF m (fun x => k))
  (at level 61, m at next level, right associativity).

Fixpoint expression (fuel : nat) : PF Node :=
  match fuel with
  | 0 => fun _ => None
  | S fuel' => application fuel'
  end
with application (fuel : nat) : PF Node :=
  match fuel with
  | 0 => fun _ => None
  | S fuel' =>
      expr <-- atom fuel' ;;
      application_loop fuel' expr
  end
with application_loop (fuel : nat) (expr : Node) : PF Node :=
  match fuel with
  | 0 => fun _ => None
  | S fuel' =>
      continue <-- lift (andP (notP isAtEnd)
                        (andP (notP (check TRParen)) (notP (check TDot)))) ;;
      if (continue : bool) then
        right <-- atom fuel' ;;
        application_loop fuel' (Ast.application expr right)
      else lift (ret expr)
  end
with atom (fuel : nat) : PF Node :=
  match fuel with
  | 0 => fun _ => None
  | S fuel' =>
      isLambda <-- lift (match_ [TLambda]) ;;
      if (isLambda : bool) then
        param <-- lift (consume TVariable "Expected parameter name after lambda") ;;
        _ <-- lift (consume TDot "Expected '.' after parameter name in lambda abstraction") ;;
        body <-- expression fuel' ;;
        name <-- lift (value_ param) ;;
        lift (ret (abstraction name body))
      else
        isVariable <-- lift (match_ [TVariable]) ;;
        if (isVariable : bool) then
          t <-- lift previous ;;
          name <-- lift (value_ t) ;;
          lift (ret (variable name))
        else
          isLParen <-- lift (match_ [TLParen]) ;;
          if (isLParen : bool) then
            expr <-- expression fuel' ;;
            _ <-- lift (consume TRParen "Expected ')' after expression") ;;
            lift (ret expr)
          else
            t <-- lift peek ;;
            ty <-- lift (prop t type) ;;
            t' <-- lift peek ;;
            pos <-- lift (prop t' position) ;;
            lift (throw (UnexpectedToken ty pos))
  end.

(** [parse()] with the index it stops at; the parser starts at index 0. *)
Definition parse_run : option (Result (Node * nat)) :=
  expression (3 * List.length tokens + 3) 0.

(** *** The primitives move the index by at most one token *)

Lemma isAtEnd_eq (current : nat) :
  isAtEnd current =
  match nth_error tokens current with
  | Some t => Ok (TokenType_eqb (type t) TEOF, current)
  | None => Throw TypeError
  end.
Proof.
  unfold isAtEnd, peek, prop, bind, ret, throw.
  destruct (nth_error tokens current); reflexivity.
Qed.

Lemma check_eq (type' : TokenType) (current : nat) :
  check type' current =
  match nth_error tokens current with
  | Some t =>
      Ok (negb (TokenType_eqb (type t) TEOF) && TokenType_eqb (type t) type',
          current)
  | None => Throw TypeError
  end.
Proof.
  unfold check, bind. rewrite isAtEnd_eq.
  destruct (nth_error tokens current) as [t|] eqn:E; [|reflexivity].
  destruct (TokenType_eqb (type t) TEOF); simpl; [reflexivity|].
  unfold peek, prop, bind, ret. rewrite E. reflexivity.
Qed.

Lemma advance_eq (current : nat) :
  advance current =
  match nth_error tokens current with
  | Some t =>
      if TokenType_eqb (type t) TEOF then previous current
      else Ok (Some t, S current)
  | None => Throw TypeError
  end.
Proof.
  unfold advance, bind. rewrite isAtEnd_eq.
  destruct (nth_error tokens current) as [t|] eqn:E; [|reflexivity].
  destruct (TokenType_eqb (type t) TEOF); simpl; [reflexivity|].
  unfold previous. now rewrite E.
Qed.

Lemma nth_error_lt (current : nat) (t : Token) :
  nth_error tokens current = Some t -> current < List.length tokens.
Proof. intros H. apply nth_error_Some. congruence. Qed.

Lemma match__ok (type' : TokenType) (current : nat) (b : bool) (c' : nat) :
  match_ [type'] current = Ok (b, c') ->
  current < List.length tokens /\ c' = (if b then S current else current).
Proof.
  unfold match_, bind, ret. rewrite check_eq.
  destruct (nth_error tokens current) as [t|] eqn:E; [|discriminate].
  apply nth_error_lt in E as Hlt.
  destruct (TokenType_eqb (type t) TEOF) eqn:Ht; simpl.
  - intros H; inversion H; subst; split; [assumption | reflexivity].
  - destruct (TokenType_eqb (type t) type'); simpl.
    + rewrite advance_eq, E, Ht. intros H; inversion H; subst; split; [assumption | reflexivity].
    + intros H; inversion H; subst; split; [assumption | reflexivity].
Qed.

Lemma consume_ok (type' : TokenType) (message : string) (current : nat)
    (t : option Token) (c' : nat) :
  consume type' message current = Ok (t, c') -> c' = S current.
Proof.
  unfold consume, bind. rewrite check_eq.
  destruct (nth_error tokens current) as [t0|] eqn:E; [|discriminate].
  destruct (TokenType_eqb (type t0) TEOF) eqn:Ht; simpl.
  - unfold peek, prop, ret, throw. rewrite E. discriminate.
  - destruct (TokenType_eqb (type t0) type'); simpl.
    + rewrite advance_eq, E, Ht. intros H; inversion H; auto.
    + unfold peek, prop, ret, throw. rewrite E. discriminate.
Qed.

Lemma continue_ok (current : nat) (b : bool) (c' : nat) :
  andP (notP isAtEnd) (andP (notP (check TRParen)) (notP (check TDot))) current
  = Ok (b, c') -> c' = current.
Proof.
  unfold andP, notP, bind, ret. rewrite isAtEnd_eq.
  destruct (nth_error tokens current) as [t|] eqn:E; [|discriminate].
  destruct (TokenType_eqb (type t) TEOF) eqn:Ht; simpl.
  - intros H; inversion H; auto.
  - rewrite !check_eq, E, Ht. simpl.
    destruct (TokenType_eqb (type t) TRParen); simpl.
    + intros H; inversion H; auto.
    + rewrite check_eq, E. intros H; inversion H; auto.
Qed.

Lemma previous_ok (current : nat) (t : option Token) (c' : nat) :
  previous current = Ok (t, c') -> c' = current.
Proof. unfold previous. intros H; inversion H; reflexivity. Qed.

Lemma value__ok (t : option Token) (current : nat) (name : string) (c' : nat) :
  value_ t current = Ok (name, c') -> c' = current.
Proof.
  unfold value_, prop, bind, ret, throw.
  destruct t; simpl; intros H; inversion H; reflexivity.
Qed.

(** *** Unfolding the recursive methods *)

Lemma expression_S (fuel : nat) : expression (S fuel) = application fuel.
Proof. reflexivity. Qed.

Lemma application_S (fuel : nat) :
  application (S fuel) = (expr <-- atom fuel ;; application_loop fuel expr).
Proof. reflexivity. Qed.

Lemma application_loop_S (fuel : nat) (expr : Node) :
  application_loop (S fuel) expr =
  (continue <-- lift (andP (notP isAtEnd)
                     (andP (notP (check TRParen)) (notP (check TDot)))) ;;
   if (continue : bool) then
     right <-- atom fuel ;;
     application_loop fuel (Ast.application expr right)
   else lift (ret expr)).
Proof. reflexivity. Qed.

Lemma atom_S (fuel : nat) :
  atom (S fuel) =
  (isLambda <-- lift (match_ [TLambda]) ;;
   if (isLambda : bool) then
     param <-- lift (consume TVariable "Expected parameter name after lambda") ;;
     _ <-- lift (consume TDot "Expected '.' after parameter name in lambda abstraction") ;;
     body <-- expression fuel ;;
     name <-- lift (value_ param) ;;
     lift (ret (abstraction name body))
   else
     isVariable <-- lift (match_ [TVariable]) ;;
     if (isVariable : bool) then
       t <-- lift previous ;;
       name <-- lift (value_ t) ;;
       lift (ret (variable name))
     else
       isLParen <-- lift (match_ [TLParen]) ;;
       if (isLParen : bool) then
         expr <-- expression fuel ;;
         _ <-- lift (consume TRParen "Expected ')' after expression") ;;
         lift (ret expr)
       else
         t <-- lift peek ;;
         ty <-- lift (prop t type) ;;
         t' <-- lift peek ;;
         pos <-- lift (prop t' position) ;;
         lift (throw (UnexpectedToken ty pos))).
Proof. reflexivity. Qed.

(** Inversion of a successful [bindF]. *)
Lemma bindF_ok {A B : Type} (m : PF A) (k : A -> PF B) (current : nat)
    (b : B) (c' : nat) :
  bindF m k current = Some (Ok (b, c')) ->
  exists a c1, m current = Some (Ok (a, c1)) /\ k a c1 = Some (Ok (b, c')).
Proof.
  unfold bindF. destruct (m current) as [[[a c1]|e]|]; try discriminate.
  intros H. now exists a, c1.
Qed.

Lemma lift_ok {A : Type} (m : P A) (current : nat) (a : A) (c' : nat) :
  lift m current = Some (Ok (a, c')) -> m current = Ok (a, c').
Proof. unfold lift. congruence. Qed.

Ltac inv_bind H :=
  let a := fresh "a" in let c := fresh "c" in
  let H1 := fresh "H" in
  apply bindF_ok in H; destruct H as (a & c & H1 & H).

(** *** A successful parse consumes tokens *)

Lemma progress (fuel : nat) :
  (forall current n c', expression fuel current = Some (Ok (n, c')) ->
     current < c' /\ current < List.length tokens) /\
  (forall current n c', application fuel current = Some (Ok (n, c')) ->
     current < c' /\ current < List.length tokens) /\
  (forall expr current n c', application_loop fuel expr current = Some (Ok (n, c')) ->
     current <= c') /\
  (forall current n c', atom fuel current = Some (Ok (n, c')) ->
     current < c' /\ current < List.length tokens).
Proof.
  induction fuel as [|fuel (IHe & IHa & IHl & IHt)].
  - repeat split; simpl; intros; discriminate.
  - repeat apply conj.
    + intros current n c' H. rewrite expression_S in H. eauto.
    + intros current n c' H. rewrite application_S in H.
      inv_bind H. apply IHt in H0. apply IHl in H. lia.
    + intros expr current n c' H. rewrite application_loop_S in H.
      inv_bind H. apply lift_ok, continue_ok in H0. subst c.
      destruct a.
      * inv_bind H. apply IHt in H0. apply IHl in H. lia.
      * apply lift_ok in H. inversion H. lia.
    + intros current n c' H. rewrite atom_S in H.
      inv_bind H. apply lift_ok, match__ok in H0. destruct H0 as [Hlt ->].
      destruct a.
      * inv_bind H. apply lift_ok, consume_ok in H0. subst c.
        inv_bind H. apply lift_ok, consume_ok in H0. subst c.
        inv_bind H. apply IHe in H0.
        inv_bind H. apply lift_ok, value__ok in H1. subst c0.
        apply lift_ok in H. inversion H. subst. lia.
      * inv_bind H. apply lift_ok, match__ok in H0. destruct H0 as [_ ->].
        destruct a.
        -- inv_bind H. apply lift_ok, previous_ok in H0. subst c.
           inv_bind H. apply lift_ok, value__ok in H0. subst c.
           apply lift_ok in H. inversion H. subst. lia.
        -- inv_bind H. apply lift_ok, match__ok in H0. destruct H0 as [_ ->].
           destruct a.
           ++ inv_bind H. apply IHe in H0.
              inv_bind H. apply lift_ok, consume_ok in H1. subst c0.
              apply lift_ok in H. inversion H. subst. lia.
           ++ repeat (inv_bind H; try (apply lift_ok in H0)).
              apply lift_ok in H. discriminate.
Qed.

(** *** The fuel never runs out *)

Lemma bindF_returns {A B : Type} (m : PF A) (k : A -> PF B) (current : nat) :
  m current <> None ->
  (forall a c1, m current = Some (Ok (a, c1)) -> k a c1 <> None) ->
  bindF m k current <> None.
Proof.
  unfold bindF. intros Hm Hk.
  destruct (m current) as [[[a c1]|e]|]; [now apply Hk | discriminate | congruence].
Qed.

Lemma lift_returns {A : Type} (m : P A) (current : nat) : lift m current <> None.
Proof. discriminate. Qed.

Ltac returns_step :=
  apply bindF_returns;
  [ try apply lift_returns
  | let a := fresh "a" in let c := fresh "c" in let H := fresh "H" in
    intros a c H; try apply lift_ok in H ].

Lemma enough_fuel (fuel : nat) :
  (forall current, 3 * (List.length tokens - current) + 3 <= fuel ->
     expression fuel current <> None) /\
  (forall current, 3 * (List.length tokens - current) + 2 <= fuel ->
     application fuel current <> None) /\
  (forall expr current, 3 * (List.length tokens - current) + 2 <= fuel ->
     application_loop fuel expr current <> None) /\
  (forall current, 3 * (List.length tokens - current) + 1 <= fuel ->
     atom fuel current <> None).
Proof.
  induction fuel as [|fuel (IHe & IHa & IHl & IHt)].
  - repeat split; intros; lia.
  - pose proof (progress fuel) as (Pe & Pa & Pl & Pt).
    repeat apply conj.
    + intros current Hf. rewrite expression_S. apply IHa. lia.
    + intros current Hf. rewrite application_S.
      returns_step; [apply IHt; lia|].
      apply Pt in H. apply IHl. lia.
    + intros expr current Hf. rewrite application_loop_S.
      returns_step. apply continue_ok in H. subst c. destruct a.
      * returns_step; [apply IHt; lia|].
        apply Pt in H. apply IHl. lia.
      * apply lift_returns.
    + intros current Hf. rewrite atom_S.
      returns_step. apply match__ok in H. destruct H as [Hlt ->]. destruct a.
      * returns_step. apply consume_ok in H. subst c.
        returns_step. apply consume_ok in H. subst c.
        returns_step; [apply IHe; lia|].
        returns_step. apply lift_returns.
      * returns_step. apply match__ok in H. destruct H as [_ ->]. destruct a.
        -- returns_step. returns_step. apply lift_returns.
        -- returns_step. apply match__ok in H. destruct H as [_ ->]. destruct a.
           ++ returns_step; [apply IHe; lia|].
              returns_step. apply lift_returns.
           ++ repeat returns_step. apply lift_returns.
Qed.

(** *** Where a successful parse stops *)

Definition stops_application (t : Token) : Prop :=
  type t = TEOF \/ type t = TRParen \/ type t = TDot.

Lemma continue_false (current c' : nat) :
  andP (notP isAtEnd) (andP (notP (check TRParen)) (notP (check TDot))) current
  = Ok (false, c') ->
  exists t, nth_error tokens current = Some t /\ stops_application t.
Proof.
  unfold andP, notP, bind, ret. rewrite isAtEnd_eq.
  destruct (nth_error tokens current) as [t|] eqn:E; [|discriminate].
  intros H. exists t. split; [reflexivity|]. revert H. unfold stops_application.
  destruct (type t) eqn:Ht; simpl; auto;
    rewrite !check_eq, E, Ht; simpl; try rewrite check_eq, E, Ht; simpl;
    discriminate.
Qed.

Lemma application_loop_stops (fuel : nat) :
  forall expr current n c',
    application_loop fuel expr current = Some (Ok (n, c')) ->
    exists t, nth_error tokens c' = Some t /\ stops_application t.
Proof.
  induction fuel as [|fuel IH]; intros expr current n c' H; [discriminate|].
  rewrite application_loop_S in H.
  inv_bind H. apply lift_ok in H0. pose proof (continue_ok _ _ _ H0). subst c.
  destruct a.
  - inv_bind H. eauto.
  - apply lift_ok in H. inversion H. subst. eapply continue_false; eassumption.
Qed.

(** [parse()] returns at the end of the input or in front of a [')'] or a
    ['.'] that no enclosing call consumes. *)
Lemma parse_run_stops (node : Node) (current : nat) :
  parse_run = Some (Ok (node, current)) ->
  exists t, nth_error tokens current = Some t /\ stops_application t.
Proof.
  unfold parse_run. replace (3 * List.length tokens + 3)
    with (S (S (3 * List.length tokens + 1))) by lia.
  rewrite expression_S, application_S. intros H. inv_bind H.
  eapply application_loop_stops; eassumption.
Qed.

(** [parse()] returns or throws: the fuel of [parse_run] is enough. *)
Lemma expression_returns : parse_run <> None.
Proof. unfold parse_run. apply (enough_fuel _). lia. Qed.

(** [parse()]. *)
Definition parse : Result Node :=
  match parse_run as r return r <> None -> Result Node with
  | Some (Ok (node, _)) => fun _ => Ok node
  | Some (Throw e) => fun _ => Throw e
  | None => fun H => False_rect _ (H eq_refl)
  end expression_returns.

Lemma parse_eq (r : Result (Node * nat)) :
  parse_run = Some r ->
  parse = match r with Ok (node, _) => Ok node | Throw e => Throw e end.
Proof.
  unfold parse. generalize expression_returns.
  destruct parse_run as [r'|]; [|congruence].
  intros n H. inversion H. subst. destruct r as [[node c]|e]; reflexivity.
Qed.

End WithTokens.
End Parser.

(* ===================================================================== *)
(** ** interpreter.ts *)
(* ===================================================================== *)

Module Interpreter.

(** [isFreeIn(name, node)]. *)
Fixpoint isFreeIn (name : string) (node : Node) : bool :=
  match node with
  | variable n => String.eqb n name
  | abstraction param body => negb (String.eqb param name) && isFreeIn name body
  | application l r => isFreeIn name l || isFreeIn name r
  end.

Lemma length_append (s1 s2 : string) :
  String.length (s1 ++ s2) = String.length s1 + String.length s2.
Proof. induction s1 as [|c s1 IH]; simpl; [reflexivity | now rewrite IH]. Qed.

Lemma isFreeIn_maxNameLen (name : string) (node : Node) :
  isFreeIn name node = true -> String.length name <= maxNameLen node.
Proof.
  induction node as [n | p b IH | l IHl r IHr]; simpl; intros H.
  - apply String.eqb_eq in H. subst. lia.
  - apply andb_true_iff in H. destruct H as [_ H]. auto.
  - apply orb_true_iff in H. destruct H as [H | H]; [apply IHl in H | apply IHr in H]; lia.
Qed.

(** The [while] loop of [freshVarName]: primes are appended for as long as
    the candidate is free in [node].  Every round lengthens the candidate
    and a name free in [node] is no longer than [maxNameLen node]. *)
Equations? freshVarName_loop (newName : string) (node : Node) : string
  by wf (S (maxNameLen node) - String.length newName) lt :=
  freshVarName_loop newName node with inspect (isFreeIn newName node) => {
    | exist _ true _ := freshVarName_loop (newName ++ "'") node;
    | exist _ false _ := newName }.
Proof.
  apply isFreeIn_maxNameLen in e. rewrite length_append. simpl.
  rewrite Nat.add_1_r. destruct (String.length newName); lia.
Qed.

(** [freshVarName(usedName, node)]. *)
Definition freshVarName (usedName : string) (node : Node) : string :=
  freshVarName_loop (usedName ++ "'") node.

(** [substitute(node, varName, replacement)].  The TypeScript method
    recurses on [newBody], the renamed body, which is not a subterm of
    [node]; the recursion is therefore driven by a counter, started at
    [size node] by [substitute] below.  [substitute_abstraction] and its
    siblings show that the counter never runs out: [substitute] satisfies
    the equations of the TypeScript method as they are written. *)
Fixpoint substitute_rec (fuel : nat) (node : Node) (varName : string)
    (replacement : Node) : Node :=
  match fuel with
  | 0 => node
  | S fuel' =>
    match node with
    | variable name =>
        if String.eqb name varName then replacement else node
    | abstraction param body =>
        if String.eqb param varName then node
        else if isFreeIn param replacement && isFreeIn varName body then
          let freshName := freshVarName param replacement in
          let newBody := substitute_rec fuel' body param (variable freshName) in
          abstraction freshName (substitute_rec fuel' newBody varName replacement)
        else
          abstraction param (substitute_rec fuel' body varName replacement)
    | application l r =>
        application (substitute_rec fuel' l varName replacement)
                    (substitute_rec fuel' r varName replacement)
    end
  end.

Definition substitute (node : Node) (varName : string) (replacement : Node) : Node :=
  substitute_rec (size node) node varName replacement.

(** [betaReduce(func, arg)]; [func] has the TypeScript type [Abstraction],
    so the other two shapes cannot be passed. *)
Definition betaReduce (func arg : Node) : Node :=
  match func with
  | abstraction param body => substitute body param arg
  | _ => func
  end.

(** [step(node)]; [None] is the TypeScript [null]. *)
Fixpoint step (node : Node) : option Node :=
  match node with
  | variable _ => None
  | abstraction param body =>
      match step body with
      | None => None
      | Some reducedBody => Some (abstraction param reducedBody)
      end
  | application l r =>
      match step l with
      | Some reducedLeft => Some (application reducedLeft r)
      | None =>
          match step r with
          | Some reducedRight => Some (application l reducedRight)
          | None =>
              match l with
              | abstraction _ _ => Some (betaReduce l r)
              | _ => None
              end
          end
      end
  end.

(** [evaluate(node, maxSteps)]: the [while] loop on [current] and [steps].
    Nothing bounds the number of its rounds when [maxSteps] is [Infinity],
    so the loop is given round by round. *)
Fixpoint evaluate_loop (fuel : nat) (maxSteps : number) (current : Node)
    (steps : Z) : option (Result Node) :=
  match fuel with
  | 0 => None
  | S fuel' =>
      if lessThan steps maxSteps then
        match step current with
        | None => Some (Ok current)
        | Some result => evaluate_loop fuel' maxSteps result (increment steps)
        end
      else Some (Throw (NonTermination maxSteps))
  end.

Definition evaluate (node : Node) (maxSteps : number) : Run (Result Node) :=
  fun fuel => evaluate_loop fuel maxSteps node 0.

(** [toString(node)]. *)
Fixpoint toString (node : Node) : string :=
  match node with
  | variable name => name
  | abstraction param body => "(λ" ++ param ++ "." ++ toString body ++ ")"
  | application l r =>
      let left := toString l in
      let right := toString r in
      let leftStr := match l with application _ _ => left | _ => left end in
      let rightStr := match r with variable _ => right | _ => "(" ++ right ++ ")" end in
      leftStr ++ " " ++ rightStr
  end.

End Interpreter.

(* ===================================================================== *)
(** ** index.ts *)
(* ===================================================================== *)

Module LambdaCalculus.

(** An entry of the trace returned by [evaluateWithSteps]. *)
Record Step : Type := mkStep { expression : string }.

(** The object returned by [evaluateWithSteps]. *)
Record Evaluation : Type := mkEvaluation {
  result : Node;
  steps : list Step
}.

(** [parse(input)]. *)
Definition parse (input : jsstring) : Result Node :=
  match Lexer.run input with
  | Ok tokens => Parser.parse tokens
  | Throw e => Throw e
  end.

(** [evaluate(input, maxSteps)]. *)
Definition evaluate (input : jsstring) (maxSteps : number) : Run (Result Node) :=
  fun fuel =>
    match parse input with
    | Ok ast => Interpreter.evaluate ast maxSteps fuel
    | Throw e => Some (Throw e)
    end.

(** [formatExpression(node)]. *)
Definition formatExpression (node : Node) : string := Interpreter.toString node.

(** The [while] loop of [evaluateWithSteps], round by round; it returns
    the three variables [current], [steps] and [stepCount] as the loop
    leaves them. *)
Fixpoint evaluateWithSteps_loop (fuel : nat) (maxSteps : number) (current : Node)
    (steps : list Step) (stepCount : Z) : option (Node * list Step * Z) :=
  match fuel with
  | 0 => None
  | S fuel' =>
      if lessThan stepCount maxSteps then
        match Interpreter.step current with
        | None => Some (current, steps, stepCount)
        | Some result =>
            evaluateWithSteps_loop fuel' maxSteps result
              (steps ++ [mkStep (formatExpression result)])%list
              (increment stepCount)
        end
      else Some (current, steps, stepCount)
  end.

(** [evaluateWithSteps(input, maxSteps)]. *)
Definition evaluateWithSteps (input : jsstring) (maxSteps : number) :
    Run (Result Evaluation) :=
  fun fuel =>
    match parse input with
    | Ok ast =>
        let steps := [mkStep (formatExpression ast)] in
        match evaluateWithSteps_loop fuel maxSteps ast steps 0 with
        | Some (current, steps, stepCount) =>
            if atLeast stepCount maxSteps then Some (Throw (NonTermination maxSteps))
            else Some (Ok (mkEvaluation current steps))
        | None => None
        end
    | Throw e => Some (Throw e)
    end.

End LambdaCalculus.

(* ===================================================================== *)
(** ** Vocabulary of the properties *)
(* ===================================================================== *)

Module Vocabulary.
Import Interpreter LambdaCalculus.

(** [primes k]: [k] copies of the marker appended by [freshVarName]. *)
Fixpoint primes (k : nat) : string :=
  match k with
  | 0 => ""
  | S k' => "'" ++ primes k'
  end.

(** [iter_step k node]: the term reached from [node] by [k] calls of [step],
    when each of them reduces. *)
Fixpoint iter_step (k : nat) (node : Node) : option Node :=
  match k with
  | 0 => Some node
  | S k' =>
      match step node with
      | Some node' => iter_step k' node'
      | None => None
      end
  end.

(** [chain current trace final]: [trace] lists the successive reducts of
    [current], each obtained from the one before by [step], and [final] is
    the last of them ([current] itself when [trace] is empty). *)
Fixpoint chain (current : Node) (trace : list Node) (final : Node) : Prop :=
  match trace with
  | [] => final = current
  | node :: trace' => step current = Some node /\ chain node trace' final
  end.

(** The entry pushed on [steps] for a term. *)
Definition snapshot (node : Node) : Step := mkStep (formatExpression node).

(** [counter k]: the counter of a loop after [k] rounds, that is [k]
    times [steps++] from 0. *)
Definition counter (k : nat) : Z := Z.min (Z.of_nat k) maxExact.

(** [no_smaller m m']: every counter below the bound [m] is below [m']. *)
Definition no_smaller (m m' : number) : Prop :=
  forall steps, lessThan steps m = true -> lessThan steps m' = true.

(** Nameless terms: an occurrence of a bound variable is the number of
    binders between it and its own binder; free variables keep their
    name. *)
Inductive DNode : Type :=
| DFree (name : string)
| DBound (index : nat)
| DAbs (body : DNode)
| DApp (l r : DNode).

(** Position of the innermost binder of [name] in the list of the
    enclosing binders, innermost first. *)
Fixpoint index_of (name : string) (ctx : list string) : option nat :=
  match ctx with
  | [] => None
  | p :: ctx' =>
      if String.eqb p name then Some 0 else option_map S (index_of name ctx')
  end.

Fixpoint nameless (ctx : list string) (node : Node) : DNode :=
  match node with
  | variable name =>
      match index_of name ctx with
      | Some i => DBound i
      | None => DFree name
      end
  | abstraction param body => DAbs (nameless (param :: ctx) body)
  | application l r => DApp (nameless ctx l) (nameless ctx r)
  end.

(** Two terms are alpha-equivalent when they differ by a consistent
    renaming of their bound variables, that is, when their nameless forms
    are equal. *)
Definition alpha_equiv (t t' : Node) : Prop := nameless [] t = nameless [] t'.

(** [shift d c t] adds [d] to the indices of [t] that are at least [c]. *)
Fixpoint shift (d c : nat) (t : DNode) : DNode :=
  match t with
  | DFree name => DFree name
  | DBound i => if (i <? c)%nat then DBound i else DBound (i + d)
  | DAbs body => DAbs (shift d (S c) body)
  | DApp l r => DApp (shift d c l) (shift d c r)
  end.

(** [dsubst k s t] replaces the index [k] of [t] by [s] and closes the
    gap left by the binder. *)
Fixpoint dsubst (k : nat) (s : DNode) (t : DNode) : DNode :=
  match t with
  | DFree name => DFree name
  | DBound i =>
      match Nat.compare i k with
      | Lt => DBound i
      | Eq => shift k 0 s
      | Gt => DBound (pred i)
      end
  | DAbs body => DAbs (dsubst (S k) s body)
  | DApp l r => DApp (dsubst k s l) (dsubst k s r)
  end.

(** [renames node varName replacement]: [substitute] takes its
    alpha-conversion branch on these arguments. *)
Fixpoint renames (node : Node) (varName : string) (replacement : Node) : bool :=
  match node with
  | variable _ => false
  | abstraction param body =>
      if String.eqb param varName then false
      else if isFreeIn param replacement && isFreeIn varName body then true
      else renames body varName replacement
  | application l r =>
      renames l varName replacement || renames r varName replacement
  end.

(** [slips node varName replacement]: on these arguments [substitute]
    alpha-converts a binder to a fresh name that is free in the body of
    that binder.  The fresh name is chosen against the replacement only;
    [slips] follows the calls of [substitute], the two nested ones of the
    alpha-conversion branch included, driven by the same counter. *)
Fixpoint slips_rec (fuel : nat) (node : Node) (varName : string)
    (replacement : Node) : bool :=
  match fuel with
  | 0 => false
  | S fuel' =>
    match node with
    | variable _ => false
    | abstraction param body =>
        if String.eqb param varName then false
        else if isFreeIn param replacement && isFreeIn varName body then
          let freshName := freshVarName param replacement in
          let newBody := substitute body param (variable freshName) in
          isFreeIn freshName body
          || slips_rec fuel' body param (variable freshName)
          || slips_rec fuel' newBody varName replacement
        else slips_rec fuel' body varName replacement
    | application l r =>
        slips_rec fuel' l varName replacement
        || slips_rec fuel' r varName replacement
    end
  end.

Definition slips (node : Node) (varName : string) (replacement : Node) : bool :=
  slips_rec (size node) node varName replacement.

(** [step_slips node]: the beta reduction done by [step node] slips. *)
Fixpoint step_slips (node : Node) : bool :=
  match node with
  | variable _ => false
  | abstraction _ body => step_slips body
  | application l r =>
      match step l with
      | Some _ => step_slips l
      | None =>
          match step r with
          | Some _ => step_slips r
          | None =>
              match l with
              | abstraction param body => slips body param r
              | _ => false
              end
          end
      end
  end.

(** [run_slips k node]: one of the first [k] steps from [node] slips. *)
Fixpoint run_slips (k : nat) (node : Node) : bool :=
  match k with
  | 0 => false
  | S k' =>
      step_slips node ||
      match step node with
      | Some node' => run_slips k' node'
      | None => false
      end
  end.

(** *** Concrete inputs *)

Definition capture_node : Node :=
  abstraction "y" (application (variable "x") (variable "y'")).

Definition capture_source : string := "(\z.\y.z y z) (\w.\x.y (\y.x w))".

Definition capture_replacement : Node :=
  abstraction "w" (abstraction "x"
    (application (variable "y")
       (abstraction "y" (application (variable "x") (variable "w"))))).

Definition capture_term : Node :=
  application
    (abstraction "z" (abstraction "y"
       (application (application (variable "z") (variable "y")) (variable "z"))))
    capture_replacement.

(** [capture_term] with its bound [y] renamed to [u]. *)
Definition capture_term_renamed : Node :=
  application
    (abstraction "z" (abstraction "u"
       (application (application (variable "z") (variable "u")) (variable "z"))))
    capture_replacement.

Definition redex_in_argument : Node :=
  application (abstraction "x" (variable "y"))
    (application (abstraction "z" (variable "z")) (variable "w")).

(** The self-reproducing term [(λx.x x) (λx.x x)]. *)
Definition omega : Node :=
  application
    (abstraction "x" (application (variable "x") (variable "x")))
    (abstraction "x" (application (variable "x") (variable "x"))).

Definition trailing_tokens : list Token :=
  [ mkToken TVariable (Some "x") 0; mkToken TRParen None 2;
    mkToken TVariable (Some "y") 4; mkToken TEOF None 5 ].

(** Two alpha-equivalent terms that reduce without alpha-conversion. *)
Definition apply_left : Node :=
  application
    (abstraction "x" (abstraction "y" (application (variable "x") (variable "y"))))
    (variable "z").

Definition apply_right : Node :=
  application
    (abstraction "a" (abstraction "b" (application (variable "a") (variable "b"))))
    (variable "z").

(** Two alpha-equivalent terms whose reduction alpha-converts a binder,
    to a name that is not free in its body: [(λx.λy.x) y] and
    [(λx.λz.x) y]. *)
Definition rename_left : Node :=
  application (abstraction "x" (abstraction "y" (variable "x"))) (variable "y").

Definition rename_right : Node :=
  application (abstraction "x" (abstraction "z" (variable "x"))) (variable "y").

End Vocabulary.

(* ===================================================================== *)
(** ** Properties of the interpreter *)
(* ===================================================================== *)

Module InterpreterFacts.
Import Interpreter Vocabulary.

Lemma size_pos (node : Node) : 1 <= size node.
Proof. destruct node; simpl; lia. Qed.

(** Replacing a variable by a variable keeps the size of the tree. *)
Lemma substitute_rec_size_variable (fuel : nat) :
  forall node varName name,
    size (substitute_rec fuel node varName (variable name)) = size node.
Proof.
  induction fuel as [|fuel IH]; intros node varName name; [reflexivity|].
  destruct node as [n | p b | l r]; simpl.
  - destruct (String.eqb n varName); reflexivity.
  - destruct (String.eqb p varName); [reflexivity|].
    match goal with |- context [if ?c then _ else _] => destruct c end;
      simpl; now rewrite ?IH.
  - now rewrite !IH.
Qed.

(** The counter of [substitute_rec] is irrelevant once it covers the size
    of the tree. *)
Lemma substitute_rec_fuel (fuel : nat) :
  forall fuel' node varName replacement,
    size node <= fuel -> size node <= fuel' ->
    substitute_rec fuel node varName replacement
    = substitute_rec fuel' node varName replacement.
Proof.
  induction fuel as [|fuel IH]; intros fuel' node varName replacement Hf Hf'.
  - pose proof (size_pos node). lia.
  - destruct fuel' as [|fuel']; [pose proof (size_pos node); lia|].
    destruct node as [n | p b | l r]; simpl in *.
    + reflexivity.
    + destruct (String.eqb p varName); [reflexivity|].
      destruct (isFreeIn p replacement && isFreeIn varName b).
      * rewrite (IH fuel' b) by lia.
        rewrite (IH fuel' (substitute_rec fuel' b p _))
          by (rewrite substitute_rec_size_variable; lia).
        reflexivity.
      * rewrite (IH fuel' b) by lia. reflexivity.
    + rewrite (IH fuel' l), (IH fuel' r) by lia. reflexivity.
Qed.

(** The equations of the TypeScript method. *)
Lemma substitute_variable (name varName : string) (replacement : Node) :
  substitute (variable name) varName replacement
  = if String.eqb name varName then replacement else variable name.
Proof. reflexivity. Qed.

Lemma substitute_application (l r : Node) (varName : string) (replacement : Node) :
  substitute (application l r) varName replacement
  = application (substitute l varName replacement) (substitute r varName replacement).
Proof.
  unfold substitute. simpl.
  rewrite (substitute_rec_fuel _ (size l) l), (substitute_rec_fuel _ (size r) r) by lia.
  reflexivity.
Qed.

Lemma substitute_abstraction (param : string) (body : Node) (varName : string)
    (replacement : Node) :
  substitute (abstraction param body) varName replacement
  = if String.eqb param varName then abstraction param body
    else if isFreeIn param replacement && isFreeIn varName body then
      let freshName := freshVarName param replacement in
      let newBody := substitute body param (variable freshName) in
      abstraction freshName (substitute newBody varName replacement)
    else abstraction param (substitute body varName replacement).
Proof.
  unfold substitute. simpl.
  destruct (String.eqb param varName); [reflexivity|].
  destruct (isFreeIn param replacement && isFreeIn varName body); [|reflexivity].
  simpl. rewrite substitute_rec_size_variable. reflexivity.
Qed.

Lemma substitute_size_variable (node : Node) (varName name : string) :
  size (substitute node varName (variable name)) = size node.
Proof. apply substitute_rec_size_variable. Qed.

(** *** Fresh names *)

Lemma append_assoc (s1 s2 s3 : string) : (s1 ++ s2) ++ s3 = s1 ++ (s2 ++ s3).
Proof. induction s1 as [|c s1 IH]; simpl; [reflexivity | now rewrite IH]. Qed.

Lemma append_empty_r (s : string) : s ++ "" = s.
Proof. induction s as [|c s IH]; simpl; [reflexivity | now rewrite IH]. Qed.

Lemma length_primes (k : nat) : String.length (primes k) = k.
Proof. induction k as [|k IH]; simpl; [reflexivity | now rewrite IH]. Qed.

Lemma freshVarName_loop_eq (newName : string) (node : Node) :
  freshVarName_loop newName node =
  if isFreeIn newName node then freshVarName_loop (newName ++ "'") node
  else newName.
Proof.
  funelim (freshVarName_loop newName node); rewrite e; reflexivity.
Qed.

(** The loop stops at the first candidate that is not free in [node]. *)
Lemma freshVarName_loop_spec (node : Node) (newName : string) :
  exists k,
    freshVarName_loop newName node = newName ++ primes k /\
    isFreeIn (newName ++ primes k) node = false /\
    (forall j, j < k -> isFreeIn (newName ++ primes j) node = true) /\
    (k = 0 \/ String.length newName + k <= S (maxNameLen node)).
Proof.
  remember (S (maxNameLen node) - String.length newName) as m eqn:Hm.
  revert newName Hm. induction m as [m IH] using lt_wf_ind. intros newName Hm.
  rewrite freshVarName_loop_eq.
  destruct (isFreeIn newName node) eqn:E.
  - pose proof (isFreeIn_maxNameLen _ _ E) as Hlen.
    destruct (IH (S (maxNameLen node) - String.length (newName ++ "'"))
                 ltac:(rewrite length_append; change (String.length "'") with 1; lia)
                 (newName ++ "'") eq_refl)
      as (k & Hk & Hfresh & Hmin & Hbound).
    exists (S k). rewrite append_assoc in Hk, Hfresh. repeat split.
    + exact Hk.
    + exact Hfresh.
    + intros [|j] Hj; [now rewrite append_empty_r|].
      specialize (Hmin j ltac:(lia)). now rewrite append_assoc in Hmin.
    + right. rewrite length_append in Hbound.
      change (String.length "'") with 1 in Hbound.
      destruct Hbound as [->|Hbound]; lia.
  - exists 0. rewrite append_empty_r. repeat split; auto. intros j Hj. lia.
Qed.

(** *** Free variables *)

Lemma isFreeIn_substitute_bound (n : nat) :
  forall node varName replacement z,
    size node <= n ->
    isFreeIn z (substitute node varName replacement) = true ->
    (isFreeIn z node = true /\ z <> varName) \/ isFreeIn z replacement = true.
Proof.
  induction n as [|n IH]; intros node varName replacement z Hn;
    [pose proof (size_pos node); lia|].
  destruct node as [name | p b | l r]; simpl in Hn.
  - rewrite substitute_variable.
    destruct (String.eqb_spec name varName) as [->|Hne]; [now right|].
    simpl. intros H. apply String.eqb_eq in H. subst. left. split; [|assumption].
    simpl. apply String.eqb_refl.
  - rewrite substitute_abstraction.
    destruct (String.eqb_spec p varName) as [->|Hne].
    { intros H. left. split; [assumption|]. simpl in H.
      apply andb_true_iff in H. destruct H as [H _].
      apply negb_true_iff, String.eqb_neq in H. congruence. }
    destruct (isFreeIn p replacement && isFreeIn varName b); cbv zeta; simpl;
      intros H; apply andb_true_iff in H; destruct H as [Hz H].
    + apply IH in H; [|rewrite substitute_size_variable; lia].
      destruct H as [[H Hzx]|H]; [|now right].
      apply IH in H; [|lia]. destruct H as [[H Hzp]|H].
      * left. split; [|assumption]. rewrite H, andb_true_r.
        apply negb_true_iff, String.eqb_neq. congruence.
      * simpl in H. rewrite H in Hz. discriminate.
    + apply IH in H; [|lia]. destruct H as [[H Hzx]|H]; [|now right].
      left. split; [|assumption]. now rewrite Hz, H.
  - rewrite substitute_application. simpl. intros H.
    apply orb_true_iff in H. destruct H as [H|H]; apply IH in H; try lia;
      destruct H as [[H Hzx]|H]; try (now right); left; (split; [|assumption]);
      rewrite H; [reflexivity | apply orb_true_r].
Qed.

(** A free variable of the result of [substitute] is a free variable of
    [node] other than [varName], or a free variable of [replacement]. *)
Lemma isFreeIn_substitute (node : Node) (varName : string) (replacement : Node)
    (z : string) :
  isFreeIn z (substitute node varName replacement) = true ->
  (isFreeIn z node = true /\ z <> varName) \/ isFreeIn z replacement = true.
Proof. apply (isFreeIn_substitute_bound (size node)). lia. Qed.

Lemma isFreeIn_step (node : Node) :
  forall node' z,
    step node = Some node' -> isFreeIn z node' = true -> isFreeIn z node = true.
Proof.
  induction node as [name | p b IH | l IHl r IHr]; intros node' z; simpl.
  - discriminate.
  - destruct (step b) as [b'|]; [|discriminate].
    intros H; inversion H; subst; simpl. intros Hz.
    apply andb_true_iff in Hz. destruct Hz as [Hp Hz].
    rewrite Hp. simpl. eauto.
  - destruct (step l) as [l'|].
    { intros H; inversion H; subst; simpl. intros Hz.
      apply orb_true_iff in Hz. destruct Hz as [Hz|Hz].
      - erewrite IHl by eauto. reflexivity.
      - rewrite Hz. apply orb_true_r. }
    destruct (step r) as [r'|].
    { intros H; inversion H; subst; simpl. intros Hz.
      apply orb_true_iff in Hz. destruct Hz as [Hz|Hz].
      - rewrite Hz. reflexivity.
      - erewrite IHr by eauto. apply orb_true_r. }
    destruct l as [name | p b | l1 l2]; try discriminate.
    intros H; inversion H; subst. simpl. intros Hz.
    apply isFreeIn_substitute in Hz. destruct Hz as [[Hz Hne]|Hz].
    + rewrite Hz. apply String.eqb_neq in Hne. rewrite String.eqb_sym in Hne.
      rewrite Hne. reflexivity.
    + rewrite Hz. apply orb_true_r.
Qed.

(** *** Bounds and counters *)

Lemma lessThan_int (steps n : Z) : lessThan steps (int n) = (steps <? n)%Z.
Proof.
  unfold lessThan, int, Qle_bool. simpl. rewrite !Z.mul_1_r.
  destruct (Z.leb_spec n steps), (Z.ltb_spec steps n); try reflexivity; lia.
Qed.

Lemma atLeast_int (steps n : Z) : atLeast steps (int n) = (n <=? steps)%Z.
Proof. unfold atLeast, int, Qle_bool. simpl. now rewrite !Z.mul_1_r. Qed.

(** A counter below a bound is below it after any smaller count. *)
Lemma lessThan_mono (steps steps' : Z) (m : number) :
  (steps <= steps')%Z -> lessThan steps' m = true -> lessThan steps m = true.
Proof.
  intros Hle. destruct m as [q| | |]; simpl; try easy.
  unfold Qle_bool. simpl. rewrite !Z.mul_1_r, !negb_true_iff, !Z.leb_gt.
  intros H. pose proof (Pos2Z.is_pos (Qden q)). nia.
Qed.

Lemma lessThan_atLeast (steps : Z) (m : number) :
  lessThan steps m = true -> atLeast steps m = false.
Proof.
  destruct m; simpl; try easy. now rewrite negb_true_iff.
Qed.

(** Apart from [NaN], a bound that is not above the counter is reached. *)
Lemma not_lessThan_atLeast (steps : Z) (m : number) :
  m <> NaN -> lessThan steps m = false -> atLeast steps m = true.
Proof.
  destruct m; simpl; try easy. now rewrite negb_false_iff.
Qed.

Lemma counter_0 : counter 0 = 0%Z.
Proof. reflexivity. Qed.

Lemma increment_counter (k : nat) : increment (counter k) = counter (S k).
Proof.
  unfold increment, counter, maxExact.
  destruct (Z.ltb_spec (Z.min (Z.of_nat k) 9007199254740992) 9007199254740992); lia.
Qed.

Lemma counter_le (j k : nat) : j <= k -> (counter j <= counter k)%Z.
Proof. unfold counter. lia. Qed.

Lemma counter_exact (k : nat) : (Z.of_nat k <= maxExact)%Z -> counter k = Z.of_nat k.
Proof. unfold counter. lia. Qed.

Lemma counter_max (k : nat) : (counter k <= maxExact)%Z.
Proof. unfold counter. lia. Qed.

Lemma counter_saturates (k : nat) : (maxExact <= Z.of_nat k)%Z -> counter k = maxExact.
Proof. unfold counter. lia. Qed.

(** For an integer bound up to [2^53], the tests of the loop pass for the
    first [n] rounds and no longer. *)
Lemma lessThan_counter_int (k : nat) (n : Z) :
  (n <= maxExact)%Z ->
  lessThan (counter k) (int n) = (Z.of_nat k <? n)%Z.
Proof.
  intros Hn. rewrite lessThan_int. unfold counter.
  destruct (Z.ltb_spec (Z.min (Z.of_nat k) maxExact) n),
           (Z.ltb_spec (Z.of_nat k) n); try reflexivity; lia.
Qed.

(** A bound above [2^53] is above every counter. *)
Lemma lessThan_counter_beyond (k : nat) (m : number) :
  lessThan maxExact m = true -> lessThan (counter k) m = true.
Proof. apply lessThan_mono, counter_max. Qed.

(** *** Iterated reduction *)

Lemma iter_step_add (j k : nat) :
  forall node,
    iter_step (j + k) node =
    match iter_step j node with
    | Some node' => iter_step k node'
    | None => None
    end.
Proof.
  induction j as [|j IH]; intros node; simpl; [reflexivity|].
  destruct (step node); [apply IH | reflexivity].
Qed.

(** A term that makes [j + k] steps makes [j] steps. *)
Lemma iter_step_prefix (j k : nat) (node : Node) :
  iter_step (j + k) node <> None -> iter_step j node <> None.
Proof. rewrite iter_step_add. destruct (iter_step j node); congruence. Qed.

(** More rounds do not change what the loop of [evaluate] has returned. *)
Lemma evaluate_loop_mono (fuel : nat) :
  forall fuel' maxSteps current steps r,
    evaluate_loop fuel maxSteps current steps = Some r -> fuel <= fuel' ->
    evaluate_loop fuel' maxSteps current steps = Some r.
Proof.
  induction fuel as [|fuel IH]; intros fuel' maxSteps current steps r H Hle;
    [discriminate|].
  destruct fuel' as [|fuel']; [lia|]. simpl in *.
  destruct (lessThan steps maxSteps); [|assumption].
  destruct (step current); [|assumption]. apply IH; [assumption | lia].
Qed.

(** What the loop of [evaluate] has done after [fuel] rounds, started
    with the counter after [j] rounds. *)
Lemma evaluate_loop_spec (fuel : nat) :
  forall maxSteps current j,
    match evaluate_loop fuel maxSteps current (counter j) with
    | Some (Ok node) =>
        exists k, k < fuel /\ lessThan (counter (j + k)) maxSteps = true /\
                  iter_step k current = Some node /\ step node = None
    | Some (Throw e) =>
        e = NonTermination maxSteps /\
        exists k, k < fuel /\ lessThan (counter (j + k)) maxSteps = false /\
                  (forall i, i < k -> lessThan (counter (j + i)) maxSteps = true) /\
                  iter_step k current <> None
    | None =>
        (forall i, i < fuel -> lessThan (counter (j + i)) maxSteps = true) /\
        iter_step fuel current <> None
    end.
Proof.
  induction fuel as [|fuel IH]; intros maxSteps current j; simpl.
  - split; [intros i Hi; lia | discriminate].
  - destruct (lessThan (counter j) maxSteps) eqn:Elt.
    + destruct (step current) as [result|] eqn:E.
      * rewrite increment_counter. specialize (IH maxSteps result (S j)).
        destruct (evaluate_loop fuel maxSteps result (counter (S j))) as [[node|e]|].
        -- destruct IH as (k & Hk & Hlt & Hit & Hn). exists (S k).
           rewrite Nat.add_succ_r. simpl. rewrite E. repeat split; auto. lia.
        -- destruct IH as (-> & k & Hk & Hlt & Hall & Hit). split; [reflexivity|].
           exists (S k). rewrite Nat.add_succ_r. simpl. rewrite E.
           repeat split; auto; [lia|].
           intros [|i] Hi; [now rewrite Nat.add_0_r|].
           rewrite Nat.add_succ_r. apply Hall. lia.
        -- destruct IH as (Hall & Hit). split; [|assumption].
           intros [|i] Hi; [now rewrite Nat.add_0_r|].
           rewrite Nat.add_succ_r. apply Hall. lia.
      * exists 0. rewrite Nat.add_0_r. repeat split; auto. lia.
    + split; [reflexivity|]. exists 0. rewrite Nat.add_0_r.
      repeat split; auto; [lia | intros i Hi; lia | discriminate].
Qed.

(** A normal form reached while the tests of the loop pass is returned. *)
Lemma evaluate_loop_reaches (k : nat) :
  forall maxSteps current j node fuel,
    iter_step k current = Some node -> step node = None ->
    lessThan (counter (j + k)) maxSteps = true -> k < fuel ->
    evaluate_loop fuel maxSteps current (counter j) = Some (Ok node).
Proof.
  induction k as [|k IH]; intros maxSteps current j node fuel Hit Hn Hlt Hf;
    (destruct fuel as [|fuel]; [lia|]); simpl in *.
  - inversion Hit; subst. rewrite Nat.add_0_r in Hlt. now rewrite Hlt, Hn.
  - rewrite (lessThan_mono _ _ _ (counter_le j (j + S k) ltac:(lia)) Hlt).
    destruct (step current) as [result|]; [|discriminate].
    rewrite increment_counter. apply IH; auto; [|lia].
    now rewrite Nat.add_succ_r in Hlt.
Qed.

(** A test of the loop that fails on a term reached by reduction makes
    [evaluate] throw. *)
Lemma evaluate_loop_throws (k : nat) :
  forall maxSteps current j fuel,
    iter_step k current <> None ->
    lessThan (counter (j + k)) maxSteps = false -> k < fuel ->
    evaluate_loop fuel maxSteps current (counter j)
    = Some (Throw (NonTermination maxSteps)).
Proof.
  induction k as [|k IH]; intros maxSteps current j fuel Hit Hlt Hf;
    (destruct fuel as [|fuel]; [lia|]); simpl in *.
  - rewrite Nat.add_0_r in Hlt. now rewrite Hlt.
  - destruct (lessThan (counter j) maxSteps); [|reflexivity].
    destruct (step current) as [result|]; [|congruence].
    rewrite increment_counter. apply IH; auto; [|lia].
    now rewrite Nat.add_succ_r in Hlt.
Qed.

(** What [evaluate] has done after [fuel] rounds. *)
Lemma evaluate_spec (node : Node) (maxSteps : number) (fuel : nat) :
  match evaluate node maxSteps fuel with
  | Some (Ok node') =>
      exists k, k < fuel /\ lessThan (counter k) maxSteps = true /\
                iter_step k node = Some node' /\ step node' = None
  | Some (Throw e) =>
      e = NonTermination maxSteps /\
      exists k, k < fuel /\ lessThan (counter k) maxSteps = false /\
                (forall i, i < k -> lessThan (counter i) maxSteps = true) /\
                iter_step k node <> None
  | None =>
      (forall i, i < fuel -> lessThan (counter i) maxSteps = true) /\
      iter_step fuel node <> None
  end.
Proof. exact (evaluate_loop_spec fuel maxSteps node 0). Qed.

(** The number of rounds after which a counter is at [2^53]. *)
Definition rounds : nat := Z.to_nat maxExact.

Lemma counter_rounds : counter rounds = maxExact.
Proof.
  apply counter_saturates. unfold rounds. rewrite Z2Nat.id; unfold maxExact; lia.
Qed.

(** With a bound that is not above [2^53], [evaluate] ends. *)
Lemma evaluate_ends (node : Node) (maxSteps : number) :
  lessThan maxExact maxSteps = false ->
  exists r, evaluate node maxSteps (S rounds) = Some r.
Proof.
  intros H. pose proof (evaluate_spec node maxSteps (S rounds)) as Hs.
  destruct (evaluate node maxSteps (S rounds)) as [r|]; [now exists r|].
  destruct Hs as [Hall _]. specialize (Hall rounds (Nat.lt_succ_diag_r _)).
  rewrite counter_rounds in Hall. congruence.
Qed.

(** A term that reduces to itself reduces for ever. *)
Lemma cycle_never_stops (node : Node) (k : nat) :
  1 <= k -> iter_step k node = Some node -> forall m, iter_step m node <> None.
Proof.
  intros Hk Hcycle m. induction m as [m IH] using lt_wf_ind.
  destruct (Nat.lt_ge_cases m k) as [Hlt|Hge].
  - apply (iter_step_prefix m (k - m)).
    replace (m + (k - m)) with k by lia. congruence.
  - replace m with (k + (m - k)) by lia. rewrite iter_step_add, Hcycle.
    apply IH. lia.
Qed.

(** On a term that reduces for ever, [evaluate] does not return a term;
    it throws when the bound is not above [2^53] and runs for ever
    otherwise. *)
Lemma evaluate_never_returns (node : Node) (maxSteps : number) :
  (forall m, iter_step m node <> None) ->
  forall node', ~ returns (evaluate node maxSteps) (Ok node').
Proof.
  intros Hall node' [fuel H]. pose proof (evaluate_spec node maxSteps fuel) as Hs.
  rewrite H in Hs. destruct Hs as (k & _ & _ & Hit & Hn).
  apply (Hall (S k)). replace (S k) with (k + 1) by lia.
  rewrite iter_step_add, Hit. simpl. now rewrite Hn.
Qed.

Lemma evaluate_never_stops_throws (node : Node) (maxSteps : number) :
  (forall m, iter_step m node <> None) ->
  lessThan maxExact maxSteps = false ->
  returns (evaluate node maxSteps) (Throw (NonTermination maxSteps)).
Proof.
  intros Hall H. exists (S rounds).
  apply (evaluate_loop_throws rounds maxSteps node 0); [apply Hall| |lia].
  simpl. now rewrite counter_rounds.
Qed.

Lemma evaluate_never_stops_hangs (node : Node) (maxSteps : number) :
  (forall m, iter_step m node <> None) ->
  lessThan maxExact maxSteps = true ->
  hangs (evaluate node maxSteps).
Proof.
  intros Hall H fuel. pose proof (evaluate_spec node maxSteps fuel) as Hs.
  destruct (evaluate node maxSteps fuel) as [[node'|e]|] eqn:E; [| |reflexivity].
  - destruct (evaluate_never_returns node maxSteps Hall node'). now exists fuel.
  - destruct Hs as (_ & k & _ & Hlt & _).
    rewrite (lessThan_counter_beyond k maxSteps H) in Hlt. discriminate.
Qed.

(** [evaluate] returns, or throws, one thing at most. *)
Lemma evaluate_returns_unique (node : Node) (maxSteps : number)
    (r r' : Result Node) :
  returns (evaluate node maxSteps) r -> returns (evaluate node maxSteps) r' ->
  r = r'.
Proof.
  intros [f H] [f' H']. unfold evaluate in *.
  apply (evaluate_loop_mono _ (Nat.max f f')) in H; [|lia].
  apply (evaluate_loop_mono _ (Nat.max f f')) in H'; [|lia]. congruence.
Qed.

Lemma isFreeIn_iter_step (k : nat) :
  forall node node' z,
    iter_step k node = Some node' -> isFreeIn z node' = true ->
    isFreeIn z node = true.
Proof.
  induction k as [|k IH]; intros node node' z; simpl.
  - intros H; inversion H; auto.
  - destruct (step node) as [n1|] eqn:E; [|discriminate].
    intros H Hz. eapply isFreeIn_step; eauto.
Qed.

End InterpreterFacts.

(* ===================================================================== *)
(** ** Properties of the entry points *)
(* ===================================================================== *)

Module LambdaCalculusFacts.
Import Interpreter LambdaCalculus Vocabulary InterpreterFacts.

(** The loop of [evaluateWithSteps] runs as the loop of [evaluate] does,
    round for round: when [evaluate] returns, the loop was left by [break]
    with the same term, a counter below the bound and the trace of the
    reduction; when [evaluate] throws, the loop was left by its test, with
    a counter that is not below the bound. *)
Lemma evaluateWithSteps_loop_spec (fuel : nat) :
  forall maxSteps current steps stepCount,
    match evaluateWithSteps_loop fuel maxSteps current steps stepCount,
          evaluate_loop fuel maxSteps current stepCount with
    | Some (current', steps', stepCount'), Some (Ok node) =>
        current' = node /\ lessThan stepCount' maxSteps = true /\
        exists trace,
          steps' = (steps ++ map snapshot trace)%list /\ chain current trace node
    | Some (current', steps', stepCount'), Some (Throw _) =>
        lessThan stepCount' maxSteps = false /\
        exists trace,
          steps' = (steps ++ map snapshot trace)%list /\
          chain current trace current'
    | None, None => True
    | _, _ => False
    end.
Proof.
  induction fuel as [|fuel IH]; intros maxSteps current steps stepCount; simpl;
    [exact I|].
  destruct (lessThan stepCount maxSteps) eqn:Elt.
  - destruct (step current) as [result|] eqn:E.
    + specialize (IH maxSteps result (steps ++ [snapshot result])%list
                     (increment stepCount)).
      fold (snapshot result).
      destruct (evaluateWithSteps_loop fuel maxSteps result
                  (steps ++ [snapshot result])%list (increment stepCount))
        as [[[current' steps'] stepCount']|];
        destruct (evaluate_loop fuel maxSteps result (increment stepCount))
          as [[node|err]|]; try assumption.
      * destruct IH as (Hc & Hs & trace & Htr & Hch). repeat split; try assumption.
        exists (result :: trace). split.
        -- rewrite Htr, <- app_assoc. reflexivity.
        -- simpl. auto.
      * destruct IH as (Hs & trace & Htr & Hch). split; [assumption|].
        exists (result :: trace). split.
        -- rewrite Htr, <- app_assoc. reflexivity.
        -- simpl. auto.
    + repeat split; try assumption. exists []. split.
      * now rewrite app_nil_r.
      * reflexivity.
  - split; [assumption|]. exists []. split.
    + now rewrite app_nil_r.
    + reflexivity.
Qed.

End LambdaCalculusFacts.

(* ===================================================================== *)
(** ** Alpha-equivalence *)
(* ===================================================================== *)

Module Alpha.
Import Interpreter Vocabulary InterpreterFacts.

(** *** Binder lists *)

Lemma index_of_app (name : string) (ctx1 ctx2 : list string) :
  index_of name (ctx1 ++ ctx2)%list =
  match index_of name ctx1 with
  | Some i => Some i
  | None => option_map (Nat.add (List.length ctx1)) (index_of name ctx2)
  end.
Proof.
  induction ctx1 as [|p ctx1 IH]; simpl.
  - destruct (index_of name ctx2); reflexivity.
  - destruct (String.eqb p name); [reflexivity|]. rewrite IH.
    destruct (index_of name ctx1); simpl; [reflexivity|].
    destruct (index_of name ctx2); reflexivity.
Qed.

Lemma index_of_lt (name : string) (ctx : list string) (i : nat) :
  index_of name ctx = Some i -> i < List.length ctx.
Proof.
  revert i. induction ctx as [|p ctx IH]; simpl; intros i; [discriminate|].
  destruct (String.eqb p name).
  - intros H; inversion H; lia.
  - destruct (index_of name ctx) as [j|]; simpl; [|discriminate].
    intros H; inversion H. specialize (IH j eq_refl). lia.
Qed.

Lemma index_of_cons_bound (p q : string) (ctx : list string) :
  index_of q ctx <> None -> index_of q (p :: ctx) <> None.
Proof.
  simpl. destruct (String.eqb p q); [discriminate|].
  destruct (index_of q ctx); simpl; congruence.
Qed.

(** *** Nameless forms under more binders *)

Lemma nameless_weaken (r : Node) :
  forall inner mid outer,
    (forall p, index_of p mid <> None ->
               index_of p inner <> None \/ isFreeIn p r = false) ->
    nameless (inner ++ mid ++ outer)%list r
    = shift (List.length mid) (List.length inner) (nameless (inner ++ outer)%list r).
Proof.
  induction r as [name | p b IH | l IHl r IHr]; intros inner mid outer H; simpl.
  - rewrite !index_of_app.
    destruct (index_of name inner) as [i|] eqn:Ei; simpl.
    + apply index_of_lt in Ei. apply Nat.ltb_lt in Ei. now rewrite Ei.
    + destruct (index_of name mid) as [j|] eqn:Em.
      * destruct (H name) as [Hc|Hc]; [congruence | congruence |].
        simpl in Hc. rewrite String.eqb_refl in Hc. discriminate.
      * destruct (index_of name outer) as [j|]; simpl; [|reflexivity].
        destruct (Nat.ltb_spec (List.length inner + j) (List.length inner)); [lia|].
        f_equal. lia.
  - f_equal. apply (IH (p :: inner)). intros q Hq.
    destruct (H q Hq) as [Hc|Hc].
    + left. now apply index_of_cons_bound.
    + simpl in Hc. apply andb_false_iff in Hc. destruct Hc as [Hc|Hc].
      * left. simpl. apply negb_false_iff in Hc. rewrite Hc. discriminate.
      * now right.
  - f_equal.
    + apply IHl. intros q Hq. destruct (H q Hq) as [Hc|Hc]; [now left|].
      right. simpl in Hc. now apply orb_false_iff in Hc.
    + apply IHr. intros q Hq. destruct (H q Hq) as [Hc|Hc]; [now left|].
      right. simpl in Hc. now apply orb_false_iff in Hc.
Qed.

(** A binder that binds nothing can be dropped. *)
Lemma nameless_drop (b : Node) :
  forall inner x outer s,
    index_of x inner <> None \/ isFreeIn x b = false ->
    dsubst (List.length inner) s (nameless (inner ++ x :: outer)%list b)
    = nameless (inner ++ outer)%list b.
Proof.
  induction b as [name | p b IH | l IHl r IHr]; intros inner x outer s H; simpl.
  - rewrite !index_of_app.
    destruct (index_of name inner) as [i|] eqn:Ei; simpl.
    + apply index_of_lt in Ei.
      destruct (Nat.compare_spec i (List.length inner)); try lia. reflexivity.
    + destruct (String.eqb_spec x name) as [->|Hne].
      * destruct H as [H|H]; [congruence|].
        simpl in H. rewrite String.eqb_refl in H. discriminate.
      * destruct (index_of name outer) as [j|]; simpl; [|reflexivity].
        destruct (Nat.compare_spec (List.length inner + S j) (List.length inner));
          try lia.
        f_equal. lia.
  - f_equal. apply (IH (p :: inner)). destruct H as [H|H].
    + left. now apply index_of_cons_bound.
    + simpl in H. apply andb_false_iff in H. destruct H as [H|H].
      * left. simpl. apply negb_false_iff in H. rewrite H. discriminate.
      * now right.
  - simpl in H. f_equal.
    + apply IHl. destruct H as [H|H]; [now left|]. right.
      now apply orb_false_iff in H.
    + apply IHr. destruct H as [H|H]; [now left|]. right.
      now apply orb_false_iff in H.
Qed.

(** *** Substitution without alpha-conversion *)

Lemma substitute_not_free (b : Node) (x : string) (r : Node) :
  isFreeIn x b = false -> substitute b x r = b.
Proof.
  induction b as [name | p b IH | l IHl r' IHr]; simpl; intros H.
  - rewrite substitute_variable, H. reflexivity.
  - rewrite substitute_abstraction.
    destruct (String.eqb p x); [reflexivity|]. simpl in H.
    rewrite H, andb_false_r, IH by assumption. reflexivity.
  - apply orb_false_iff in H. destruct H as [Hl Hr].
    rewrite substitute_application, IHl, IHr by assumption. reflexivity.
Qed.

(** When [substitute] does not alpha-convert, it is the substitution of
    nameless terms. *)
Lemma nameless_substitute (b : Node) :
  forall inner outer x r,
    index_of x inner = None ->
    renames b x r = false ->
    (isFreeIn x b = true ->
     forall p, index_of p inner <> None -> isFreeIn p r = false) ->
    nameless (inner ++ outer)%list (substitute b x r)
    = dsubst (List.length inner) (nameless outer r)
        (nameless (inner ++ x :: outer)%list b).
Proof.
  induction b as [name | p b IH | l IHl r' IHr]; intros inner outer x r Hx Hren Hfree;
    (destruct (isFreeIn x _) eqn:Efree;
     [| rewrite substitute_not_free by assumption;
        symmetry; apply nameless_drop; now right]).
  - simpl in Efree. apply String.eqb_eq in Efree. subst name.
    rewrite substitute_variable, String.eqb_refl. simpl.
    rewrite index_of_app, Hx. simpl. rewrite String.eqb_refl. simpl.
    rewrite Nat.add_0_r, Nat.compare_refl.
    apply (nameless_weaken r [] inner outer). intros q Hq. right. auto.
  - simpl in Efree. apply andb_true_iff in Efree. destruct Efree as [Hpx Hb].
    apply negb_true_iff in Hpx. simpl in Hren. rewrite Hpx, Hb, andb_true_r in Hren.
    destruct (isFreeIn p r) eqn:Hpr; [discriminate|].
    rewrite substitute_abstraction, Hpx, Hpr. simpl. f_equal.
    apply (IH (p :: inner)).
    + simpl. now rewrite Hpx, Hx.
    + assumption.
    + intros _ q Hq. simpl in Hq. destruct (String.eqb_spec p q) as [Heq|Hne].
      * now subst q.
      * apply Hfree; [reflexivity|]. destruct (index_of q inner); [discriminate|].
        now destruct Hq.
  - simpl in Hren. apply orb_false_iff in Hren. destruct Hren as [Hrl Hrr].
    rewrite substitute_application. simpl. f_equal.
    + apply IHl; auto.
    + apply IHr; auto.
Qed.

(** *** Substitution with alpha-conversion *)

(** The counter of [slips_rec] is irrelevant once it covers the size of
    the tree. *)
Lemma slips_rec_fuel (fuel : nat) :
  forall fuel' node varName replacement,
    size node <= fuel -> size node <= fuel' ->
    slips_rec fuel node varName replacement
    = slips_rec fuel' node varName replacement.
Proof.
  induction fuel as [|fuel IH]; intros fuel' node varName replacement Hf Hf'.
  - pose proof (size_pos node). lia.
  - destruct fuel' as [|fuel']; [pose proof (size_pos node); lia|].
    destruct node as [n | p b | l r]; simpl in *.
    + reflexivity.
    + destruct (String.eqb p varName); [reflexivity|].
      destruct (isFreeIn p replacement && isFreeIn varName b).
      * rewrite (IH fuel' b) by lia.
        rewrite (IH fuel' (substitute b p _))
          by (rewrite substitute_size_variable; lia).
        reflexivity.
      * rewrite (IH fuel' b) by lia. reflexivity.
    + rewrite (IH fuel' l), (IH fuel' r) by lia. reflexivity.
Qed.

Lemma slips_application (l r : Node) (varName : string) (replacement : Node) :
  slips (application l r) varName replacement
  = slips l varName replacement || slips r varName replacement.
Proof.
  unfold slips. simpl.
  rewrite (slips_rec_fuel _ (size l) l), (slips_rec_fuel _ (size r) r) by lia.
  reflexivity.
Qed.

Lemma slips_abstraction (param : string) (body : Node) (varName : string)
    (replacement : Node) :
  slips (abstraction param body) varName replacement
  = if String.eqb param varName then false
    else if isFreeIn param replacement && isFreeIn varName body then
      let freshName := freshVarName param replacement in
      isFreeIn freshName body
      || slips body param (variable freshName)
      || slips (substitute body param (variable freshName)) varName replacement
    else slips body varName replacement.
Proof.
  unfold slips. simpl.
  destruct (String.eqb param varName); [reflexivity|].
  destruct (isFreeIn param replacement && isFreeIn varName body); [|reflexivity].
  cbv zeta. rewrite substitute_size_variable. reflexivity.
Qed.

(** The name chosen by [freshVarName] is not free in the term it is
    chosen against, and differs from the name it is made from. *)
Lemma freshVarName_not_free (usedName : string) (node : Node) :
  isFreeIn (freshVarName usedName node) node = false.
Proof.
  unfold freshVarName.
  destruct (freshVarName_loop_spec node (usedName ++ "'")) as (k & -> & H & _).
  exact H.
Qed.

Lemma freshVarName_longer (usedName : string) (node : Node) :
  String.length usedName < String.length (freshVarName usedName node).
Proof.
  unfold freshVarName.
  destruct (freshVarName_loop_spec node (usedName ++ "'")) as (k & -> & _).
  rewrite !length_append. simpl. lia.
Qed.

(** Replacing index [k] by itself, in a term where it does not occur
    otherwise, changes nothing. *)
Lemma dsubst_var_shift (d : DNode) :
  forall k, dsubst k (DBound 0) (shift 1 (S k) d) = d.
Proof.
  induction d as [name | i | body IH | l IHl r IHr]; intros k; simpl.
  - reflexivity.
  - destruct (Nat.ltb_spec i (S k)); simpl.
    + destruct (Nat.compare_spec i k); try lia; [|reflexivity].
      subst. reflexivity.
    + destruct (Nat.compare_spec (i + 1) k); try lia.
      f_equal. lia.
  - now rewrite IH.
  - now rewrite IHl, IHr.
Qed.

(** When no alpha-conversion of [substitute] slips, it is the
    substitution of nameless terms. *)
Lemma nameless_substitute_slips (n : nat) :
  forall b inner outer x r,
    size b <= n ->
    index_of x inner = None ->
    slips b x r = false ->
    (isFreeIn x b = true ->
     forall p, index_of p inner <> None -> isFreeIn p r = false) ->
    nameless (inner ++ outer)%list (substitute b x r)
    = dsubst (List.length inner) (nameless outer r)
        (nameless (inner ++ x :: outer)%list b).
Proof.
  induction n as [|n IH]; intros b inner outer x r Hn Hx Hslip Hfree;
    [pose proof (size_pos b); lia|].
  destruct (isFreeIn x b) eqn:Efree;
    [| rewrite substitute_not_free by assumption;
       symmetry; apply nameless_drop; now right].
  destruct b as [name | p b | l r']; simpl in Hn.
  - simpl in Efree. apply String.eqb_eq in Efree. subst name.
    rewrite substitute_variable, String.eqb_refl. simpl.
    rewrite index_of_app, Hx. simpl. rewrite String.eqb_refl. simpl.
    rewrite Nat.add_0_r, Nat.compare_refl.
    apply (nameless_weaken r [] inner outer). intros q Hq. right. auto.
  - simpl in Efree. apply andb_true_iff in Efree. destruct Efree as [Hpx Hb].
    apply negb_true_iff in Hpx.
    rewrite slips_abstraction, Hpx, Hb, andb_true_r in Hslip.
    rewrite substitute_abstraction, Hpx, Hb, andb_true_r.
    destruct (isFreeIn p r) eqn:Hpr; cbv zeta in *.
    + set (f := freshVarName p r) in *.
      apply orb_false_iff in Hslip. destruct Hslip as [Hslip Hs2].
      apply orb_false_iff in Hslip. destruct Hslip as [Hfb Hs1].
      assert (Hfx : String.eqb f x = false).
      { destruct (String.eqb_spec f x) as [Heq|]; [|reflexivity]. congruence. }
      assert (Hfr : isFreeIn f r = false) by apply freshVarName_not_free.
      simpl. f_equal.
      rewrite (IH _ (f :: inner) outer x r); try assumption.
      * f_equal. simpl.
        pose proof (IH b [] (f :: inner ++ x :: outer)%list p (variable f)
                      ltac:(lia) eq_refl Hs1
                      ltac:(intros _ q Hq; now destruct Hq)) as E.
        simpl in E. rewrite String.eqb_refl in E. rewrite E.
        assert (W : nameless (p :: f :: inner ++ x :: outer)%list b
                    = shift 1 1 (nameless (p :: inner ++ x :: outer)%list b)).
        { apply (nameless_weaken b [p] [f] (inner ++ x :: outer)%list).
          intros q Hq. simpl in Hq.
          destruct (String.eqb_spec f q) as [Heq|Hne];
            [right; now rewrite <- Heq | now destruct Hq]. }
        rewrite W. apply dsubst_var_shift.
      * rewrite substitute_size_variable. lia.
      * simpl. now rewrite Hfx, Hx.
      * intros _ q Hq. simpl in Hq. destruct (String.eqb_spec f q) as [Heq|Hne].
        -- now rewrite <- Heq.
        -- apply Hfree; [reflexivity|]. destruct (index_of q inner); [discriminate|].
           now destruct Hq.
    + simpl. f_equal. apply (IH b (p :: inner)).
      * lia.
      * simpl. now rewrite Hpx, Hx.
      * assumption.
      * intros _ q Hq. simpl in Hq. destruct (String.eqb_spec p q) as [Heq|Hne].
        -- now subst q.
        -- apply Hfree; [reflexivity|]. destruct (index_of q inner); [discriminate|].
           now destruct Hq.
  - rewrite slips_application in Hslip.
    apply orb_false_iff in Hslip. destruct Hslip as [Hsl Hsr].
    rewrite substitute_application. simpl. f_equal.
    + apply IH; auto. lia.
    + apply IH; auto. lia.
Qed.

(** *** Reduction of alpha-equivalent terms *)

(** Whether [step] reduces depends on the shape of the term only. *)
Lemma step_None_nameless (t : Node) :
  forall t' ctx ctx',
    nameless ctx t = nameless ctx' t' -> step t = None -> step t' = None.
Proof.
  induction t as [name | p b IH | l IHl r IHr]; intros t' ctx ctx' H Hn;
    destruct t' as [name' | p' b' | l' r']; simpl in H;
    try (destruct (index_of name ctx)); try (destruct (index_of name' ctx'));
    try discriminate; try reflexivity.
  - inversion H as [Hb]. simpl in *.
    destruct (step b) eqn:E; [discriminate|].
    now rewrite (IH _ _ _ Hb eq_refl).
  - inversion H as [[Hl Hr]]. simpl in *.
    destruct (step l) eqn:El; [discriminate|].
    destruct (step r) eqn:Er; [discriminate|].
    rewrite (IHl _ _ _ Hl eq_refl), (IHr _ _ _ Hr eq_refl).
    destruct l as [| |]; try discriminate;
      destruct l' as [n'| |]; simpl in Hl;
      try (destruct (index_of _ ctx)); try (destruct (index_of n' ctx'));
      try discriminate; reflexivity.
Qed.

Lemma step_nameless (t : Node) :
  forall t' ctx ctx',
    nameless ctx t = nameless ctx' t' ->
    step_slips t = false -> step_slips t' = false ->
    match step t, step t' with
    | Some u, Some u' => nameless ctx u = nameless ctx' u'
    | None, None => True
    | _, _ => False
    end.
Proof.
  induction t as [name | p b IH | l IHl r IHr]; intros t' ctx ctx' H Hr1 Hr2.
  - rewrite (step_None_nameless _ _ _ _ H eq_refl). exact I.
  - destruct t' as [name' | p' b' | l' r']; simpl in H;
      try (destruct (index_of name' ctx')); try discriminate.
    inversion H as [Hb]. simpl in *.
    specialize (IH _ _ _ Hb Hr1 Hr2).
    destruct (step b), (step b'); simpl; try assumption. now f_equal.
  - destruct t' as [name' | p' b' | l' r']; simpl in H;
      try (destruct (index_of name' ctx')); try discriminate.
    inversion H as [[Hl Hr]]. simpl in *.
    destruct (step l) as [u|] eqn:El.
    { destruct (step l') as [u'|] eqn:El'.
      - specialize (IHl _ _ _ Hl Hr1 Hr2). rewrite ?El, ?El' in IHl.
        simpl. now f_equal.
      - symmetry in Hl. rewrite (step_None_nameless _ _ _ _ Hl El') in El.
        discriminate. }
    rewrite (step_None_nameless _ _ _ _ Hl El) in *.
    destruct (step r) as [u|] eqn:Er.
    { destruct (step r') as [u'|] eqn:Er'.
      - specialize (IHr _ _ _ Hr Hr1 Hr2). rewrite ?Er, ?Er' in IHr.
        simpl. now f_equal.
      - symmetry in Hr. rewrite (step_None_nameless _ _ _ _ Hr Er') in Er.
        discriminate. }
    rewrite (step_None_nameless _ _ _ _ Hr Er) in *.
    destruct l as [n | p b | l1 l2]; destruct l' as [n' | p' b' | l1' l2'];
      simpl in Hl;
      try (destruct (index_of n ctx)); try (destruct (index_of n' ctx'));
      try discriminate; try exact I.
    inversion Hl as [Hb]. unfold betaReduce.
    assert (Hnil : forall (P : Prop) (r0 : Node), P ->
              forall q, index_of q [] <> None -> isFreeIn q r0 = false)
      by (intros P r0 _ q Hq; now destruct Hq).
    pose proof (nameless_substitute_slips _ b [] ctx p r (le_n _) eq_refl Hr1
                  (Hnil _ r)) as E1.
    pose proof (nameless_substitute_slips _ b' [] ctx' p' r' (le_n _) eq_refl Hr2
                  (Hnil _ r')) as E2.
    simpl in E1, E2. now rewrite E1, E2, Hb, Hr.
Qed.

(** Runs of [evaluate] on alpha-equivalent terms, when no step taken by
    either run slips: the two loops go round for round. *)
Lemma evaluate_loop_alpha (fuel : nat) :
  forall maxSteps t t' j,
    alpha_equiv t t' ->
    (forall k, lessThan (counter (j + k)) maxSteps = true ->
               run_slips (S k) t = false) ->
    (forall k, lessThan (counter (j + k)) maxSteps = true ->
               run_slips (S k) t' = false) ->
    match evaluate_loop fuel maxSteps t (counter j),
          evaluate_loop fuel maxSteps t' (counter j) with
    | Some (Ok u), Some (Ok u') => alpha_equiv u u'
    | Some (Throw e), Some (Throw e') => e = e'
    | None, None => True
    | _, _ => False
    end.
Proof.
  induction fuel as [|fuel IH]; intros maxSteps t t' j Ha Hr Hr'; simpl;
    [exact I|].
  destruct (lessThan (counter j) maxSteps) eqn:Elt; [|reflexivity].
  assert (Hs : step_slips t = false).
  { specialize (Hr 0). rewrite Nat.add_0_r in Hr. specialize (Hr Elt).
    simpl in Hr. now apply orb_false_iff in Hr. }
  assert (Hs' : step_slips t' = false).
  { specialize (Hr' 0). rewrite Nat.add_0_r in Hr'. specialize (Hr' Elt).
    simpl in Hr'. now apply orb_false_iff in Hr'. }
  pose proof (step_nameless t t' [] [] Ha Hs Hs') as H.
  destruct (step t) as [u|] eqn:E, (step t') as [u'|] eqn:E'; try contradiction.
  - rewrite increment_counter. apply IH; [assumption| |].
    + intros k Hk. replace (S j + k) with (j + S k) in Hk by lia.
      specialize (Hr (S k) Hk).
      change (run_slips (S (S k)) t)
        with (step_slips t || match step t with
                              | Some node' => run_slips (S k) node'
                              | None => false
                              end) in Hr.
      rewrite E in Hr. now apply orb_false_iff in Hr.
    + intros k Hk. replace (S j + k) with (j + S k) in Hk by lia.
      specialize (Hr' (S k) Hk).
      change (run_slips (S (S k)) t')
        with (step_slips t' || match step t' with
                               | Some node' => run_slips (S k) node'
                               | None => false
                               end) in Hr'.
      rewrite E' in Hr'. now apply orb_false_iff in Hr'.
  - exact Ha.
Qed.

End Alpha.

(* ===================================================================== *)
(** ** The claims *)
(* ===================================================================== *)

Import Interpreter Vocabulary InterpreterFacts LambdaCalculusFacts Alpha.

(** C1.  [substitute] does not avoid capture: the fresh name is chosen
    against [replacement] only, so it can be a name that is free in the
    body.  In [substitute (λy. x y') x r], with [y] free in [r] and [y']
    not, the binder is renamed to [y'] and the free [y'] of the body ends
    up bound: [y'] is free in the node, is not the substituted variable,
    and is not free in the result, whose nameless form is not the one of
    the capture-avoiding substitution.  The first call is the smallest one;
    the second is the call made while [evaluate] reduces the parsed
    text [capture_source]. *)
Theorem substitute_captures_free_variable :
  substitute capture_node "x" (variable "y")
    = abstraction "y'" (application (variable "y") (variable "y'")) /\
  isFreeIn "y'" capture_node = true /\
  isFreeIn "y'" (substitute capture_node "x" (variable "y")) = false /\
  nameless [] (substitute capture_node "x" (variable "y"))
    <> dsubst 0 (nameless [] (variable "y")) (nameless ["x"] capture_node) /\
  substitute capture_node "x" capture_replacement
    = abstraction "y'" (application capture_replacement (variable "y'")) /\
  isFreeIn "y'" (substitute capture_node "x" capture_replacement) = false /\
  returns (LambdaCalculus.evaluate (units capture_source) (int 1000))
    (Ok (abstraction "y'" (application (variable "y")
           (abstraction "y'" (abstraction "x" (application (variable "y")
              (abstraction "y" (application (variable "x") (variable "y'"))))))))).
Proof.
  repeat match goal with |- _ /\ _ => split end;
    first [ exists 1000; vm_compute; reflexivity
          | vm_compute; reflexivity
          | vm_compute; discriminate ].
Qed.

(** C2, as stated, fails: with an abstraction on the left and a redex in
    the right operand, [step] reduces the redex of the right operand and
    leaves the outer redex in place. *)
Lemma step_reduces_argument_first :
  step redex_in_argument
    = Some (application (abstraction "x" (variable "y")) (variable "w")) /\
  step redex_in_argument
    <> Some (substitute (variable "y") "x"
               (application (abstraction "z" (variable "z")) (variable "w"))).
Proof. split; [reflexivity | vm_compute; discriminate]. Qed.

(** C2, amended.  On an application whose left operand is an abstraction,
    [step] first reduces inside the abstraction, then inside the right
    operand, and performs the outer beta reduction only when neither
    reduces; the right operand substituted is then a normal form. *)
Theorem step_application_abstraction (param : string) (body right : Node) :
  step (application (abstraction param body) right) =
  match step body, step right with
  | Some body', _ => Some (application (abstraction param body') right)
  | None, Some right' => Some (application (abstraction param body) right')
  | None, None => Some (substitute body param right)
  end.
Proof.
  simpl. destruct (step body); [reflexivity|]. destruct (step right); reflexivity.
Qed.

(** A consequence of this order: on [(λx.y) ((λx.x x) (λx.x x))], where
    contracting the outer redex gives [y] at once, [evaluate] keeps
    reducing the argument and runs into the bound. *)
Lemma evaluate_argument_first_diverges :
  returns (evaluate (application (abstraction "x" (variable "y")) omega) (int 50))
    (Throw (NonTermination (int 50))).
Proof. exists 51. vm_compute. reflexivity. Qed.

(** C3, as stated, fails: [evaluate] can run for ever.  With the bound
    [Infinity] the test [steps < maxSteps] never fails, and on the term
    [omega], which [step] reduces to itself, the loop neither returns nor
    throws.  The same holds of a finite bound above [2^53], which the
    counter does not reach: [steps++] leaves [2^53] unchanged. *)
Lemma evaluate_unbounded_hangs :
  step omega = Some omega /\
  hangs (evaluate omega Infinity) /\
  hangs (evaluate omega (int (maxExact + 2))).
Proof.
  assert (H : forall m, iter_step m omega <> None)
    by (apply (cycle_never_stops omega 1); [lia | reflexivity]).
  split; [reflexivity|].
  split; apply evaluate_never_stops_hangs; try assumption; reflexivity.
Qed.

(** C3, amended.  Whatever [evaluate] returns is a normal form reached
    from the term by iterating [step] while the tests of the loop pass,
    and whatever it throws is the non-termination error that carries
    [maxSteps]; with a bound that is not above [2^53] ([NaN] and
    [-Infinity] included, for which the first test fails), [evaluate]
    ends. *)
Theorem evaluate_normal_form_or_nontermination (node : Node) (maxSteps : number) :
  (forall r, returns (evaluate node maxSteps) r ->
     match r with
     | Ok node' =>
         step node' = None /\
         exists k, iter_step k node = Some node' /\
                   lessThan (counter k) maxSteps = true
     | Throw e => e = NonTermination maxSteps
     end) /\
  (lessThan maxExact maxSteps = false ->
   exists r, returns (evaluate node maxSteps) r).
Proof.
  split.
  - intros r [fuel H]. pose proof (evaluate_spec node maxSteps fuel) as Hs.
    rewrite H in Hs. destruct r as [node'|e].
    + destruct Hs as (k & _ & Hlt & Hit & Hn). split; [assumption|].
      exists k. split; assumption.
    + now destruct Hs.
  - intros H. destruct (evaluate_ends node maxSteps H) as [r Hr].
    exists r. now exists (S rounds).
Qed.

(** The amended C3 on [omega] with the bound 50, which throws, and on
    [(λx.λy.x y) z], which returns after one step. *)
Lemma evaluate_normal_form_or_nontermination_witness :
  lessThan maxExact (int 50) = false /\
  (exists r, returns (evaluate omega (int 50)) r) /\
  returns (evaluate apply_left (int 50))
    (Ok (abstraction "y" (application (variable "z") (variable "y")))) /\
  step (abstraction "y" (application (variable "z") (variable "y"))) = None.
Proof.
  assert (R : returns (evaluate apply_left (int 50))
                (Ok (abstraction "y" (application (variable "z") (variable "y")))))
    by (exists 2; reflexivity).
  split; [reflexivity|]. split.
  - exact (proj2 (evaluate_normal_form_or_nontermination omega (int 50)) eq_refl).
  - split; [exact R|].
    exact (proj1 (proj1 (evaluate_normal_form_or_nontermination apply_left (int 50))
                    _ R)).
Defined.

(** C4.  [parse] has no check that the input is exhausted: on the tokens
    of the text [x ) y] it returns [x] and stops at index 1, before the
    closing parenthesis. *)
Theorem parse_leaves_tokens_unconsumed :
  Lexer.run (units "x ) y") = Ok trailing_tokens /\
  Parser.parse_run trailing_tokens = Some (Ok (variable "x", 1)) /\
  Parser.parse trailing_tokens = Ok (variable "x") /\
  LambdaCalculus.parse (units "x ) y") = Ok (variable "x") /\
  option_map type (nth_error trailing_tokens 1) = Some TRParen.
Proof. repeat split; vm_compute; reflexivity. Qed.

(** C5.  With the bound [NaN], [evaluate] throws and [evaluateWithSteps]
    returns: both tests [stepCount < maxSteps] and [stepCount >= maxSteps]
    are false, so the loop is left at once and the check after it does
    not throw.  On the text [(\x.x) y], which is not a normal form,
    [evaluateWithSteps] returns the parsed term unreduced with a trace of
    one entry. *)
Theorem evaluateWithSteps_returns_on_NaN :
  LambdaCalculus.parse (units "(\x.x) y")
    = Ok (application (abstraction "x" (variable "x")) (variable "y")) /\
  step (application (abstraction "x" (variable "x")) (variable "y"))
    = Some (variable "y") /\
  (forall fuel,
      LambdaCalculus.evaluate (units "(\x.x) y") NaN (S fuel)
      = Some (Throw (NonTermination NaN))) /\
  (forall fuel,
      LambdaCalculus.evaluateWithSteps (units "(\x.x) y") NaN (S fuel)
      = Some (Ok (LambdaCalculus.mkEvaluation
                    (application (abstraction "x" (variable "x")) (variable "y"))
                    [LambdaCalculus.mkStep "(λx.x) y"]))).
Proof.
  repeat match goal with |- _ /\ _ => split end;
    try (intros fuel); vm_compute; reflexivity.
Qed.

(** C6, as stated, fails: the printer writes the names of the binders, so
    the alpha-equivalent normal forms [λx.x] and [λy.y] print as
    different texts. *)
Lemma render_evaluate_not_alpha_invariant :
  alpha_equiv (abstraction "x" (variable "x")) (abstraction "y" (variable "y")) /\
  returns (evaluate (abstraction "x" (variable "x")) (int 1000))
    (Ok (abstraction "x" (variable "x"))) /\
  returns (evaluate (abstraction "y" (variable "y")) (int 1000))
    (Ok (abstraction "y" (variable "y"))) /\
  toString (abstraction "x" (variable "x"))
    <> toString (abstraction "y" (variable "y")).
Proof.
  repeat match goal with |- _ /\ _ => split end;
    first [ exists 1; reflexivity | reflexivity | vm_compute; discriminate ].
Qed.

(** C6, amended.  For alpha-equivalent terms, when no step taken by
    either run slips, that is, alpha-converts a binder to a name that is
    free in the body of that binder, the two runs of [evaluate] go round
    for round: after any number of rounds both are still running, or both
    have thrown the same error, or both have returned, and the two normal
    forms returned are alpha-equivalent. *)
Theorem evaluate_alpha_equiv (t t' : Node) (maxSteps : number) (fuel : nat) :
  alpha_equiv t t' ->
  (forall k, lessThan (counter k) maxSteps = true -> run_slips (S k) t = false) ->
  (forall k, lessThan (counter k) maxSteps = true -> run_slips (S k) t' = false) ->
  match evaluate t maxSteps fuel, evaluate t' maxSteps fuel with
  | Some (Ok u), Some (Ok u') => alpha_equiv u u' /\ step u = None /\ step u' = None
  | Some (Throw e), Some (Throw e') => e = e'
  | None, None => True
  | _, _ => False
  end.
Proof.
  intros Ha Hr Hr'.
  pose proof (evaluate_loop_alpha fuel maxSteps t t' 0 Ha Hr Hr') as H.
  pose proof (evaluate_spec t maxSteps fuel) as Hs.
  pose proof (evaluate_spec t' maxSteps fuel) as Hs'.
  unfold evaluate in *. change (counter 0) with 0%Z in H.
  destruct (evaluate_loop fuel maxSteps t 0) as [[u|e]|],
           (evaluate_loop fuel maxSteps t' 0) as [[u'|e']|]; try assumption.
  destruct Hs as (k & _ & _ & _ & Hn), Hs' as (k' & _ & _ & _ & Hn'). auto.
Qed.

(** The amended C6 on [(λx.λy.x) y] and [(λx.λz.x) y]: the first run
    alpha-converts [y] to [y'], the second does not, and the results
    [λy'.y] and [λz.y] are alpha-equivalent. *)
Lemma evaluate_alpha_equiv_witness :
  alpha_equiv rename_left rename_right /\
  renames (abstraction "y" (variable "x")) "x" (variable "y") = true /\
  (forall k, lessThan (counter k) (int 1000) = true ->
             run_slips (S k) rename_left = false) /\
  (forall k, lessThan (counter k) (int 1000) = true ->
             run_slips (S k) rename_right = false) /\
  match evaluate rename_left (int 1000) 2, evaluate rename_right (int 1000) 2 with
  | Some (Ok u), Some (Ok u') => alpha_equiv u u' /\ step u = None /\ step u' = None
  | Some (Throw e), Some (Throw e') => e = e'
  | None, None => True
  | _, _ => False
  end.
Proof.
  assert (H : forall k, lessThan (counter k) (int 1000) = true ->
                        run_slips (S k) rename_left = false)
    by (intros [|k] _; reflexivity).
  assert (H' : forall k, lessThan (counter k) (int 1000) = true ->
                         run_slips (S k) rename_right = false)
    by (intros [|k] _; reflexivity).
  split; [reflexivity|]. split; [reflexivity|].
  split; [exact H|]. split; [exact H'|].
  exact (evaluate_alpha_equiv rename_left rename_right (int 1000) 2 eq_refl H H').
Defined.

(** The capture of C1 is met by [evaluate] on a parsed text: renaming the
    bound [y] of [capture_source] to [u] changes the normal form beyond
    the names of its binders. *)
Lemma evaluate_capture_not_alpha_invariant :
  LambdaCalculus.parse (units capture_source) = Ok capture_term /\
  alpha_equiv capture_term capture_term_renamed /\
  run_slips 3 capture_term = true /\
  exists u u',
    returns (evaluate capture_term (int 1000)) (Ok u) /\
    returns (evaluate capture_term_renamed (int 1000)) (Ok u') /\
    ~ alpha_equiv u u'.
Proof.
  split; [vm_compute; reflexivity|]. split; [reflexivity|].
  split; [vm_compute; reflexivity|].
  exists (abstraction "y'" (application (variable "y")
            (abstraction "y'" (abstraction "x" (application (variable "y")
               (abstraction "y" (application (variable "x") (variable "y'")))))))).
  eexists. split; [exists 1000; vm_compute; reflexivity|].
  split; [exists 1000; vm_compute; reflexivity|].
  vm_compute. discriminate.
Qed.

(** C7.  [freshVarName] returns [usedName] followed by [k >= 1] primes,
    where [k] is the least such number for which the name is not free in
    [node]; the loop makes at most [maxNameLen node + 1] rounds. *)
Theorem freshVarName_fresh (usedName : string) (node : Node) :
  exists k,
    1 <= k /\
    freshVarName usedName node = usedName ++ primes k /\
    isFreeIn (freshVarName usedName node) node = false /\
    (forall j, 1 <= j < k -> isFreeIn (usedName ++ primes j) node = true) /\
    k <= S (maxNameLen node).
Proof.
  unfold freshVarName.
  destruct (freshVarName_loop_spec node (usedName ++ "'"))
    as (k & Hk & Hfresh & Hmin & Hbound).
  exists (S k). rewrite Hk, append_assoc in *. repeat split.
  - lia.
  - exact Hfresh.
  - intros [|j] Hj; [lia|]. specialize (Hmin j ltac:(lia)).
    now rewrite append_assoc in Hmin.
  - rewrite length_append in Hbound. change (String.length "'") with 1 in Hbound.
    destruct Hbound as [->|Hbound]; lia.
Qed.

(** C8.  The printer on the two parsed texts, and its rule for an
    application: the left operand is printed bare, the right operand is
    printed bare when it is a variable and in parentheses otherwise. *)
Theorem render_parenthesization :
  (exists ast, LambdaCalculus.parse (units "\x.x") = Ok ast /\
               toString ast = "(λx.x)") /\
  (exists ast, LambdaCalculus.parse (units "x y z") = Ok ast /\
               toString ast = "x y z") /\
  (forall l name,
      toString (application l (variable name)) = toString l ++ " " ++ name) /\
  (forall l r,
      (forall name, r <> variable name) ->
      toString (application l r) = toString l ++ " (" ++ toString r ++ ")").
Proof.
  repeat split.
  - eexists. split; vm_compute; reflexivity.
  - eexists. split; vm_compute; reflexivity.
  - intros l name. simpl. destruct l; reflexivity.
  - intros l r Hr. simpl.
    destruct r as [name| |]; [now destruct (Hr name)| |]; destruct l; reflexivity.
Qed.

(** C9.  With [maxSteps = 0], [evaluate] throws on every term, normal
    forms included, and [evaluateWithSteps] throws on every input: its
    loop is left at once, with the initial term as the only entry of the
    trace, and the check after the loop throws. *)
Theorem evaluate_zero_bound_fails :
  (forall node fuel,
      evaluate node (int 0) (S fuel) = Some (Throw (NonTermination (int 0)))) /\
  (forall input fuel,
      match LambdaCalculus.parse input with
      | Ok ast =>
          LambdaCalculus.evaluateWithSteps_loop (S fuel) (int 0) ast
            [LambdaCalculus.mkStep (toString ast)] 0
          = Some (ast, [LambdaCalculus.mkStep (toString ast)], 0%Z) /\
          LambdaCalculus.evaluateWithSteps input (int 0) (S fuel)
          = Some (Throw (NonTermination (int 0)))
      | Throw e =>
          LambdaCalculus.evaluateWithSteps input (int 0) (S fuel) = Some (Throw e)
      end).
Proof.
  split.
  - intros node fuel. reflexivity.
  - intros input fuel. unfold LambdaCalculus.evaluateWithSteps.
    destruct (LambdaCalculus.parse input) as [ast|e]; [|reflexivity].
    split; reflexivity.
Qed.

(** C10.  A reduction step, and hence a run of [evaluate], introduces no
    free variable: a name free in the result is free in the term. *)
Theorem reduction_no_new_free_variable (node node' : Node) (z : string) :
  step node = Some node' \/
  (exists maxSteps, returns (evaluate node maxSteps) (Ok node')) ->
  isFreeIn z node' = true ->
  isFreeIn z node = true.
Proof.
  intros [H | [maxSteps [fuel H]]] Hz.
  - eapply isFreeIn_step; eauto.
  - pose proof (evaluate_spec node maxSteps fuel) as Hs.
    rewrite H in Hs. destruct Hs as (k & _ & _ & Hit & _).
    eapply isFreeIn_iter_step; eauto.
Qed.

(** C10 on the step from [(λx.x z) y] to [y z]. *)
Lemma reduction_no_new_free_variable_witness :
  step (application (abstraction "x" (application (variable "x") (variable "z")))
          (variable "y"))
    = Some (application (variable "y") (variable "z")) /\
  isFreeIn "y" (application (variable "y") (variable "z")) = true /\
  isFreeIn "y"
    (application (abstraction "x" (application (variable "x") (variable "z")))
       (variable "y")) = true.
Proof.
  split; [reflexivity|]. split; [reflexivity|].
  apply (reduction_no_new_free_variable _
           (application (variable "y") (variable "z")) "y").
  - left. reflexivity.
  - reflexivity.
Defined.

(* ===================================================================== *)
(** ** Further properties of the interpreter *)
(* ===================================================================== *)

Module InterpreterMore.
Import Interpreter Vocabulary InterpreterFacts Alpha.

(** [has_redex node]: some application inside [node] has an abstraction as
    its left operand. *)
Fixpoint has_redex (node : Node) : bool :=
  match node with
  | variable _ => false
  | abstraction _ body => has_redex body
  | application l r =>
      has_redex l || has_redex r ||
      match l with abstraction _ _ => true | _ => false end
  end.

(** X1.  [step] returns [null] exactly on the terms without a redex: it
    finds a redex to contract whenever there is one, also under binders
    and in argument position. *)
Theorem step_None_iff_no_redex (node : Node) :
  step node = None <-> has_redex node = false.
Proof.
  induction node as [name | p b IH | l IHl r IHr]; simpl.
  - tauto.
  - destruct (step b); split; intros H; try discriminate; try tauto.
    apply IH in H. discriminate.
  - destruct (step l) as [l'|].
    { split; [discriminate|]. intros H.
      apply orb_false_iff in H. destruct H as [H _].
      apply orb_false_iff in H. destruct H as [H _].
      apply IHl in H. discriminate. }
    destruct (step r) as [r'|].
    { split; [discriminate|]. intros H.
      apply orb_false_iff in H. destruct H as [H _].
      apply orb_false_iff in H. destruct H as [_ H].
      apply IHr in H. discriminate. }
    destruct IHl as [IHl _], IHr as [IHr _].
    rewrite IHl, IHr by reflexivity. simpl.
    destruct l; split; intros H; try discriminate; reflexivity.
Qed.

Lemma step_None_iff_no_redex_witness :
  has_redex (abstraction "x" (application (variable "x") (variable "y"))) = false /\
  step (abstraction "x" (application (variable "x") (variable "y"))) = None.
Proof.
  split; [reflexivity|].
  exact (proj2 (step_None_iff_no_redex
                  (abstraction "x" (application (variable "x") (variable "y"))))
               eq_refl).
Defined.

(** *** What [evaluate] returns and throws *)

Lemma evaluate_ok (node node' : Node) (maxSteps : number) :
  returns (evaluate node maxSteps) (Ok node') <->
  exists k, lessThan (counter k) maxSteps = true /\
            iter_step k node = Some node' /\ step node' = None.
Proof.
  split.
  - intros [fuel H]. pose proof (evaluate_spec node maxSteps fuel) as Hs.
    rewrite H in Hs. destruct Hs as (k & _ & Hlt & Hit & Hn). exists k. auto.
  - intros (k & Hlt & Hit & Hn). exists (S k).
    apply (evaluate_loop_reaches k maxSteps node 0); auto.
Qed.

Lemma evaluate_throw (node : Node) (maxSteps : number) (e : Error) :
  returns (evaluate node maxSteps) (Throw e) <->
  e = NonTermination maxSteps /\
  exists k, iter_step k node <> None /\ lessThan (counter k) maxSteps = false.
Proof.
  split.
  - intros [fuel H]. pose proof (evaluate_spec node maxSteps fuel) as Hs.
    rewrite H in Hs. destruct Hs as (-> & k & _ & Hlt & _ & Hit).
    split; [reflexivity|]. exists k. auto.
  - intros (-> & k & Hit & Hlt). exists (S k).
    apply (evaluate_loop_throws k maxSteps node 0); auto.
Qed.

Lemma no_smaller_int (n n' : Z) : (n <= n')%Z -> no_smaller (int n) (int n').
Proof.
  intros H steps. rewrite !lessThan_int, !Z.ltb_lt. lia.
Qed.

Lemma no_smaller_Infinity (m : number) : no_smaller m Infinity.
Proof. intros steps _. reflexivity. Qed.

(** X2.  [evaluate] returns [node'] exactly when [node'] is a normal form
    reached from [node] by [k] calls of [step] with the counter after [k]
    rounds still below the bound; for an integer bound [n] up to [2^53]
    that is: by fewer than [n] calls of [step]. *)
Theorem evaluate_Ok_iff (node node' : Node) :
  (forall maxSteps,
      returns (evaluate node maxSteps) (Ok node') <->
      exists k, lessThan (counter k) maxSteps = true /\
                iter_step k node = Some node' /\ step node' = None) /\
  (forall n,
      (n <= maxExact)%Z ->
      (returns (evaluate node (int n)) (Ok node') <->
       exists k, (Z.of_nat k < n)%Z /\
                 iter_step k node = Some node' /\ step node' = None)).
Proof.
  split; [intros maxSteps; apply evaluate_ok|].
  intros n Hn. rewrite evaluate_ok. split; intros (k & Hk & H); exists k;
    (split; [|exact H]); rewrite lessThan_counter_int in * by assumption;
    now apply Z.ltb_lt.
Qed.

Lemma evaluate_Ok_iff_witness :
  (2 <= maxExact)%Z /\
  returns (evaluate apply_left (int 2))
    (Ok (abstraction "y" (application (variable "z") (variable "y")))) /\
  exists k, (Z.of_nat k < 2)%Z /\
            iter_step k apply_left
            = Some (abstraction "y" (application (variable "z") (variable "y"))) /\
            step (abstraction "y" (application (variable "z") (variable "y"))) = None.
Proof.
  assert (B : (2 <= maxExact)%Z) by (unfold maxExact; lia).
  assert (R : returns (evaluate apply_left (int 2))
                (Ok (abstraction "y" (application (variable "z") (variable "y")))))
    by (exists 2; reflexivity).
  split; [exact B|]. split; [exact R|].
  exact (proj1 (proj2 (evaluate_Ok_iff apply_left _) 2%Z B) R).
Defined.

(** X3.  [evaluate] throws exactly when a test of its loop fails on a term
    reached by reduction, and the error carries the bound; for an integer
    bound [n] up to [2^53] that is: when the first [n] calls of [step]
    all reduce, so also when the normal form is reached by the last step
    allowed, and for every bound that is not positive.  With [Infinity]
    it never throws. *)
Theorem evaluate_Throw_iff (node : Node) :
  (forall maxSteps e,
      returns (evaluate node maxSteps) (Throw e) <->
      e = NonTermination maxSteps /\
      exists k, iter_step k node <> None /\
                lessThan (counter k) maxSteps = false) /\
  (forall n,
      (n <= maxExact)%Z ->
      (returns (evaluate node (int n)) (Throw (NonTermination (int n))) <->
       iter_step (Z.to_nat n) node <> None)) /\
  (forall e, ~ returns (evaluate node Infinity) (Throw e)).
Proof.
  split; [intros maxSteps e; apply evaluate_throw|]. split.
  - intros n Hn. rewrite evaluate_throw. split.
    + intros (_ & k & Hit & Hlt).
      rewrite lessThan_counter_int in Hlt by assumption. apply Z.ltb_ge in Hlt.
      apply (iter_step_prefix (Z.to_nat n) (k - Z.to_nat n)).
      now replace (Z.to_nat n + (k - Z.to_nat n)) with k by lia.
    + intros Hit. split; [reflexivity|]. exists (Z.to_nat n).
      split; [assumption|]. rewrite lessThan_counter_int by assumption.
      apply Z.ltb_ge. lia.
  - intros e H. apply evaluate_throw in H. destruct H as (_ & k & _ & H).
    discriminate.
Qed.

Lemma evaluate_Throw_iff_witness :
  (1 <= maxExact)%Z /\
  iter_step (Z.to_nat 1) apply_left <> None /\
  returns (evaluate apply_left (int 1)) (Throw (NonTermination (int 1))).
Proof.
  assert (B : (1 <= maxExact)%Z) by (unfold maxExact; lia).
  assert (H : iter_step (Z.to_nat 1) apply_left <> None) by discriminate.
  split; [exact B|]. split; [exact H|].
  exact (proj2 (proj1 (proj2 (evaluate_Throw_iff apply_left)) 1%Z B) H).
Defined.

(** X4.  A result of [evaluate] is stable: a bound that is no smaller
    (a larger integer, or [Infinity]) returns the same term, and
    evaluating the result again, with any bound above 0, returns it
    unchanged. *)
Theorem evaluate_result_stable (node node' : Node) (maxSteps : number) :
  returns (evaluate node maxSteps) (Ok node') ->
  (forall maxSteps', no_smaller maxSteps maxSteps' ->
                     returns (evaluate node maxSteps') (Ok node')) /\
  (forall n n', maxSteps = int n -> (n <= n')%Z ->
                returns (evaluate node (int n')) (Ok node')) /\
  (forall maxSteps', lessThan 0 maxSteps' = true ->
                     returns (evaluate node' maxSteps') (Ok node')).
Proof.
  intros H. apply evaluate_ok in H. destruct H as (k & Hk & Hit & Hn).
  split; [|split].
  - intros m Hm. apply evaluate_ok. exists k. auto.
  - intros n n' -> Hle. apply evaluate_ok. exists k.
    repeat split; try assumption. now apply (no_smaller_int n n').
  - intros m Hm. apply evaluate_ok. exists 0. auto.
Qed.

Lemma evaluate_result_stable_witness :
  returns (evaluate apply_left (int 2))
    (Ok (abstraction "y" (application (variable "z") (variable "y")))) /\
  returns (evaluate apply_left Infinity)
    (Ok (abstraction "y" (application (variable "z") (variable "y")))) /\
  returns (evaluate apply_left (int 7))
    (Ok (abstraction "y" (application (variable "z") (variable "y")))) /\
  returns (evaluate (abstraction "y" (application (variable "z") (variable "y")))
             (int 1))
    (Ok (abstraction "y" (application (variable "z") (variable "y")))).
Proof.
  assert (R : returns (evaluate apply_left (int 2))
                (Ok (abstraction "y" (application (variable "z") (variable "y")))))
    by (exists 2; reflexivity).
  split; [exact R|].
  split; [| split].
  - exact (proj1 (evaluate_result_stable apply_left _ (int 2) R) Infinity
             (no_smaller_Infinity (int 2))).
  - apply (proj1 (proj2 (evaluate_result_stable apply_left _ (int 2) R)) 2%Z 7%Z);
      [reflexivity | lia].
  - exact (proj2 (proj2 (evaluate_result_stable apply_left _ (int 2) R)) (int 1)
             eq_refl).
Defined.

(** X5.  On a term that reduces to itself in one or more steps,
    [evaluate] never returns a term: it throws the non-termination error
    when the bound is not above [2^53], and runs for ever otherwise, so
    with [Infinity]. *)
Theorem evaluate_cycle_throws_or_hangs (node : Node) (k : nat) (maxSteps : number) :
  1 <= k -> iter_step k node = Some node ->
  (forall node', ~ returns (evaluate node maxSteps) (Ok node')) /\
  (lessThan maxExact maxSteps = false ->
   returns (evaluate node maxSteps) (Throw (NonTermination maxSteps))) /\
  (lessThan maxExact maxSteps = true -> hangs (evaluate node maxSteps)).
Proof.
  intros Hk Hcycle. pose proof (cycle_never_stops node k Hk Hcycle) as H.
  split; [|split].
  - now apply evaluate_never_returns.
  - now apply evaluate_never_stops_throws.
  - now apply evaluate_never_stops_hangs.
Qed.

Lemma evaluate_cycle_throws_or_hangs_witness :
  1 <= 1 /\ iter_step 1 omega = Some omega /\
  returns (evaluate omega (int 50)) (Throw (NonTermination (int 50))) /\
  hangs (evaluate omega Infinity).
Proof.
  split; [lia|]. split; [reflexivity|]. split.
  - exact (proj1 (proj2 (evaluate_cycle_throws_or_hangs omega 1 (int 50)
                           (le_n 1) eq_refl)) eq_refl).
  - exact (proj2 (proj2 (evaluate_cycle_throws_or_hangs omega 1 Infinity
                           (le_n 1) eq_refl)) eq_refl).
Defined.

(** X6.  Substituting for a variable that is not free in the node returns
    the node itself. *)
Theorem substitute_not_free_identity (node : Node) (varName : string)
    (replacement : Node) :
  isFreeIn varName node = false ->
  substitute node varName replacement = node.
Proof. apply substitute_not_free. Qed.

Lemma substitute_not_free_identity_witness :
  isFreeIn "x" (abstraction "x" (application (variable "x") (variable "y"))) = false /\
  substitute (abstraction "x" (application (variable "x") (variable "y"))) "x"
    (variable "y")
  = abstraction "x" (application (variable "x") (variable "y")).
Proof.
  split; [reflexivity|].
  apply (substitute_not_free_identity
           (abstraction "x" (application (variable "x") (variable "y")))).
  reflexivity.
Defined.

(** X7.  Substituting a variable for itself returns the node itself. *)
Theorem substitute_self (node : Node) (varName : string) :
  substitute node varName (variable varName) = node.
Proof.
  induction node as [name | p b IH | l IHl r IHr].
  - rewrite substitute_variable.
    destruct (String.eqb_spec name varName); congruence.
  - rewrite substitute_abstraction.
    destruct (String.eqb_spec p varName) as [Heq|Hne]; [reflexivity|].
    simpl. apply String.eqb_neq in Hne. rewrite String.eqb_sym in Hne.
    rewrite Hne. simpl. now rewrite IH.
  - rewrite substitute_application. now rewrite IHl, IHr.
Qed.

(** X8.  The free variables of [substitute(node, varName, replacement)] are
    among the free variables of [node] other than [varName] and the free
    variables of [replacement]; this holds through the alpha-conversion
    branch too. *)
Theorem substitute_free_variables (node : Node) (varName : string)
    (replacement : Node) (z : string) :
  isFreeIn z (substitute node varName replacement) = true ->
  (isFreeIn z node = true /\ z <> varName) \/ isFreeIn z replacement = true.
Proof. apply isFreeIn_substitute. Qed.

Lemma substitute_free_variables_witness :
  isFreeIn "y" (substitute capture_node "x" (variable "y")) = true /\
  ((isFreeIn "y" capture_node = true /\ "y" <> "x")
   \/ isFreeIn "y" (variable "y") = true).
Proof.
  split; [vm_compute; reflexivity|].
  apply (substitute_free_variables capture_node "x" (variable "y") "y").
  vm_compute. reflexivity.
Defined.

(** X9.  When [substitute] does not take its alpha-conversion branch, it
    is the capture-avoiding substitution: under any list of enclosing
    binders, the nameless form of the result is the nameless substitution
    of the replacement in the nameless form of the node. *)
Theorem substitute_without_renaming_correct (node : Node) (varName : string)
    (replacement : Node) (ctx : list string) :
  renames node varName replacement = false ->
  nameless ctx (substitute node varName replacement)
  = dsubst 0 (nameless ctx replacement) (nameless (varName :: ctx) node).
Proof.
  intros H.
  apply (nameless_substitute node [] ctx varName replacement eq_refl H).
  intros _ q Hq. now destruct Hq.
Qed.

Lemma substitute_without_renaming_correct_witness :
  renames (abstraction "y" (application (variable "x") (variable "y"))) "x"
    (variable "z") = false /\
  nameless [] (substitute
                 (abstraction "y" (application (variable "x") (variable "y")))
                 "x" (variable "z"))
  = dsubst 0 (nameless [] (variable "z"))
      (nameless ["x"] (abstraction "y" (application (variable "x") (variable "y")))).
Proof.
  split; [reflexivity|].
  apply (substitute_without_renaming_correct
           (abstraction "y" (application (variable "x") (variable "y")))
           "x" (variable "z") []).
  reflexivity.
Defined.

End InterpreterMore.

(* ===================================================================== *)
(** ** Further properties of the entry points *)
(* ===================================================================== *)

Module LambdaCalculusMore.
Import Interpreter LambdaCalculus Vocabulary InterpreterFacts LambdaCalculusFacts.
Import InterpreterMore.

Lemma chain_iter_step (trace : list Node) :
  forall current final,
    chain current trace final -> iter_step (List.length trace) current = Some final.
Proof.
  induction trace as [|node trace IH]; intros current final; simpl.
  - intros ->. reflexivity.
  - intros [Hs Hc]. rewrite Hs. auto.
Qed.

(** The number of steps to a normal form is determined by the term. *)
Lemma iter_step_normal_unique (k : nat) :
  forall k' node u u',
    iter_step k node = Some u -> step u = None ->
    iter_step k' node = Some u' -> step u' = None -> k = k'.
Proof.
  induction k as [|k IH]; intros [|k'] node u u'; simpl; intros H Hn H' Hn';
    try reflexivity.
  - inversion H; subst. rewrite Hn in H'. discriminate.
  - inversion H'; subst. rewrite Hn' in H. discriminate.
  - destruct (step node) as [n1|]; [|discriminate].
    f_equal. eapply IH; eauto.
Qed.

Lemma chain_last (trace : list Node) :
  forall current final d,
    chain current trace final ->
    last (map snapshot (current :: trace)) d = snapshot final.
Proof.
  induction trace as [|t trace IH]; intros current final d.
  - simpl. intros ->. reflexivity.
  - intros [_ Hc]. specialize (IH t final d Hc).
    change (map snapshot (current :: t :: trace))
      with (snapshot current :: map snapshot (t :: trace)).
    destruct (map snapshot (t :: trace)) eqn:E; [discriminate|]. exact IH.
Qed.

(** X10.  When [evaluateWithSteps] returns, its trace is the printed
    parsed term followed by the printed reducts in order, the last of which
    is the result.  If the bound is not [NaN], the result is a normal form
    and the counter after as many rounds as there are reductions is below
    the bound: for an integer bound up to [2^53] the trace has at most
    that many entries.  If the bound is [NaN], the result is the parsed
    term, unreduced. *)
Theorem evaluateWithSteps_trace (input : jsstring) (maxSteps : number)
    (ev : Evaluation) :
  returns (evaluateWithSteps input maxSteps) (Ok ev) ->
  exists ast trace,
    parse input = Ok ast /\
    steps ev = map snapshot (ast :: trace) /\
    chain ast trace (result ev) /\
    last (steps ev) (snapshot (result ev)) = snapshot (result ev) /\
    (maxSteps <> NaN ->
     step (result ev) = None /\
     lessThan (counter (List.length trace)) maxSteps = true) /\
    (forall n, maxSteps = int n -> (n <= maxExact)%Z ->
               (1 <= Z.of_nat (List.length (steps ev)) <= n)%Z) /\
    (maxSteps = NaN -> trace = []).
Proof.
  intros [fuel Hev]. unfold evaluateWithSteps in Hev.
  destruct (parse input) as [ast|e]; [|discriminate].
  fold (snapshot ast) in Hev. exists ast.
  pose proof (evaluateWithSteps_loop_spec fuel maxSteps ast [snapshot ast] 0) as H.
  pose proof (evaluate_spec ast maxSteps fuel) as He.
  unfold Interpreter.evaluate in He.
  destruct (evaluateWithSteps_loop fuel maxSteps ast [snapshot ast] 0)
    as [[[current trace'] stepCount]|] eqn:Eloop; [|discriminate].
  destruct (atLeast stepCount maxSteps) eqn:Eat; [discriminate|].
  inversion Hev; subst ev; clear Hev; simpl.
  destruct (evaluate_loop fuel maxSteps ast 0) as [[node|err]|]; [| |contradiction].
  - destruct H as (-> & _ & trace & -> & Hch).
    destruct He as (k & _ & Hk & Hit & Hn).
    pose proof (chain_iter_step _ _ _ Hch) as Hit'.
    pose proof (iter_step_normal_unique _ _ _ _ _ Hit Hn Hit' Hn) as Hlen.
    subst k. exists trace. repeat split; try assumption.
    + apply (chain_last trace ast node _ Hch).
    + simpl. lia.
    + subst maxSteps. rewrite lessThan_counter_int in Hk by assumption.
      apply Z.ltb_lt in Hk. simpl. rewrite length_map. lia.
    + intros ->. discriminate.
  - destruct H as (Hlt & trace & -> & Hch).
    assert (Hnan : maxSteps = NaN).
    { destruct maxSteps as [q| | |]; simpl in *; try congruence.
      rewrite Eat in Hlt. discriminate. }
    subst maxSteps. clear He. destruct fuel as [|fuel]; [discriminate|].
    simpl in Eloop. inversion Eloop as [[Hc Htr Hs]]. subst current.
    assert (trace = []) by (destruct trace; [reflexivity | discriminate]).
    subst trace. exists []. simpl in *.
    repeat split; try congruence; try discriminate.
Qed.

Lemma evaluateWithSteps_trace_witness :
  returns (evaluateWithSteps (units "(\x.x) y") (int 5))
    (Ok (mkEvaluation (variable "y") [mkStep "(λx.x) y"; mkStep "y"])) /\
  exists ast trace,
    parse (units "(\x.x) y") = Ok ast /\
    [mkStep "(λx.x) y"; mkStep "y"] = map snapshot (ast :: trace) /\
    chain ast trace (variable "y") /\
    last [mkStep "(λx.x) y"; mkStep "y"] (snapshot (variable "y"))
    = snapshot (variable "y") /\
    (int 5 <> NaN ->
     step (variable "y") = None /\
     lessThan (counter (List.length trace)) (int 5) = true) /\
    (forall n, int 5 = int n -> (n <= maxExact)%Z ->
               (1 <= Z.of_nat (List.length [mkStep "(λx.x) y"; mkStep "y"]) <= n)%Z) /\
    (int 5 = NaN -> trace = []).
Proof.
  assert (R : returns (evaluateWithSteps (units "(\x.x) y") (int 5))
                (Ok (mkEvaluation (variable "y") [mkStep "(λx.x) y"; mkStep "y"])))
    by (exists 2; vm_compute; reflexivity).
  split; [exact R|].
  exact (evaluateWithSteps_trace (units "(\x.x) y") (int 5) _ R).
Defined.

(** X23.  With a bound other than [NaN], [evaluateWithSteps] and
    [evaluate] go round for round: after any number of rounds both are
    still running, or both have thrown the same error, or both have
    returned; the result is then the term returned by [evaluate] and the
    trace is the printed parsed term followed by the printed term after
    each reduction. *)
Theorem evaluateWithSteps_agrees_unless_NaN (input : jsstring)
    (maxSteps : number) (fuel : nat) :
  maxSteps <> NaN ->
  match LambdaCalculus.evaluate input maxSteps fuel,
        evaluateWithSteps input maxSteps fuel with
  | Some (Ok node), Some (Ok ev) =>
      result ev = node /\
      exists ast trace,
        parse input = Ok ast /\
        chain ast trace node /\
        steps ev = map (fun t => mkStep (toString t)) (ast :: trace)
  | Some (Throw e), Some (Throw e') => e = e'
  | None, None => True
  | _, _ => False
  end.
Proof.
  intros Hnan. unfold LambdaCalculus.evaluate, evaluateWithSteps.
  destruct (parse input) as [ast|e]; [|reflexivity].
  unfold Interpreter.evaluate.
  pose proof (evaluateWithSteps_loop_spec fuel maxSteps ast
                [mkStep (formatExpression ast)] 0) as H.
  pose proof (evaluate_spec ast maxSteps fuel) as He.
  unfold Interpreter.evaluate in He.
  destruct (evaluateWithSteps_loop fuel maxSteps ast _ 0)
    as [[[current steps] stepCount]|];
    destruct (evaluate_loop fuel maxSteps ast 0) as [[node|e]|];
    try contradiction; try exact I.
  - destruct H as (Hc & Hs & trace & Htr & Hch).
    rewrite (lessThan_atLeast _ _ Hs). simpl. split; [assumption|].
    exists ast, trace. repeat split; assumption.
  - destruct H as (Hs & _). destruct He as [-> _].
    rewrite (not_lessThan_atLeast _ _ Hnan Hs). reflexivity.
Qed.

Lemma evaluateWithSteps_agrees_unless_NaN_witness :
  int 5 <> NaN /\
  match LambdaCalculus.evaluate (units "(\x.x) y") (int 5) 2,
        evaluateWithSteps (units "(\x.x) y") (int 5) 2 with
  | Some (Ok node), Some (Ok ev) =>
      result ev = node /\
      exists ast trace,
        parse (units "(\x.x) y") = Ok ast /\
        chain ast trace node /\
        steps ev = map (fun t => mkStep (toString t)) (ast :: trace)
  | Some (Throw e), Some (Throw e') => e = e'
  | None, None => True
  | _, _ => False
  end.
Proof.
  assert (H : int 5 <> NaN) by discriminate.
  split; [exact H|].
  exact (evaluateWithSteps_agrees_unless_NaN (units "(\x.x) y") (int 5) 2 H).
Defined.

End LambdaCalculusMore.

(* ===================================================================== *)
(** ** Further properties of the lexer *)
(* ===================================================================== *)

Module LexerMore.
Import Lexer.

(** The four characters skipped by [skipWhitespace]. *)
Definition isBlank (c : jsstring) : bool :=
  streq c [32%N] || streq c [9%N] || streq c [13%N] || streq c [10%N].

(** The position just after the lexeme of a token. *)
Definition lexeme_end (t : Token) : nat :=
  match type t, value t with
  | TEOF, _ => position t
  | TVariable, Some name => position t + String.length name
  | _, _ => S (position t)
  end.

Section WithInput.

Variable input : jsstring.

(** Only blanks lie between the positions [a] and [b]. *)
Definition blanks (a b : nat) : Prop :=
  forall i, a <= i < b -> isBlank (charAt input i) = true.

(** The token [t] is the lexeme that starts at its position: the
    character of a punctuation token, the longest run of letters and
    digits for a [Variable] token, whose first character is a letter, and
    the end of the text for [EOF]. *)
Definition lexeme_at (t : Token) : Prop :=
  match type t with
  | TEOF => value t = None /\ position t = List.length input
  | TLambda => value t = None /\ charAt input (position t) = [92%N]
  | TDot => value t = None /\ charAt input (position t) = [46%N]
  | TLParen => value t = None /\ charAt input (position t) = [40%N]
  | TRParen => value t = None /\ charAt input (position t) = [41%N]
  | TVariable =>
      exists name,
        value t = Some (text name) /\
        name = substring input (position t) (position t + List.length name) /\
        position t + List.length name <= List.length input /\
        isAlpha (charAt input (position t)) = true /\
        (forall i, position t <= i < position t + List.length name ->
                   isAlphaNumeric (charAt input i) = true) /\
        isAlphaNumeric (charAt input (position t + List.length name)) = false
  end.

(** [lexed p tokens]: from position [p] on, the text is the lexemes of
    [tokens] in order, with nothing but blanks before each. *)
Fixpoint lexed (p : nat) (tokens : list Token) : Prop :=
  match tokens with
  | [] => True
  | t :: tokens' =>
      blanks p (position t) /\ p <= position t /\ lexeme_at t /\
      lexed (lexeme_end t) tokens'
  end.

Local Notation "'len'" := (List.length input).

Lemma peek_charAt (p : nat) : peek input p = charAt input p.
Proof.
  unfold peek, isAtEnd, inputLength, charAt.
  destruct (Nat.leb_spec len p) as [H|H]; [|reflexivity].
  apply nth_error_None in H. now rewrite H.
Qed.

Lemma charAt_end (p : nat) : len <= p -> charAt input p = [].
Proof. intros H. unfold charAt. apply nth_error_None in H. now rewrite H. Qed.

Lemma charAt_nonempty (p : nat) : charAt input p <> [] -> p < len.
Proof.
  intros H. destruct (Nat.lt_ge_cases p len) as [Hlt|Hge]; [assumption|].
  now rewrite charAt_end in H.
Qed.

(** A character read from the text is one code unit at most. *)
Lemma charAt_two (p : nat) (a b : N) (cs : jsstring) :
  charAt input p <> a :: b :: cs.
Proof. unfold charAt. destruct (nth_error input p); discriminate. Qed.

Lemma advance_snd (p : nat) : p < len -> snd (advance input p) = S p.
Proof.
  intros H. unfold advance, isAtEnd, inputLength.
  destruct (Nat.leb_spec len p); [lia | reflexivity].
Qed.

Lemma skipWhitespace_eq (p : nat) :
  skipWhitespace input p =
  if isAtEnd input p then p
  else if isBlank (peek input p) then skipWhitespace input (snd (advance input p))
  else p.
Proof.
  funelim (skipWhitespace input p); try rewrite e; try reflexivity;
    unfold isBlank; cbv zeta in Heq; rewrite Heq; reflexivity.
Qed.

Lemma skipWhitespace_spec (p : nat) :
  blanks p (skipWhitespace input p) /\
  p <= skipWhitespace input p /\
  (p <= len -> skipWhitespace input p <= len) /\
  isBlank (charAt input (skipWhitespace input p)) = false.
Proof.
  remember (len - p) as m eqn:Hm. revert p Hm.
  induction m as [m IH] using lt_wf_ind. intros p Hm.
  rewrite skipWhitespace_eq. unfold isAtEnd, inputLength.
  destruct (Nat.leb_spec len p) as [Hend|Hlt].
  - repeat split; try lia.
    + intros i Hi. lia.
    + now rewrite charAt_end.
  - rewrite peek_charAt. destruct (isBlank (charAt input p)) eqn:Eb.
    + rewrite advance_snd by assumption.
      destruct (IH (len - S p) ltac:(lia) (S p) eq_refl) as (Hb & Hle & Hlen & Hnb).
      repeat split; try assumption; try lia.
      intros i Hi. destruct (Nat.eq_dec i p) as [->|Hne]; [assumption|].
      apply Hb. lia.
    + repeat split; try assumption; try lia; intros i Hi; lia.
Qed.

Lemma readVariable_loop_spec (p : nat) :
  p <= readVariable_loop input p /\
  (p <= len -> readVariable_loop input p <= len) /\
  (forall i, p <= i < readVariable_loop input p ->
             isAlphaNumeric (charAt input i) = true) /\
  isAlphaNumeric (charAt input (readVariable_loop input p)) = false.
Proof.
  remember (len - p) as m eqn:Hm. revert p Hm.
  induction m as [m IH] using lt_wf_ind. intros p Hm.
  rewrite readVariable_loop_eq, peek_charAt.
  destruct (isAlphaNumeric (charAt input p)) eqn:Ea.
  - assert (Hlt : p < len)
      by (apply charAt_nonempty; intros E; rewrite E in Ea; discriminate).
    rewrite advance_snd by assumption.
    destruct (IH (len - S p) ltac:(lia) (S p) eq_refl) as (Hle & Hlen & Hall & Hstop).
    repeat split; try assumption; try lia.
    intros i Hi. destruct (Nat.eq_dec i p) as [->|Hne]; [assumption|].
    apply Hall. lia.
  - repeat split; try assumption; try lia; intros i Hi; lia.
Qed.

Lemma length_text (cs : jsstring) : String.length (text cs) = List.length cs.
Proof.
  unfold text. induction cs as [|c cs IH]; simpl; [reflexivity | now rewrite IH].
Qed.

Lemma length_substring (a b : nat) :
  a <= b -> b <= len -> List.length (substring input a b) = b - a.
Proof.
  intros Hab Hb. unfold substring. rewrite length_firstn, length_skipn. lia.
Qed.

(** What [nextToken] returns. *)
Lemma nextToken_Ok (p p' : nat) (t : Token) :
  nextToken input p = Ok (t, p') -> p <= len ->
  blanks p (position t) /\ p <= position t /\ lexeme_at t /\
  p' = lexeme_end t /\ p' <= len.
Proof.
  unfold nextToken.
  destruct (skipWhitespace_spec p) as (Hb & Hle & Hlen & Hnb).
  set (q := skipWhitespace input p) in *.
  unfold advance, isAtEnd, inputLength.
  destruct (Nat.leb_spec len q) as [Hend|Hlt]; intros H Hp.
  - inversion H; subst. unfold lexeme_at, lexeme_end. simpl.
    specialize (Hlen Hp). repeat split; try assumption; lia.
  - unfold streq in H.
    repeat match type of H with
           | context [list_eq_dec N.eq_dec ?a ?b] =>
               destruct (list_eq_dec N.eq_dec a b) as [?E|?E]; simpl in H
           end;
      try (exfalso; eapply charAt_two; eassumption);
      try (inversion H; subst; unfold lexeme_at, lexeme_end; simpl;
           repeat split; auto; lia).
    destruct (isAlpha (charAt input q)) eqn:Ea; [|discriminate].
    unfold readVariable in H. inversion H; subst t p'. clear H.
    destruct (readVariable_loop_spec q) as (Hrle & Hrlen & Hall & Hstop).
    set (r := readVariable_loop input q) in *.
    assert (Hqr : q < r).
    { unfold r. rewrite readVariable_loop_step
        by (rewrite peek_charAt; unfold isAlphaNumeric; now rewrite Ea).
      pose proof (proj1 (readVariable_loop_spec (S q))). lia. }
    assert (Hl : List.length (substring input q r) = r - q)
      by (apply length_substring; lia).
    unfold lexeme_at, lexeme_end. simpl. rewrite length_text, Hl.
    replace (q + (r - q)) with r by lia.
    repeat split; try assumption; try lia.
    exists (substring input q r). rewrite Hl.
    replace (q + (r - q)) with r by lia.
    repeat split; try assumption; lia.
Qed.

(** What [nextToken] throws. *)
Lemma nextToken_Throw (p : nat) (e : Error) :
  nextToken input p = Throw e ->
  exists q, e = LexError (charAt input q) q /\ p <= q < len /\
            blanks p q /\
            isBlank (charAt input q) = false /\
            isAlpha (charAt input q) = false /\
            ~ In (charAt input q) [[92%N]; [46%N]; [40%N]; [41%N]].
Proof.
  unfold nextToken.
  destruct (skipWhitespace_spec p) as (Hb & Hle & Hlen & Hnb).
  set (q := skipWhitespace input p) in *.
  unfold advance, isAtEnd, inputLength.
  destruct (Nat.leb_spec len q) as [Hend|Hlt]; intros H; [discriminate|].
  unfold streq in H.
  repeat match type of H with
         | context [list_eq_dec N.eq_dec ?a ?b] =>
             destruct (list_eq_dec N.eq_dec a b) as [?E|?E]; simpl in H
         end; try discriminate.
  destruct (isAlpha (charAt input q)) eqn:Ea.
  - destruct (readVariable input q). discriminate.
  - inversion H; subst. exists q. repeat split; try assumption; try lia.
    simpl. intros [F|[F|[F|[F|[]]]]]; congruence.
Qed.

Lemma tokenize_loop_eq (tokens : list Token) (p : nat) :
  tokenize_loop input tokens p =
  match nextToken input p with
  | Throw e => Throw e
  | Ok (token, p') =>
      if TokenType_eqb (type token) TEOF then Ok (tokens ++ [token])%list
      else tokenize_loop input (tokens ++ [token])%list p'
  end.
Proof.
  funelim (tokenize_loop input tokens p);
    repeat match goal with
           | E : nextToken _ _ = _ |- context [nextToken _ _] => rewrite E
           | E : TokenType_eqb _ _ = _ |- context [TokenType_eqb _ _] => rewrite E
           end; reflexivity.
Qed.

Lemma lexed_app (tokens1 : list Token) :
  forall p t tokens2,
    lexed p (tokens1 ++ [t]) -> lexed (lexeme_end t) tokens2 ->
    lexed p (tokens1 ++ t :: tokens2).
Proof.
  induction tokens1 as [|t1 tokens1 IH]; intros p t tokens2; simpl.
  - intros (Hb & Hle & Hl & _) H2. auto.
  - intros (Hb & Hle & Hl & H1) H2. repeat split; auto.
Qed.

Lemma tokenize_loop_Ok (m : nat) :
  forall acc p res,
    m = len - p -> p <= len ->
    tokenize_loop input acc p = Ok res ->
    exists new last,
      res = (acc ++ new ++ [last])%list /\
      lexed p (new ++ [last]) /\
      type last = TEOF /\
      Forall (fun t => type t <> TEOF) new.
Proof.
  induction m as [m IH] using lt_wf_ind. intros acc p res Hm Hp.
  rewrite tokenize_loop_eq.
  destruct (nextToken input p) as [[t p']|e] eqn:En; [|discriminate].
  destruct (nextToken_Ok _ _ _ En Hp) as (Hb & Hle & Hl & Hend & Hp').
  destruct (TokenType_eqb (type t) TEOF) eqn:Et.
  - intros H; inversion H; subst res. exists [], t. simpl.
    repeat split; auto. destruct (type t); (reflexivity || discriminate).
  - assert (Hne : type t <> TEOF) by (intros E; rewrite E in Et; discriminate).
    destruct (nextToken_progress input _ _ _ En Hne) as [Hlt _].
    intros H.
    destruct (IH (len - p') ltac:(lia) (acc ++ [t])%list p' res eq_refl Hp' H)
      as (new & last & -> & Hlexed & Hlast & Hall).
    exists (t :: new), last. rewrite <- app_assoc. simpl.
    repeat split; auto. now rewrite <- Hend.
Qed.

Lemma tokenize_loop_Throw (m : nat) :
  forall acc p e,
    m = len - p ->
    tokenize_loop input acc p = Throw e ->
    exists q, e = LexError (charAt input q) q /\ q < len /\
              isBlank (charAt input q) = false /\
              isAlpha (charAt input q) = false /\
              ~ In (charAt input q) [[92%N]; [46%N]; [40%N]; [41%N]].
Proof.
  induction m as [m IH] using lt_wf_ind. intros acc p e Hm.
  rewrite tokenize_loop_eq.
  destruct (nextToken input p) as [[t p']|e'] eqn:En.
  - destruct (TokenType_eqb (type t) TEOF) eqn:Et; [discriminate|].
    assert (Hne : type t <> TEOF) by (intros E; rewrite E in Et; discriminate).
    destruct (nextToken_progress input _ _ _ En Hne) as [Hlt Hlt'].
    unfold inputLength in Hlt'.
    apply (IH (len - p')); [lia | reflexivity].
  - intros H; inversion H; subst e'.
    destruct (nextToken_Throw _ _ En) as (q & -> & Hq & _ & Hnb & Hna & Hnp).
    exists q. repeat split; auto. lia.
Qed.

End WithInput.

(** X11.  The tokens returned by [tokenize] spell the trimmed text: read
    from position 0, each token is the lexeme found at its recorded
    position, which is the first position after the previous lexeme that
    is not a blank; a [Variable] token carries the longest run of letters
    and digits there, which starts with a letter, and the other tokens
    carry no value. *)
Theorem tokenize_spells_input (input : jsstring) (tokens : list Token) :
  Lexer.run input = Ok tokens -> lexed (trim input) 0 tokens.
Proof.
  unfold Lexer.run, tokenize. intros H.
  destruct (tokenize_loop_Ok (trim input) _ [] 0 tokens eq_refl (Nat.le_0_l _) H)
    as (new & last & -> & Hlexed & _). exact Hlexed.
Qed.

Lemma tokenize_spells_input_witness :
  Lexer.run (units " \x.x1 ")
    = Ok [mkToken TLambda None 0; mkToken TVariable (Some "x") 1;
          mkToken TDot None 2; mkToken TVariable (Some "x1") 3;
          mkToken TEOF None 5] /\
  lexed (trim (units " \x.x1 ")) 0
    [mkToken TLambda None 0; mkToken TVariable (Some "x") 1;
     mkToken TDot None 2; mkToken TVariable (Some "x1") 3; mkToken TEOF None 5].
Proof.
  split; [vm_compute; reflexivity|].
  apply (tokenize_spells_input (units " \x.x1 ")). vm_compute. reflexivity.
Defined.

(** X12.  A token list returned by [tokenize] ends with an [EOF] token,
    its only one, placed at the length of the trimmed text. *)
Theorem tokenize_ends_with_EOF (input : jsstring) (tokens : list Token) :
  Lexer.run input = Ok tokens ->
  exists before last,
    tokens = (before ++ [last])%list /\
    type last = TEOF /\ position last = List.length (trim input) /\
    Forall (fun t => type t <> TEOF) before.
Proof.
  unfold Lexer.run, tokenize. intros H.
  destruct (tokenize_loop_Ok (trim input) _ [] 0 tokens eq_refl (Nat.le_0_l _) H)
    as (new & last & -> & Hlexed & Hlast & Hall).
  exists new, last. repeat split; auto.
  clear H Hall. revert Hlexed. generalize 0.
  induction new as [|t new IH]; simpl; intros p.
  - intros (_ & _ & Hl & _). unfold lexeme_at in Hl. rewrite Hlast in Hl. tauto.
  - intros (_ & _ & _ & Hrest). eauto.
Qed.

Lemma tokenize_ends_with_EOF_witness :
  Lexer.run (units "x y") 
    = Ok [mkToken TVariable (Some "x") 0; mkToken TVariable (Some "y") 2;
          mkToken TEOF None 3] /\
  exists before last,
    [mkToken TVariable (Some "x") 0; mkToken TVariable (Some "y") 2;
     mkToken TEOF None 3] = (before ++ [last])%list /\
    type last = TEOF /\ position last = List.length (trim (units "x y")) /\
    Forall (fun t => type t <> TEOF) before.
Proof.
  split; [vm_compute; reflexivity|].
  apply (tokenize_ends_with_EOF (units "x y")). vm_compute. reflexivity.
Defined.

(** X13.  [tokenize] throws nothing but the lexical error, and the error
    carries a character at which no token starts, with its position in the
    trimmed text: a character that is neither a blank, nor a letter, nor
    one of the four punctuation characters [\], [.], [(] and [)].  The
    Greek letter lambda is such a character. *)
Theorem tokenize_error (input : jsstring) (e : Error) :
  Lexer.run input = Throw e ->
  exists q,
    e = LexError (charAt (trim input) q) q /\
    q < List.length (trim input) /\
    isBlank (charAt (trim input) q) = false /\
    isAlpha (charAt (trim input) q) = false /\
    ~ In (charAt (trim input) q) [[92%N]; [46%N]; [40%N]; [41%N]].
Proof.
  unfold Lexer.run, tokenize. intros H.
  apply (tokenize_loop_Throw (trim input) _ [] 0 e eq_refl H).
Qed.

Lemma tokenize_error_witness :
  Lexer.run [955%N; 120%N; 46%N; 120%N] = Throw (LexError [955%N] 0) /\
  exists q,
    LexError [955%N] 0
    = LexError (charAt (trim [955%N; 120%N; 46%N; 120%N]) q) q /\
    q < List.length (trim [955%N; 120%N; 46%N; 120%N]) /\
    isBlank (charAt (trim [955%N; 120%N; 46%N; 120%N]) q) = false /\
    isAlpha (charAt (trim [955%N; 120%N; 46%N; 120%N]) q) = false /\
    ~ In (charAt (trim [955%N; 120%N; 46%N; 120%N]) q)
         [[92%N]; [46%N]; [40%N]; [41%N]].
Proof.
  split; [vm_compute; reflexivity|].
  apply (tokenize_error [955%N; 120%N; 46%N; 120%N]). vm_compute. reflexivity.
Defined.

(** *** The Greek letter lambda *)

Lemma In_trimStart (u : N) (s : jsstring) :
  isTrimSpace u = false -> In u s -> In u (trimStart s).
Proof.
  intros Hu. induction s as [|c s IH]; simpl; [auto|].
  destruct (isTrimSpace c) eqn:Ec; [|auto].
  intros [->|H]; [congruence | auto].
Qed.

Lemma In_trim (u : N) (s : jsstring) :
  isTrimSpace u = false -> In u s -> In u (trim s).
Proof.
  intros Hu H. unfold trim. apply -> in_rev.
  apply In_trimStart; [assumption|]. apply -> in_rev.
  now apply In_trimStart.
Qed.

Section NoLambda.

Variable input : jsstring.

(** No lexeme holds the Greek letter. *)
Lemma nextToken_no_lambda (p p' : nat) (t : Token) :
  nextToken input p = Ok (t, p') -> p <= List.length input ->
  forall i, p <= i < p' \/ (type t = TEOF /\ p <= i) ->
            charAt input i <> [955%N].
Proof.
  intros H Hp i Hi E.
  destruct (nextToken_Ok input p p' t H Hp) as (Hb & Hle & Hl & -> & Hp').
  assert (Hblank : i < position t -> False).
  { intros Hlt. assert (Hi' : p <= i) by (destruct Hi as [Hi|Hi]; lia).
    specialize (Hb i (conj Hi' Hlt)). rewrite E in Hb. discriminate. }
  unfold lexeme_at, lexeme_end in *.
  destruct (type t) eqn:Et;
    try (destruct Hl as [Hv Hc]; rewrite ?Hv in *;
         assert (i = position t) by (destruct Hi as [Hi|[Hi _]]; [lia | discriminate]);
         subst i; congruence).
  - destruct Hl as (name & Hv & _ & _ & _ & Hall & _). rewrite Hv in Hi.
    rewrite length_text in Hi.
    destruct Hi as [Hi|[Hi _]]; [|discriminate].
    destruct (Nat.lt_ge_cases i (position t)) as [Hlt|Hge]; [auto|].
    specialize (Hall i ltac:(lia)). rewrite E in Hall. discriminate.
  - destruct Hl as [_ Hlen].
    destruct (Nat.lt_ge_cases i (position t)) as [Hlt|Hge]; [auto|].
    rewrite charAt_end in E by lia. discriminate.
Qed.

Lemma tokenize_loop_no_lambda (m : nat) :
  forall acc p res,
    m = List.length input - p -> p <= List.length input ->
    tokenize_loop input acc p = Ok res ->
    forall i, p <= i -> charAt input i <> [955%N].
Proof.
  induction m as [m IH] using lt_wf_ind. intros acc p res Hm Hp.
  rewrite tokenize_loop_eq.
  destruct (nextToken input p) as [[t p']|e] eqn:En; [|discriminate].
  pose proof (nextToken_no_lambda _ _ _ En Hp) as Hno.
  destruct (nextToken_Ok input _ _ _ En Hp) as (_ & _ & _ & _ & Hp').
  destruct (TokenType_eqb (type t) TEOF) eqn:Et.
  - intros _ i Hi. apply Hno. right. split; [|assumption].
    destruct (type t); (reflexivity || discriminate).
  - assert (Hne : type t <> TEOF) by (intros E; rewrite E in Et; discriminate).
    destruct (nextToken_progress input _ _ _ En Hne) as [Hlt _].
    intros H i Hi. destruct (Nat.lt_ge_cases i p') as [Hi'|Hi'].
    + apply Hno. left. lia.
    + apply (IH (List.length input - p') ltac:(lia) (acc ++ [t])%list p' res
                eq_refl Hp' H i Hi').
Qed.

End NoLambda.



(** *** Writing the backslash for the Greek letter *)

(** Writes the backslash for the Greek letter. *)
Definition backslash_for_lambda (u : N) : N :=
  if (u =? 955)%N then 92%N else u.

Lemma streq_true (a b : jsstring) : streq a b = true <-> a = b.
Proof.
  unfold streq. destruct (list_eq_dec N.eq_dec a b); split; congruence.
Qed.

Lemma streq_map_other (c : jsstring) (k : N) :
  k <> 92%N -> k <> 955%N -> streq (map backslash_for_lambda c) [k] = streq c [k].
Proof.
  intros H1 H2. apply eq_true_iff_eq. rewrite !streq_true.
  destruct c as [|u [|v c]]; simpl; try (split; congruence).
  unfold backslash_for_lambda. destruct (N.eqb_spec u 955); split; congruence.
Qed.

Lemma isBlank_map (c : jsstring) : isBlank (map backslash_for_lambda c) = isBlank c.
Proof. unfold isBlank. rewrite !streq_map_other by discriminate. reflexivity. Qed.

Lemma existsb_map_bs (P : N -> bool) (c : jsstring) :
  P 955%N = P 92%N -> existsb P (map backslash_for_lambda c) = existsb P c.
Proof.
  intros HP. induction c as [|u c IH]; simpl; [reflexivity|]. rewrite IH.
  f_equal. unfold backslash_for_lambda. destruct (N.eqb_spec u 955) as [->|]; congruence.
Qed.

Lemma isAlpha_map (c : jsstring) : isAlpha (map backslash_for_lambda c) = isAlpha c.
Proof. apply existsb_map_bs. reflexivity. Qed.

Lemma isAlphaNumeric_map (c : jsstring) :
  isAlphaNumeric (map backslash_for_lambda c) = isAlphaNumeric c.
Proof.
  unfold isAlphaNumeric. rewrite isAlpha_map. f_equal.
  apply existsb_map_bs. reflexivity.
Qed.

Lemma trimStart_map (s : jsstring) :
  trimStart (map backslash_for_lambda s) = map backslash_for_lambda (trimStart s).
Proof.
  induction s as [|u s IH]; simpl; [reflexivity|].
  replace (isTrimSpace (backslash_for_lambda u)) with (isTrimSpace u)
    by (unfold backslash_for_lambda; destruct (N.eqb_spec u 955) as [->|]; reflexivity).
  destruct (isTrimSpace u); [assumption | reflexivity].
Qed.

Lemma trim_map (s : jsstring) :
  trim (map backslash_for_lambda s) = map backslash_for_lambda (trim s).
Proof. unfold trim. now rewrite trimStart_map, <- map_rev, trimStart_map, map_rev. Qed.

Section Respelled.

Variable input : jsstring.

Local Notation "'input''" := (map backslash_for_lambda input) (only parsing).

Lemma charAt_map (p : nat) :
  charAt input' p = map backslash_for_lambda (charAt input p).
Proof.
  unfold charAt. rewrite nth_error_map. destruct (nth_error input p); reflexivity.
Qed.

Lemma isAtEnd_map (p : nat) : isAtEnd input' p = isAtEnd input p.
Proof. unfold isAtEnd, inputLength. now rewrite length_map. Qed.

Lemma advance_map_snd (p : nat) : snd (advance input' p) = snd (advance input p).
Proof. unfold advance. rewrite isAtEnd_map. destruct (isAtEnd input p); reflexivity. Qed.

Lemma skipWhitespace_map (p : nat) :
  skipWhitespace input' p = skipWhitespace input p.
Proof.
  remember (List.length input - p) as m eqn:Hm. revert p Hm.
  induction m as [m IH] using lt_wf_ind. intros p Hm.
  rewrite (skipWhitespace_eq input'), (skipWhitespace_eq input), isAtEnd_map.
  unfold isAtEnd, inputLength.
  destruct (Nat.leb_spec (List.length input) p) as [Hend|Hlt]; [reflexivity|].
  rewrite !peek_charAt, charAt_map, isBlank_map, advance_map_snd.
  destruct (isBlank (charAt input p)); [|reflexivity].
  rewrite advance_snd by assumption.
  apply (IH (List.length input - S p)); [lia | reflexivity].
Qed.

Lemma readVariable_loop_map (p : nat) :
  readVariable_loop input' p = readVariable_loop input p.
Proof.
  remember (List.length input - p) as m eqn:Hm. revert p Hm.
  induction m as [m IH] using lt_wf_ind. intros p Hm.
  rewrite (readVariable_loop_eq input'), (readVariable_loop_eq input).
  rewrite !peek_charAt, charAt_map, isAlphaNumeric_map, advance_map_snd.
  destruct (isAlphaNumeric (charAt input p)) eqn:Ea; [|reflexivity].
  assert (Hlt : p < List.length input)
    by (apply charAt_nonempty; intros E; rewrite E in Ea; discriminate).
  rewrite advance_snd by assumption.
  apply (IH (List.length input - S p)); [lia | reflexivity].
Qed.

(** A run of letters and digits is spelled the same in both texts. *)
Lemma substring_map (a b : nat) :
  (forall i, a <= i < b -> isAlphaNumeric (charAt input i) = true) ->
  substring input' a b = substring input a b.
Proof.
  intros H. unfold substring. rewrite skipn_map, firstn_map.
  rewrite <- (map_id (firstn (b - a) (skipn a input))) at 2.
  apply map_ext_in. intros u Hu.
  apply In_nth_error in Hu. destruct Hu as [i Hi].
  assert (Hlt : i < b - a).
  { destruct (Nat.lt_ge_cases i (b - a)) as [Hl|Hg]; [assumption|].
    rewrite nth_error_firstn in Hi.
    destruct (Nat.ltb_spec i (b - a)); [lia | discriminate]. }
  rewrite nth_error_firstn in Hi.
  destruct (Nat.ltb_spec i (b - a)); [|lia].
  rewrite nth_error_skipn in Hi.
  specialize (H (a + i) ltac:(lia)). unfold charAt in H. rewrite Hi in H.
  unfold backslash_for_lambda.
  destruct (N.eqb_spec u 955) as [->|]; [discriminate | reflexivity].
Qed.

Lemma readVariable_map (p : nat) : readVariable input' p = readVariable input p.
Proof.
  unfold readVariable. rewrite readVariable_loop_map, substring_map; [reflexivity|].
  apply readVariable_loop_spec.
Qed.

(** On the respelled text [nextToken] does what it does on the text,
    except at a Greek letter, which it reads as a [Lambda] token. *)
Lemma nextToken_respelled (p : nat) :
  nextToken input' p =
  if streq (charAt input (skipWhitespace input p)) [955%N]
  then Ok (mkToken TLambda None (skipWhitespace input p), S (skipWhitespace input p))
  else nextToken input p.
Proof.
  unfold nextToken. rewrite skipWhitespace_map, isAtEnd_map.
  set (q := skipWhitespace input p).
  unfold advance. rewrite isAtEnd_map, charAt_map, readVariable_map.
  unfold isAtEnd, inputLength.
  destruct (Nat.leb_spec (List.length input) q) as [Hend|Hlt].
  - rewrite charAt_end by assumption. reflexivity.
  - unfold charAt. destruct (nth_error input q) as [u|]; [|reflexivity].
    simpl map. unfold backslash_for_lambda.
    destruct (N.eqb_spec u 955) as [->|Hne]; [reflexivity|].
    replace (streq [u] [955%N]) with false; [reflexivity|].
    symmetry. unfold streq. destruct (list_eq_dec N.eq_dec [u] [955%N]); congruence.
Qed.

(** On the text itself it throws at the Greek letter. *)
Lemma nextToken_at_lambda (p : nat) :
  charAt input (skipWhitespace input p) = [955%N] ->
  nextToken input p = Throw (LexError [955%N] (skipWhitespace input p)).
Proof.
  intros H. unfold nextToken. set (q := skipWhitespace input p) in *.
  assert (Hlt : q < List.length input)
    by (apply charAt_nonempty; rewrite H; discriminate).
  unfold advance, isAtEnd, inputLength.
  destruct (Nat.leb_spec (List.length input) q); [lia|]. now rewrite H.
Qed.

Lemma tokenize_loop_respelled (m : nat) :
  forall acc p res,
    m = List.length input - p ->
    tokenize_loop input' acc p = Ok res ->
    tokenize_loop input acc p = Ok res \/
    exists q, tokenize_loop input acc p = Throw (LexError [955%N] q) /\
              charAt input q = [955%N].
Proof.
  induction m as [m IH] using lt_wf_ind. intros acc p res Hm.
  rewrite (tokenize_loop_eq input'), (tokenize_loop_eq input), nextToken_respelled.
  destruct (streq (charAt input (skipWhitespace input p)) [955%N]) eqn:El.
  - apply streq_true in El. intros _. right. exists (skipWhitespace input p).
    now rewrite (nextToken_at_lambda p El).
  - destruct (nextToken input p) as [[t p']|e] eqn:En; [|discriminate].
    destruct (TokenType_eqb (type t) TEOF) eqn:Et; [now left|].
    assert (Hne : type t <> TEOF) by (intros E; rewrite E in Et; discriminate).
    destruct (nextToken_progress input _ _ _ En Hne) as [Hlt Hlt'].
    unfold inputLength in Hlt'.
    apply (IH (List.length input - p')); [lia | reflexivity].
Qed.

End Respelled.

(** A text with a Greek letter, whose respelling the lexer accepts, makes
    the lexer throw at a Greek letter. *)
Lemma run_respelled (input : jsstring) (tokens : list Token) :
  Lexer.run (map backslash_for_lambda input) = Ok tokens ->
  In 955%N input ->
  exists q, Lexer.run input = Throw (LexError [955%N] q) /\
            charAt (trim input) q = [955%N].
Proof.
  unfold Lexer.run, tokenize. rewrite trim_map. intros H Hin.
  destruct (tokenize_loop_respelled (trim input) _ [] 0 tokens eq_refl H)
    as [Hok|(q & Hq & Hc)]; [|now exists q].
  apply (In_trim 955 input eq_refl) in Hin.
  apply In_nth_error in Hin. destruct Hin as [i Hi].
  destruct (tokenize_loop_no_lambda (trim input) _ [] 0 tokens eq_refl
              (Nat.le_0_l _) Hok i (Nat.le_0_l _)).
  unfold charAt. now rewrite Hi.
Qed.

End LexerMore.

(* ===================================================================== *)
(** ** Further properties of the parser *)
(* ===================================================================== *)

Module ParserMore.
Import Parser.

(** The token at the index is one on which [check(type')] answers [true]. *)
Definition checks (type' : TokenType) (t : Token) : bool :=
  negb (TokenType_eqb (type t) TEOF) && TokenType_eqb (type t) type'.

(** The errors thrown by the parser for a token it does not accept. *)
Definition is_parse_error (e : Error) : Prop :=
  match e with
  | ParseError _ _ | UnexpectedToken _ _ => True
  | _ => False
  end.

Section WithTokens.

Variable tokens : list Token.

Local Notation "x <-- m ;; k" := (bindF m (fun x => k))
  (at level 61, m at next level, right associativity).

Ltac inv_bind H :=
  let a := fresh "a" in let c := fresh "c" in
  let H1 := fresh "H" in
  apply bindF_ok in H; destruct H as (a & c & H1 & H).

(** *** The primitives, by the token at the index *)

Lemma match__eq (type' : TokenType) (current : nat) :
  match_ tokens [type'] current =
  match nth_error tokens current with
  | Some t => if checks type' t then Ok (true, S current) else Ok (false, current)
  | None => Throw TypeError
  end.
Proof.
  unfold match_, bind, ret. rewrite check_eq.
  destruct (nth_error tokens current) as [t|] eqn:E; [|reflexivity].
  fold (checks type' t). destruct (checks type' t) eqn:Ec; [|reflexivity].
  rewrite advance_eq, E. unfold checks in Ec.
  destruct (TokenType_eqb (type t) TEOF); [discriminate | reflexivity].
Qed.

Lemma consume_eq (type' : TokenType) (message : string) (current : nat) :
  consume tokens type' message current =
  match nth_error tokens current with
  | Some t =>
      if checks type' t then Ok (Some t, S current)
      else Throw (ParseError message (position t))
  | None => Throw TypeError
  end.
Proof.
  unfold consume, bind. rewrite check_eq.
  destruct (nth_error tokens current) as [t|] eqn:E; [|reflexivity].
  fold (checks type' t). destruct (checks type' t) eqn:Ec.
  - rewrite advance_eq, E. unfold checks in Ec.
    destruct (TokenType_eqb (type t) TEOF); [discriminate | reflexivity].
  - unfold peek, prop, ret, throw. rewrite E. reflexivity.
Qed.

Lemma continue_eq (current : nat) :
  andP (notP (isAtEnd tokens))
       (andP (notP (check tokens TRParen)) (notP (check tokens TDot))) current =
  match nth_error tokens current with
  | Some t =>
      Ok (negb (TokenType_eqb (type t) TEOF) &&
          negb (TokenType_eqb (type t) TRParen) &&
          negb (TokenType_eqb (type t) TDot), current)
  | None => Throw TypeError
  end.
Proof.
  unfold andP, notP, bind, ret. rewrite isAtEnd_eq.
  destruct (nth_error tokens current) as [t|] eqn:E; [|reflexivity].
  destruct (type t) eqn:Ht; simpl; try reflexivity;
    rewrite !check_eq, E, Ht; simpl; try reflexivity;
    rewrite check_eq, E, Ht; reflexivity.
Qed.

(** *** Token arrays that end with [EOF] *)

(** An [EOF] token lies at the index or after it. *)
Definition eof_ahead (current : nat) : Prop :=
  exists i t, current <= i /\ nth_error tokens i = Some t /\ type t = TEOF.

Lemma eof_ahead_token (current : nat) :
  eof_ahead current -> exists t, nth_error tokens current = Some t.
Proof.
  intros (i & t & Hle & Hi & _).
  destruct (nth_error tokens current) as [t'|] eqn:E; [eauto|].
  apply nth_error_None in E.
  assert (i < List.length tokens) by (apply nth_error_Some; congruence). lia.
Qed.

Lemma eof_ahead_S (current : nat) (t : Token) :
  eof_ahead current -> nth_error tokens current = Some t ->
  TokenType_eqb (type t) TEOF = false -> eof_ahead (S current).
Proof.
  intros (i & t' & Hle & Hi & Ht') Hc Hne.
  exists i, t'. repeat split; try assumption.
  destruct (Nat.eq_dec i current) as [->|]; [|lia].
  rewrite Hc in Hi. inversion Hi; subst. rewrite Ht' in Hne. discriminate.
Qed.

Lemma checks_not_EOF (type' : TokenType) (t : Token) :
  checks type' t = true -> TokenType_eqb (type t) TEOF = false.
Proof.
  unfold checks. destruct (TokenType_eqb (type t) TEOF); [discriminate | reflexivity].
Qed.

(** A call neither reads past the array nor leaves the index past the
    last [EOF]. *)
Definition safe (r : option (Result (Node * nat))) : Prop :=
  match r with
  | Some (Ok (_, current')) => eof_ahead current'
  | Some (Throw e) => is_parse_error e
  | None => True
  end.

Lemma recursive_descent_safe (fuel : nat) :
  (forall current, eof_ahead current -> safe (expression tokens fuel current)) /\
  (forall current, eof_ahead current -> safe (application tokens fuel current)) /\
  (forall expr current, eof_ahead current ->
     safe (application_loop tokens fuel expr current)) /\
  (forall current, eof_ahead current -> safe (atom tokens fuel current)).
Proof.
  induction fuel as [|fuel (IHe & IHa & IHl & IHt)].
  - repeat split; intros; exact I.
  - repeat apply conj.
    + intros current H. rewrite expression_S. auto.
    + intros current H. rewrite application_S. unfold bindF.
      specialize (IHt current H).
      destruct (atom tokens fuel current) as [[[expr c]|e]|]; simpl in *; auto.
    + intros expr current H. rewrite application_loop_S. unfold bindF, lift.
      rewrite continue_eq. destruct (eof_ahead_token _ H) as [t Ht]. rewrite Ht.
      destruct (_ && _).
      * specialize (IHt current H).
        destruct (atom tokens fuel current) as [[[right c]|e]|]; simpl in *; auto.
      * exact H.
    + intros current H. rewrite atom_S. unfold bindF, lift.
      destruct (eof_ahead_token _ H) as [t Ht].
      rewrite match__eq, Ht.
      destruct (checks TLambda t) eqn:E1.
      { pose proof (eof_ahead_S _ _ H Ht (checks_not_EOF _ _ E1)) as H1.
        rewrite consume_eq. destruct (eof_ahead_token _ H1) as [t1 Ht1]. rewrite Ht1.
        destruct (checks TVariable t1) eqn:E2; [|simpl; exact I].
        pose proof (eof_ahead_S _ _ H1 Ht1 (checks_not_EOF _ _ E2)) as H2.
        rewrite consume_eq. destruct (eof_ahead_token _ H2) as [t2 Ht2]. rewrite Ht2.
        destruct (checks TDot t2) eqn:E3; [|simpl; exact I].
        pose proof (eof_ahead_S _ _ H2 Ht2 (checks_not_EOF _ _ E3)) as H3.
        specialize (IHe _ H3).
        destruct (expression tokens fuel (S (S (S current)))) as [[[body c]|e]|];
          simpl in *; auto. }
      rewrite match__eq, Ht.
      destruct (checks TVariable t) eqn:E2.
      { unfold previous, value_, prop, bind, ret. rewrite Ht. simpl.
        eapply eof_ahead_S; eauto using checks_not_EOF. }
      rewrite match__eq, Ht.
      destruct (checks TLParen t) eqn:E3.
      { pose proof (eof_ahead_S _ _ H Ht (checks_not_EOF _ _ E3)) as H1.
        specialize (IHe _ H1).
        destruct (expression tokens fuel (S current)) as [[[expr c]|e]|];
          simpl in *; auto.
        rewrite consume_eq. destruct (eof_ahead_token _ IHe) as [t1 Ht1]. rewrite Ht1.
        destruct (checks TRParen t1) eqn:E4; [|simpl; exact I].
        simpl. eapply eof_ahead_S; eauto using checks_not_EOF. }
      unfold peek, prop, ret, throw. rewrite Ht. simpl. rewrite Ht. simpl.
      exact I.
Qed.

Lemma parse_safe :
  (exists before last, tokens = (before ++ [last])%list /\ type last = TEOF) ->
  match parse tokens with
  | Ok _ => True
  | Throw e => is_parse_error e
  end.
Proof.
  intros (before & last & Htok & Hlast).
  assert (H0 : eof_ahead 0).
  { exists (List.length before), last. subst tokens. repeat split; [lia| |assumption].
    rewrite nth_error_app2, Nat.sub_diag by lia. reflexivity. }
  pose proof (proj1 (recursive_descent_safe (3 * List.length tokens + 3)) 0 H0)
    as Hs.
  fold (parse_run tokens) in Hs.
  destruct (parse_run tokens) as [r|] eqn:E; [|now destruct (expression_returns tokens)].
  rewrite (parse_eq tokens r E). destruct r as [[node c]|e]; [exact I | exact Hs].
Qed.

(** X15.  [parse()] returns or throws on every token array: the
    recursive descent ends within [3 * tokens.length + 3] nested calls
    and loop rounds. *)
Theorem parse_terminates :
  exists r, parse_run tokens = Some r /\
            parse tokens = match r with
                           | Ok (node, _) => Ok node
                           | Throw e => Throw e
                           end.
Proof.
  destruct (parse_run tokens) as [r|] eqn:E; [|now destruct (expression_returns tokens)].
  exists r. split; [reflexivity | now apply parse_eq].
Qed.

(** X16.  When [parse()] returns, the parser has consumed at least one
    token and stands on an [EOF] token, a [')'] or a ['.']: these are the
    only tokens that end the loop of [application]. *)
Theorem parse_stops_at (node : Node) (current : nat) :
  parse_run tokens = Some (Ok (node, current)) ->
  0 < current /\
  exists t, nth_error tokens current = Some t /\
            (type t = TEOF \/ type t = TRParen \/ type t = TDot).
Proof.
  intros H. split.
  - apply (proj1 (progress tokens _)) in H. lia.
  - apply (parse_run_stops tokens node current H).
Qed.

(** X17.  A first token that cannot start an atom, that is [EOF], [')']
    or ['.'], makes [parse()] throw "Unexpected token" with the type and
    the position of that token. *)
Theorem parse_unexpected_first_token (t : Token) :
  nth_error tokens 0 = Some t ->
  type t = TEOF \/ type t = TRParen \/ type t = TDot ->
  parse tokens = Throw (UnexpectedToken (type t) (position t)).
Proof.
  intros H0 Ht.
  assert (E : parse_run tokens = Some (Throw (UnexpectedToken (type t) (position t)))).
  { unfold parse_run.
    replace (3 * List.length tokens + 3)
      with (S (S (S (3 * List.length tokens)))) by lia.
    rewrite expression_S, application_S, atom_S. unfold bindF, lift.
    assert (Hc : forall ty, In ty [TLambda; TVariable; TLParen] -> checks ty t = false).
    { intros ty Hin. unfold checks. simpl in Hin.
      destruct Ht as [Ht|[Ht|Ht]]; rewrite Ht;
        destruct Hin as [<-|[<-|[<-|[]]]]; reflexivity. }
    rewrite match__eq, H0, (Hc TLambda) by (simpl; auto).
    rewrite match__eq, H0, (Hc TVariable) by (simpl; auto).
    rewrite match__eq, H0, (Hc TLParen) by (simpl; auto).
    unfold peek, prop, ret, throw. rewrite H0. cbv beta iota. rewrite H0.
    reflexivity. }
  now rewrite (parse_eq tokens _ E).
Qed.

End WithTokens.

Lemma parse_stops_at_witness :
  parse_run (Vocabulary.trailing_tokens) = Some (Ok (variable "x", 1)) /\
  0 < 1 /\
  exists t, nth_error Vocabulary.trailing_tokens 1 = Some t /\
            (type t = TEOF \/ type t = TRParen \/ type t = TDot).
Proof.
  split; [vm_compute; reflexivity|].
  apply (parse_stops_at Vocabulary.trailing_tokens (variable "x") 1).
  vm_compute. reflexivity.
Defined.

Lemma parse_unexpected_first_token_witness :
  nth_error [mkToken TRParen None 0; mkToken TEOF None 1] 0
    = Some (mkToken TRParen None 0) /\
  parse [mkToken TRParen None 0; mkToken TEOF None 1]
    = Throw (UnexpectedToken TRParen 0).
Proof.
  split; [reflexivity|].
  apply (parse_unexpected_first_token
           [mkToken TRParen None 0; mkToken TEOF None 1] (mkToken TRParen None 0)).
  - reflexivity.
  - right. left. reflexivity.
Defined.

End ParserMore.

(* ===================================================================== *)
(** ** Printing, then lexing and parsing *)
(* ===================================================================== *)

Module RoundTrip.
Import Parser ParserMore.

(** What the parser reads of a token: its type and its value. *)
Definition kind (t : Token) : TokenType * option string := (type t, value t).

Definition KVar (name : string) : TokenType * option string := (TVariable, Some name).
Definition KLambda : TokenType * option string := (TLambda, None).
Definition KDot : TokenType * option string := (TDot, None).
Definition KLParen : TokenType * option string := (TLParen, None).
Definition KRParen : TokenType * option string := (TRParen, None).
Definition KEOF : TokenType * option string := (TEOF, None).

(** The tokens of the text printed by [toString], without positions. *)
Fixpoint printed (node : Node) : list (TokenType * option string) :=
  match node with
  | variable name => [KVar name]
  | abstraction param body =>
      [KLParen; KLambda; KVar param; KDot] ++ printed body ++ [KRParen]
  | Ast.application l r =>
      printed l ++
      match r with
      | variable name => [KVar name]
      | _ => [KLParen] ++ printed r ++ [KRParen]
      end
  end%list.

Section WithTokens.

Variable tokens : list Token.

Local Notation "x <-- m ;; k" := (bindF m (fun x => k))
  (at level 61, m at next level, right associativity).

(** *** More fuel changes nothing *)

Lemma bindF_mono {A B : Type} (m m' : PF A) (k k' : A -> PF B) (c : nat)
    (r : Result (B * nat)) :
  (forall r1, m c = Some r1 -> m' c = Some r1) ->
  (forall a c1 r2, k a c1 = Some r2 -> k' a c1 = Some r2) ->
  bindF m k c = Some r -> bindF m' k' c = Some r.
Proof.
  unfold bindF. intros Hm Hk.
  destruct (m c) as [[[a c1]|e]|] eqn:E; [| |discriminate];
    rewrite (Hm _ eq_refl); auto.
Qed.

Ltac mono :=
  repeat first
    [ assumption
    | progress intros
    | match goal with
      | H : bindF _ _ _ = Some _ |- bindF _ _ _ = Some _ =>
          revert H; apply bindF_mono
      | H : (if ?b then _ else _) _ = Some _ |- _ => destruct b
      end ].

Lemma fuel_S (fuel : nat) :
  (forall c r, expression tokens fuel c = Some r ->
               expression tokens (S fuel) c = Some r) /\
  (forall c r, application tokens fuel c = Some r ->
               application tokens (S fuel) c = Some r) /\
  (forall e c r, application_loop tokens fuel e c = Some r ->
                 application_loop tokens (S fuel) e c = Some r) /\
  (forall c r, atom tokens fuel c = Some r -> atom tokens (S fuel) c = Some r).
Proof.
  induction fuel as [|fuel (IHe & IHa & IHl & IHt)].
  - repeat split; intros; discriminate.
  - repeat apply conj.
    + intros c r. rewrite !expression_S. auto.
    + intros c r. rewrite !application_S. intros H. mono; eauto.
    + intros e c r. rewrite !application_loop_S. intros H. mono; eauto.
    + intros c r. rewrite !atom_S. intros H. mono; eauto.
Qed.

Lemma fuel_le (fuel fuel' : nat) :
  fuel <= fuel' ->
  (forall c r, expression tokens fuel c = Some r ->
               expression tokens fuel' c = Some r) /\
  (forall e c r, application_loop tokens fuel e c = Some r ->
                 application_loop tokens fuel' e c = Some r) /\
  (forall c r, atom tokens fuel c = Some r -> atom tokens fuel' c = Some r).
Proof.
  induction 1 as [|fuel' Hle (IHe & IHl & IHt)]; [auto|].
  destruct (fuel_S fuel') as (He & _ & Hl & Ht). repeat split; eauto.
Qed.

(** *** The parser on the printed tokens *)

Local Notation "'K'" := (map kind tokens).

Lemma kinds_cons (c : nat) (k : TokenType * option string)
    (rest : list (TokenType * option string)) :
  skipn c K = k :: rest ->
  (exists t, nth_error tokens c = Some t /\ kind t = k) /\ skipn (S c) K = rest.
Proof.
  intros H. split.
  - pose proof (hd_error_skipn c K) as Hh. rewrite H in Hh. simpl in Hh.
    rewrite nth_error_map in Hh.
    destruct (nth_error tokens c) as [t|]; [|discriminate].
    inversion Hh. eauto.
  - change (S c) with (1 + c). rewrite <- skipn_skipn, H. reflexivity.
Qed.

Lemma kinds_app (c : nat) (ks rest : list (TokenType * option string)) :
  skipn c K = (ks ++ rest)%list -> skipn (c + List.length ks) K = rest.
Proof.
  intros H. rewrite Nat.add_comm, <- skipn_skipn, H, skipn_app, skipn_all.
  now rewrite Nat.sub_diag.
Qed.

Definition AtomR (c : nat) (node : Node) (c' : nat) : Prop :=
  exists fuel, atom tokens fuel c = Some (Ok (node, c')).

Definition LoopR (expr : Node) (c : nat) (node : Node) (c' : nat) : Prop :=
  exists fuel, application_loop tokens fuel expr c = Some (Ok (node, c')).

Definition ExprR (c : nat) (node : Node) (c' : nat) : Prop :=
  exists fuel, expression tokens fuel c = Some (Ok (node, c')).

Definition stops (k : TokenType * option string) : Prop :=
  fst k = TEOF \/ fst k = TRParen \/ fst k = TDot.

Lemma R_var (c : nat) (t : Token) (name : string) :
  nth_error tokens c = Some t -> kind t = KVar name ->
  AtomR c (variable name) (S c).
Proof.
  intros Ht Hk. exists 1. inversion Hk as [[Hty Hv]].
  rewrite atom_S. unfold bindF, lift.
  rewrite match__eq, Ht. unfold checks; rewrite Hty; cbn [TokenType_eqb negb andb].
  rewrite match__eq, Ht. unfold checks; rewrite Hty; cbn [TokenType_eqb negb andb].
  unfold previous, value_, prop, bind, ret. rewrite Ht. simpl. now rewrite Hv.
Qed.

Lemma R_expr (c c1 c2 : nat) (e n : Node) :
  AtomR c e c1 -> LoopR e c1 n c2 -> ExprR c n c2.
Proof.
  intros [f1 H1] [f2 H2]. exists (S (S (Nat.max f1 f2))).
  rewrite expression_S, application_S. unfold bindF.
  destruct (fuel_le f1 (Nat.max f1 f2) (Nat.le_max_l _ _)) as (_ & _ & Ht).
  destruct (fuel_le f2 (Nat.max f1 f2) (Nat.le_max_r _ _)) as (_ & Hl & _).
  rewrite (Ht _ _ H1). auto.
Qed.

Lemma R_loop_stop (c : nat) (t : Token) (e : Node) :
  nth_error tokens c = Some t -> stops (kind t) -> LoopR e c e c.
Proof.
  intros Ht Hs. exists 1. rewrite application_loop_S. unfold bindF, lift.
  rewrite continue_eq, Ht. unfold stops, kind in Hs. simpl in Hs.
  destruct Hs as [Hs|[Hs|Hs]]; rewrite Hs; reflexivity.
Qed.

Lemma R_loop_go (c c1 c2 : nat) (t : Token) (e r n : Node) :
  nth_error tokens c = Some t ->
  type t = TVariable \/ type t = TLParen ->
  AtomR c r c1 -> LoopR (Ast.application e r) c1 n c2 -> LoopR e c n c2.
Proof.
  intros Ht Hty [f1 H1] [f2 H2]. exists (S (Nat.max f1 f2)).
  rewrite application_loop_S. unfold bindF, lift.
  rewrite continue_eq, Ht.
  destruct (fuel_le f1 (Nat.max f1 f2) (Nat.le_max_l _ _)) as (_ & _ & Hat).
  destruct (fuel_le f2 (Nat.max f1 f2) (Nat.le_max_r _ _)) as (_ & Hl & _).
  destruct Hty as [Hty|Hty]; rewrite Hty; cbn [TokenType_eqb negb andb];
    rewrite (Hat _ _ H1); auto.
Qed.

Lemma R_paren (c c1 : nat) (t t1 : Token) (e : Node) :
  nth_error tokens c = Some t -> kind t = KLParen ->
  ExprR (S c) e c1 ->
  nth_error tokens c1 = Some t1 -> kind t1 = KRParen ->
  AtomR c e (S c1).
Proof.
  intros Ht Hk [f He] Ht1 Hk1. exists (S f).
  inversion Hk as [[Hty Hv]]. inversion Hk1 as [[Hty1 Hv1]].
  rewrite atom_S. unfold bindF, lift.
  rewrite match__eq, Ht. unfold checks; rewrite Hty; cbn [TokenType_eqb negb andb].
  rewrite match__eq, Ht. unfold checks; rewrite Hty; cbn [TokenType_eqb negb andb].
  rewrite match__eq, Ht. unfold checks; rewrite Hty; cbn [TokenType_eqb negb andb].
  rewrite He, consume_eq, Ht1. unfold checks. rewrite Hty1. reflexivity.
Qed.

Lemma R_lambda (c c1 : nat) (t tp td : Token) (param : string) (body : Node) :
  nth_error tokens c = Some t -> kind t = KLambda ->
  nth_error tokens (S c) = Some tp -> kind tp = KVar param ->
  nth_error tokens (S (S c)) = Some td -> kind td = KDot ->
  ExprR (S (S (S c))) body c1 ->
  AtomR c (abstraction param body) c1.
Proof.
  intros Ht Hk Htp Hkp Htd Hkd [f He]. exists (S f).
  inversion Hk as [[Hty Hv]]. inversion Hkp as [[Htyp Hvp]].
  inversion Hkd as [[Htyd Hvd]].
  rewrite atom_S. unfold bindF, lift.
  rewrite match__eq, Ht. unfold checks; rewrite Hty; cbn [TokenType_eqb negb andb].
  rewrite consume_eq, Htp. unfold checks; rewrite Htyp; cbn [TokenType_eqb negb andb].
  rewrite consume_eq, Htd. unfold checks; rewrite Htyd; cbn [TokenType_eqb negb andb].
  rewrite He. unfold value_, prop, bind, ret. simpl. now rewrite Hvp.
Qed.

(** The tokens printed for a right operand. *)
Definition printed_arg (r : Node) : list (TokenType * option string) :=
  match r with
  | variable name => [KVar name]
  | _ => ([KLParen] ++ printed r ++ [KRParen])%list
  end.

(** Once the tokens printed for [t] are read, the parser is in the loop
    of [application] with [t] as the expression read so far. *)
Lemma printed_parse (t : Node) :
  forall c rest n c2,
    skipn c K = (printed t ++ rest)%list ->
    LoopR t (c + List.length (printed t)) n c2 ->
    ExprR c n c2.
Proof.
  induction t as [name | p b IH | l IHl r IHr]; intros c rest n c2 Hk Hloop.
  - simpl in Hk. apply kinds_cons in Hk. destruct Hk as [(t & Ht & Hkt) _].
    simpl in Hloop. rewrite Nat.add_1_r in Hloop.
    eapply R_expr; [eapply R_var; eassumption | exact Hloop].
  - simpl in Hk.
    apply kinds_cons in Hk. destruct Hk as [(t0 & Ht0 & Hk0) Hk].
    apply kinds_cons in Hk. destruct Hk as [(t1 & Ht1 & Hk1) Hk].
    apply kinds_cons in Hk. destruct Hk as [(t2 & Ht2 & Hk2) Hk].
    apply kinds_cons in Hk. destruct Hk as [(t3 & Ht3 & Hk3) Hk].
    rewrite <- app_assoc in Hk. pose proof (kinds_app _ _ _ Hk) as Hk'.
    apply (kinds_cons _ KRParen rest) in Hk'. destruct Hk' as [(t4 & Ht4 & Hk4) _].
    set (c1 := S (S (S (S c))) + List.length (printed b)) in *.
    assert (Hb : ExprR (S (S (S (S c)))) b c1).
    { apply (IH _ _ _ _ Hk). eapply R_loop_stop; [exact Ht4|].
      rewrite Hk4. right. left. reflexivity. }
    assert (Ha : AtomR (S c) (abstraction p b) c1)
      by (eapply R_lambda; eassumption).
    assert (He : ExprR (S c) (abstraction p b) c1).
    { eapply R_expr; [exact Ha|]. eapply R_loop_stop; [exact Ht4|].
      rewrite Hk4. right. left. reflexivity. }
    eapply R_expr; [eapply R_paren; eassumption|].
    replace (S c1) with (c + List.length (printed (abstraction p b))); [exact Hloop|].
    simpl. rewrite length_app. simpl. unfold c1. lia.
  - change (printed (Ast.application l r)) with (printed l ++ printed_arg r)%list in *.
    rewrite <- app_assoc in Hk. apply (IHl _ _ _ _ Hk).
    pose proof (kinds_app _ _ _ Hk) as Hr.
    rewrite length_app, Nat.add_assoc in Hloop.
    set (c1 := c + List.length (printed l)) in *.
    destruct r as [name | p b | r1 r2].
    + simpl in Hr. apply kinds_cons in Hr. destruct Hr as [(t & Ht & Hkt) _].
      simpl in Hloop. rewrite Nat.add_1_r in Hloop.
      eapply R_loop_go; [exact Ht | | eapply R_var; eassumption | exact Hloop].
      left. now inversion Hkt.
    + change (printed_arg (abstraction p b))
        with (KLParen :: printed (abstraction p b) ++ [KRParen])%list in *.
      set (R := abstraction p b) in *. clearbody R.
      apply (kinds_cons _ KLParen ((printed R ++ [KRParen]) ++ rest)%list) in Hr.
      destruct Hr as [(t & Ht & Hkt) Hr].
      rewrite <- app_assoc in Hr. pose proof (kinds_app _ _ _ Hr) as Hr'.
      apply (kinds_cons _ KRParen rest) in Hr'. destruct Hr' as [(t' & Ht' & Hkt') _].
      eapply R_loop_go; [exact Ht | right; now inversion Hkt | | ].
      * eapply R_paren; [exact Ht | exact Hkt | | exact Ht' | exact Hkt'].
        apply (IHr _ _ _ _ Hr). eapply R_loop_stop; [exact Ht'|].
        rewrite Hkt'. right. left. reflexivity.
      * simpl in Hloop. rewrite length_app in Hloop. simpl in Hloop.
        replace (S (S c1 + List.length (printed R)))
          with (c1 + S (List.length (printed R) + 1)) by lia.
        exact Hloop.
    + change (printed_arg (Ast.application r1 r2))
        with (KLParen :: printed (Ast.application r1 r2) ++ [KRParen])%list in *.
      set (R := Ast.application r1 r2) in *. clearbody R.
      apply (kinds_cons _ KLParen ((printed R ++ [KRParen]) ++ rest)%list) in Hr.
      destruct Hr as [(t & Ht & Hkt) Hr].
      rewrite <- app_assoc in Hr. pose proof (kinds_app _ _ _ Hr) as Hr'.
      apply (kinds_cons _ KRParen rest) in Hr'. destruct Hr' as [(t' & Ht' & Hkt') _].
      eapply R_loop_go; [exact Ht | right; now inversion Hkt | | ].
      * eapply R_paren; [exact Ht | exact Hkt | | exact Ht' | exact Hkt'].
        apply (IHr _ _ _ _ Hr). eapply R_loop_stop; [exact Ht'|].
        rewrite Hkt'. right. left. reflexivity.
      * simpl in Hloop. rewrite length_app in Hloop. simpl in Hloop.
        replace (S (S c1 + List.length (printed R)))
          with (c1 + S (List.length (printed R) + 1)) by lia.
        exact Hloop.
Qed.

(** The parser reads back the term from the tokens printed for it. *)
Lemma parse_printed (t : Node) :
  map kind tokens = (printed t ++ [KEOF])%list -> parse tokens = Ok t.
Proof.
  intros Hk.
  assert (He : ExprR 0 t (List.length (printed t))).
  { apply (printed_parse t 0 [KEOF]); [exact Hk|].
    pose proof (kinds_app 0 _ _ Hk) as Hk'.
    apply (kinds_cons _ KEOF []) in Hk'. destruct Hk' as [(t' & Ht' & Hkt') _].
    eapply R_loop_stop; [exact Ht'|]. rewrite Hkt'. left. reflexivity. }
  destruct He as [f He].
  destruct (parse_run tokens) as [r|] eqn:E; [|now destruct (expression_returns tokens)].
  rewrite (parse_eq tokens r E). unfold parse_run in E.
  set (F := 3 * List.length tokens + 3) in *.
  destruct (fuel_le f (Nat.max f F) (Nat.le_max_l _ _)) as (H1 & _ & _).
  destruct (fuel_le F (Nat.max f F) (Nat.le_max_r _ _)) as (H2 & _ & _).
  apply H1 in He. apply H2 in E. rewrite He in E. inversion E. reflexivity.
Qed.

End WithTokens.

(** *** The printed text as code units *)

(** The UTF-16 code units of a text given by its UTF-8 bytes, as the
    printer's strings are; the bytes are taken to be well-formed UTF-8. *)
Fixpoint code_units (s : string) : jsstring :=
  match s with
  | EmptyString => []
  | String a1 s1 =>
      let b1 := N_of_ascii a1 in
      if (b1 <? 128)%N then b1 :: code_units s1
      else
        match s1 with
        | EmptyString => [65533%N]
        | String a2 s2 =>
            let b2 := N_of_ascii a2 in
            if (b1 <? 224)%N then
              ((b1 - 192) * 64 + (b2 - 128))%N :: code_units s2
            else
              match s2 with
              | EmptyString => [65533%N]
              | String a3 s3 =>
                  let b3 := N_of_ascii a3 in
                  if (b1 <? 240)%N then
                    ((b1 - 224) * 4096 + (b2 - 128) * 64 + (b3 - 128))%N
                    :: code_units s3
                  else
                    match s3 with
                    | EmptyString => [65533%N]
                    | String a4 s4 =>
                        let b4 := N_of_ascii a4 in
                        let cp := ((b1 - 240) * 262144 + (b2 - 128) * 4096
                                   + (b3 - 128) * 64 + (b4 - 128))%N in
                        (55296 + (cp - 65536) / 1024)%N
                        :: (56320 + (cp - 65536) mod 1024)%N
                        :: code_units s4
                    end
              end
        end
  end.

(** A name the lexer reads as one [Variable] token: a letter followed by
    letters and digits. *)
Definition identifier (name : string) : bool :=
  match units name with
  | [] => false
  | u :: cs => isAlpha [u] && forallb (fun v => isAlphaNumeric [v]) cs
  end.

(** Every name of the term is an identifier. *)
Fixpoint identifiers (node : Node) : bool :=
  match node with
  | variable name => identifier name
  | abstraction param body => identifier param && identifiers body
  | Ast.application l r => identifiers l && identifiers r
  end.

(** The code units of the text printed by [toString], with [lam] for the
    character written after the opening parenthesis of an abstraction: the
    printer writes the Greek letter, code unit 955. *)
Fixpoint printed_units (lam : N) (node : Node) : jsstring :=
  match node with
  | variable name => units name
  | abstraction param body =>
      [40%N; lam] ++ units param ++ [46%N] ++ printed_units lam body ++ [41%N]
  | Ast.application l r =>
      printed_units lam l ++ [32%N] ++
      match r with
      | variable name => units name
      | _ => [40%N] ++ printed_units lam r ++ [41%N]
      end
  end%list.

(** The term has an abstraction in it. *)
Fixpoint has_abstraction (node : Node) : bool :=
  match node with
  | variable _ => false
  | abstraction _ _ => true
  | Ast.application l r => has_abstraction l || has_abstraction r
  end.

Lemma alnum_range (u : N) :
  isAlphaNumeric [u] = true -> (48 <= u <= 122)%N /\ u <> 92%N.
Proof.
  unfold isAlphaNumeric, isAlpha. simpl. rewrite !orb_false_r. intros H.
  apply orb_true_iff in H. destruct H as [H|H];
    [apply orb_true_iff in H; destruct H as [H|H]|];
    apply andb_true_iff in H; destruct H as [H1 H2];
    apply N.leb_le in H1, H2; repeat split; lia.
Qed.

Lemma alpha_alnum (c : jsstring) : isAlpha c = true -> isAlphaNumeric c = true.
Proof. unfold isAlphaNumeric. now intros ->. Qed.

Lemma identifier_units (name : string) :
  identifier name = true ->
  exists u cs, units name = u :: cs /\ isAlpha [u] = true /\
               Forall (fun v => isAlphaNumeric [v] = true) (u :: cs).
Proof.
  unfold identifier. destruct (units name) as [|u cs]; [discriminate|].
  intros H. apply andb_true_iff in H. destruct H as [Hu Hcs].
  exists u, cs. repeat split; [assumption|]. constructor.
  - now apply alpha_alnum.
  - apply Forall_forall. intros v Hv. rewrite forallb_forall in Hcs. auto.
Qed.

Lemma units_app (a b : string) : units (a ++ b) = (units a ++ units b)%list.
Proof.
  unfold units. induction a as [|c a IH]; simpl; [reflexivity | now rewrite IH].
Qed.

Lemma code_units_ascii (a b : string) :
  Forall (fun v => (v < 128)%N) (units a) ->
  code_units (a ++ b) = (units a ++ code_units b)%list.
Proof.
  induction a as [|c a IH]; intros H; [reflexivity|].
  change (units (String c a)) with (N_of_ascii c :: units a) in *.
  inversion H as [|? ? Hc Ha]; subst.
  change (String c a ++ b) with (String c (a ++ b)). cbn [code_units].
  apply N.ltb_lt in Hc. rewrite Hc. cbn [app]. now rewrite IH.
Qed.

Lemma identifier_ascii (name : string) :
  identifier name = true -> Forall (fun v => (v < 128)%N) (units name).
Proof.
  intros H. destruct (identifier_units _ H) as (u & cs & -> & _ & Hall).
  eapply Forall_impl; [|exact Hall]. intros v Hv. apply alnum_range in Hv. lia.
Qed.

Lemma text_units (name : string) : text (units name) = name.
Proof.
  unfold text, units. rewrite map_map.
  rewrite (map_ext _ (fun a => a)) by (intros a; apply ascii_N_embedding).
  rewrite map_id. apply string_of_list_ascii_of_string.
Qed.

Lemma toString_abstraction (p : string) (b : Node) :
  Interpreter.toString (abstraction p b)
  = "(" ++ "λ" ++ p ++ "." ++ Interpreter.toString b ++ ")".
Proof. reflexivity. Qed.

Lemma toString_application (l r : Node) :
  Interpreter.toString (Ast.application l r)
  = Interpreter.toString l ++ " " ++
    match r with
    | variable name => name
    | _ => "(" ++ Interpreter.toString r ++ ")"
    end.
Proof. destruct l, r; reflexivity. Qed.

Lemma code_units_lambda (s : string) : code_units ("λ" ++ s) = 955%N :: code_units s.
Proof. reflexivity. Qed.

Lemma code_units_char (a : ascii) (s : string) :
  (N_of_ascii a < 128)%N ->
  code_units (String a EmptyString ++ s) = N_of_ascii a :: code_units s.
Proof.
  intros H. change (String a EmptyString ++ s) with (String a s).
  cbn [code_units]. apply N.ltb_lt in H. now rewrite H.
Qed.

(** What [toString] prints, read as code units. *)
Lemma code_units_toString (node : Node) :
  identifiers node = true ->
  forall rest,
    code_units (Interpreter.toString node ++ rest)
    = (printed_units 955 node ++ code_units rest)%list.
Proof.
  induction node as [name | p b IH | l IHl r IHr]; intros H rest.
  - apply code_units_ascii. now apply identifier_ascii.
  - simpl in H. apply andb_true_iff in H. destruct H as [Hp Hb].
    rewrite toString_abstraction, !InterpreterFacts.append_assoc.
    rewrite (code_units_char "("), code_units_lambda by (vm_compute; reflexivity).
    rewrite (code_units_ascii p) by now apply identifier_ascii.
    rewrite (code_units_char "."), IH, (code_units_char ")")
      by (assumption || (vm_compute; reflexivity)).
    cbn [printed_units]. rewrite <- !app_assoc. reflexivity.
  - simpl in H. apply andb_true_iff in H. destruct H as [Hl Hr].
    rewrite toString_application, !InterpreterFacts.append_assoc, IHl by assumption.
    rewrite (code_units_char " ") by (vm_compute; reflexivity).
    cbn [printed_units]. rewrite <- !app_assoc. f_equal.
    apply (f_equal (cons 32%N)).
    destruct r as [name | p b | r1 r2].
    + apply code_units_ascii. now apply identifier_ascii.
    + rewrite !InterpreterFacts.append_assoc.
      rewrite (code_units_char "("), IHr, (code_units_char ")")
        by (assumption || (vm_compute; reflexivity)).
      rewrite <- !app_assoc. reflexivity.
    + rewrite !InterpreterFacts.append_assoc.
      rewrite (code_units_char "("), IHr, (code_units_char ")")
        by (assumption || (vm_compute; reflexivity)).
      rewrite <- !app_assoc. reflexivity.
Qed.

(** *** The lexer on the printed text *)

Section WithInput.
Import Lexer LexerMore.

Variable input : jsstring.

(** The text left after a name does not go on with a letter or a digit. *)
Definition ends_name (post : jsstring) : Prop :=
  match post with
  | [] => True
  | u :: _ => isAlphaNumeric [u] = false
  end.

Lemma at_cons (p : nat) (u : N) (rest : jsstring) :
  skipn p input = u :: rest ->
  charAt input p = [u] /\ p < List.length input /\ skipn (S p) input = rest.
Proof.
  intros H. pose proof (hd_error_skipn p input) as Hh. rewrite H in Hh.
  simpl in Hh. repeat split.
  - unfold charAt. now rewrite <- Hh.
  - apply nth_error_Some. congruence.
  - change (S p) with (1 + p). now rewrite <- skipn_skipn, H.
Qed.

Lemma at_app (p : nat) (a b : jsstring) :
  skipn p input = (a ++ b)%list -> skipn (p + List.length a) input = b.
Proof.
  intros H. rewrite Nat.add_comm, <- skipn_skipn, H, skipn_app, skipn_all.
  now rewrite Nat.sub_diag.
Qed.

Lemma at_ends_name (p : nat) (post : jsstring) :
  skipn p input = post -> ends_name post ->
  isAlphaNumeric (charAt input p) = false.
Proof.
  intros H He. destruct post as [|u post].
  - apply skipn_all_iff in H. now rewrite charAt_end.
  - apply at_cons in H. destruct H as (-> & _). exact He.
Qed.

Lemma skipWhitespace_stay (p : nat) :
  isBlank (charAt input p) = false -> skipWhitespace input p = p.
Proof.
  intros H. rewrite skipWhitespace_eq, peek_charAt, H.
  destruct (isAtEnd input p); reflexivity.
Qed.

Lemma skipWhitespace_blank (p : nat) :
  charAt input p = [32%N] -> skipWhitespace input p = skipWhitespace input (S p).
Proof.
  intros H.
  assert (Hlt : p < List.length input)
    by (apply charAt_nonempty; rewrite H; discriminate).
  rewrite (skipWhitespace_eq input p), peek_charAt, H.
  unfold isAtEnd, inputLength.
  destruct (Nat.leb_spec (List.length input) p); [lia|].
  rewrite advance_snd by assumption. reflexivity.
Qed.

Lemma nextToken_blank (p : nat) :
  charAt input p = [32%N] -> nextToken input p = nextToken input (S p).
Proof.
  intros H. unfold nextToken. now rewrite (skipWhitespace_blank p H).
Qed.

Lemma tokenize_loop_blank (acc : list Token) (p : nat) :
  charAt input p = [32%N] ->
  tokenize_loop input acc p = tokenize_loop input acc (S p).
Proof.
  intros H. rewrite (tokenize_loop_eq input acc p), (tokenize_loop_eq input acc (S p)).
  now rewrite nextToken_blank.
Qed.

Lemma tokenize_loop_token (acc : list Token) (p p' : nat) (t : Token) :
  nextToken input p = Ok (t, p') -> type t <> TEOF ->
  tokenize_loop input acc p = tokenize_loop input (acc ++ [t])%list p'.
Proof.
  intros H Hne. rewrite tokenize_loop_eq, H.
  destruct (type t); try reflexivity. congruence.
Qed.

(** A punctuation character is read as its token. *)
Lemma nextToken_punct (p : nat) (u : N) (rest : jsstring) :
  skipn p input = u :: rest ->
  In u [40%N; 41%N; 46%N; 92%N] ->
  nextToken input p =
  Ok (mkToken (if (u =? 40)%N then TLParen else if (u =? 41)%N then TRParen
               else if (u =? 46)%N then TDot else TLambda) None p, S p).
Proof.
  intros H Hu. apply at_cons in H. destruct H as (Hc & Hlt & _).
  unfold nextToken.
  rewrite skipWhitespace_stay
    by (rewrite Hc; simpl in Hu; destruct Hu as [<-|[<-|[<-|[<-|[]]]]]; reflexivity).
  unfold advance, isAtEnd, inputLength.
  destruct (Nat.leb_spec (List.length input) p); [lia|]. rewrite Hc.
  simpl in Hu. destruct Hu as [<-|[<-|[<-|[<-|[]]]]]; reflexivity.
Qed.

Lemma readVariable_loop_run (cs : jsstring) :
  forall p post,
    skipn p input = (cs ++ post)%list ->
    Forall (fun v => isAlphaNumeric [v] = true) cs -> ends_name post ->
    readVariable_loop input p = p + List.length cs.
Proof.
  induction cs as [|u cs IH]; intros p post H Hall Hpost;
    rewrite readVariable_loop_eq, peek_charAt.
  - rewrite (at_ends_name p post H Hpost). simpl. lia.
  - simpl in H. apply at_cons in H. destruct H as (Hc & Hlt & H).
    inversion Hall as [|? ? Hu Hcs]; subst. rewrite Hc, Hu.
    rewrite advance_snd by assumption. rewrite (IH (S p) post H Hcs Hpost).
    simpl. lia.
Qed.

(** A name is read as one [Variable] token. *)
Lemma nextToken_name (p : nat) (name : string) (post : jsstring) :
  skipn p input = (units name ++ post)%list ->
  identifier name = true -> ends_name post ->
  nextToken input p =
  Ok (mkToken TVariable (Some name) p, p + List.length (units name)).
Proof.
  intros H Hid Hpost.
  destruct (identifier_units _ Hid) as (u & cs & Hn & Hu & Hall).
  rewrite Hn in *.
  pose proof (readVariable_loop_run _ _ _ H Hall Hpost) as Hrv.
  assert (Hsub : substring input p (p + List.length (u :: cs)) = u :: cs).
  { unfold substring. replace (p + List.length (u :: cs) - p)
      with (List.length (u :: cs) + 0) by lia.
    rewrite H, firstn_app_2. simpl. now rewrite app_nil_r. }
  simpl in H. apply at_cons in H. destruct H as (Hc & Hlt & _).
  destruct (alnum_range u (alpha_alnum _ Hu)) as (Hrange & H92).
  assert (Hnb : isBlank [u] = false).
  { unfold isBlank, streq.
    repeat match goal with
           | |- context [list_eq_dec N.eq_dec ?a ?b] =>
               let E := fresh "E" in
               destruct (list_eq_dec N.eq_dec a b) as [E|E];
               [inversion E; subst; lia|]
           end. reflexivity. }
  unfold nextToken. rewrite skipWhitespace_stay by now rewrite Hc.
  unfold advance, isAtEnd, inputLength.
  destruct (Nat.leb_spec (List.length input) p); [lia|]. rewrite Hc.
  unfold streq.
  repeat match goal with
         | |- context [list_eq_dec N.eq_dec ?a ?b] =>
             let E := fresh "E" in
             destruct (list_eq_dec N.eq_dec a b) as [E|E];
             [inversion E; subst; (congruence || lia)|]
         end.
  cbn [orb]. rewrite Hu. unfold readVariable. rewrite Hrv, Hsub.
  rewrite <- Hn, text_units. reflexivity.
Qed.

Lemma punct_token (p : nat) (u : N) (rest : jsstring) (acc : list Token)
    (k : TokenType * option string) :
  skipn p input = u :: rest ->
  (u = 40%N /\ k = KLParen) \/ (u = 41%N /\ k = KRParen) \/
  (u = 46%N /\ k = KDot) \/ (u = 92%N /\ k = KLambda) ->
  exists t, kind t = k /\
            tokenize_loop input acc p = tokenize_loop input (acc ++ [t])%list (S p).
Proof.
  intros H Hu.
  assert (Hin : In u [40%N; 41%N; 46%N; 92%N])
    by (simpl; destruct Hu as [[-> _]|[[-> _]|[[-> _]|[-> _]]]]; auto).
  pose proof (nextToken_punct p u rest H Hin) as Hn.
  eexists. split; [|apply (tokenize_loop_token acc p (S p) _ Hn)].
  - destruct Hu as [[-> ->]|[[-> ->]|[[-> ->]|[-> ->]]]]; reflexivity.
  - destruct Hu as [[-> _]|[[-> _]|[[-> _]|[-> _]]]]; discriminate.
Qed.

Lemma name_token (p : nat) (name : string) (post : jsstring) (acc : list Token) :
  skipn p input = (units name ++ post)%list ->
  identifier name = true -> ends_name post ->
  exists t, kind t = KVar name /\
            tokenize_loop input acc p
            = tokenize_loop input (acc ++ [t])%list (p + List.length (units name)).
Proof.
  intros H Hid Hpost. pose proof (nextToken_name p name post H Hid Hpost) as Hn.
  eexists. split; [|apply (tokenize_loop_token acc p _ _ Hn); discriminate].
  reflexivity.
Qed.

(** The lexer reads the printed text of a term as the printed tokens. *)
Lemma lex_printed (t : Node) :
  identifiers t = true ->
  forall p acc post,
    skipn p input = (printed_units 92 t ++ post)%list -> ends_name post ->
    exists toks,
      map kind toks = printed t /\
      tokenize_loop input acc p
      = tokenize_loop input (acc ++ toks)%list (p + List.length (printed_units 92 t)).
Proof.
  induction t as [name | x b IH | l IHl r IHr]; intros Hid p acc post H Hpost.
  - destruct (name_token p name post acc H Hid Hpost) as (t & Hk & Ht).
    exists [t]. simpl. rewrite Hk. auto.
  - simpl in Hid. apply andb_true_iff in Hid. destruct Hid as [Hx Hb].
    cbn [printed_units] in *. rewrite <- !app_assoc in H.
    change ([40%N; 92%N] ++ ?s)%list with (40%N :: 92%N :: s) in H.
    destruct (punct_token p 40 _ acc KLParen H ltac:(auto)) as (t0 & Hk0 & E0).
    apply at_cons in H. destruct H as (_ & _ & H).
    destruct (punct_token (S p) 92 _ (acc ++ [t0])%list KLambda H ltac:(auto 10))
      as (t1 & Hk1 & E1).
    apply at_cons in H. destruct H as (_ & _ & H).
    destruct (name_token (S (S p)) x _ ((acc ++ [t0]) ++ [t1])%list H Hx eq_refl)
      as (t2 & Hk2 & E2).
    apply at_app in H. change ([46%N] ++ ?s)%list with (46%N :: s) in H.
    destruct (punct_token _ 46 _ (((acc ++ [t0]) ++ [t1]) ++ [t2])%list KDot H
                ltac:(auto 10)) as (t3 & Hk3 & E3).
    apply at_cons in H. destruct H as (_ & _ & H).
    destruct (IH Hb _ ((((acc ++ [t0]) ++ [t1]) ++ [t2]) ++ [t3])%list _ H eq_refl)
      as (tb & Hkb & Eb).
    apply at_app in H. change ([41%N] ++ ?s)%list with (41%N :: s) in H.
    destruct (punct_token _ 41 _
                (((((acc ++ [t0]) ++ [t1]) ++ [t2]) ++ [t3]) ++ tb)%list KRParen H
                ltac:(auto 10)) as (t4 & Hk4 & E4).
    exists ([t0; t1; t2; t3] ++ tb ++ [t4])%list. split.
    + rewrite !map_app. simpl. rewrite Hk0, Hk1, Hk2, Hk3, Hk4, Hkb. reflexivity.
    + rewrite E0, E1, E2, E3, Eb, E4. f_equal.
      * rewrite <- !app_assoc. reflexivity.
      * rewrite !length_app. simpl. repeat rewrite length_app. simpl. lia.
  - simpl in Hid. apply andb_true_iff in Hid. destruct Hid as [Hl Hr].
    cbn [printed_units] in H. rewrite <- !app_assoc in H.
    change ([32%N] ++ ?s)%list with (32%N :: s) in H.
    destruct (IHl Hl p acc _ H eq_refl) as (tl & Hkl & El).
    apply at_app in H. set (p1 := p + List.length (printed_units 92 l)) in *.
    pose proof (at_cons _ _ _ H) as (Hc & _ & H').
    rewrite (tokenize_loop_blank _ _ Hc) in El.
    assert (Harg : exists tr,
               map kind tr = printed_arg r /\
               tokenize_loop input (acc ++ tl)%list (S p1)
               = tokenize_loop input ((acc ++ tl) ++ tr)%list
                   (S p1 + List.length
                      (match r with
                       | variable name => units name
                       | _ => [40%N] ++ printed_units 92 r ++ [41%N]
                       end))%list).
    { destruct r as [name | x b | r1 r2].
      - destruct (name_token (S p1) name post (acc ++ tl)%list H' Hr Hpost)
          as (t & Hk & Ht).
        exists [t]. simpl. rewrite Hk. auto.
      - change (printed_arg (abstraction x b))
          with (KLParen :: printed (abstraction x b) ++ [KRParen])%list.
        set (R := abstraction x b) in *. clearbody R.
        rewrite <- !app_assoc in H'.
        change ([40%N] ++ ?s)%list with (40%N :: s) in H'.
        destruct (punct_token (S p1) 40 _ (acc ++ tl)%list KLParen H' ltac:(auto))
          as (t0 & Hk0 & E0).
        apply at_cons in H'. destruct H' as (_ & _ & H').
        destruct (IHr Hr _ ((acc ++ tl) ++ [t0])%list _ H' eq_refl)
          as (tb & Hkb & Eb).
        apply at_app in H'. change ([41%N] ++ ?s)%list with (41%N :: s) in H'.
        destruct (punct_token _ 41 _ (((acc ++ tl) ++ [t0]) ++ tb)%list KRParen H'
                    ltac:(auto 10)) as (t4 & Hk4 & E4).
        exists ([t0] ++ tb ++ [t4])%list. split.
        + rewrite !map_app. simpl. rewrite Hk0, Hk4, Hkb. reflexivity.
        + rewrite E0, Eb, E4. f_equal.
          * rewrite <- !app_assoc. reflexivity.
          * rewrite !length_app. simpl. lia.
      - change (printed_arg (Ast.application r1 r2))
          with (KLParen :: printed (Ast.application r1 r2) ++ [KRParen])%list.
        set (R := Ast.application r1 r2) in *. clearbody R.
        rewrite <- !app_assoc in H'.
        change ([40%N] ++ ?s)%list with (40%N :: s) in H'.
        destruct (punct_token (S p1) 40 _ (acc ++ tl)%list KLParen H' ltac:(auto))
          as (t0 & Hk0 & E0).
        apply at_cons in H'. destruct H' as (_ & _ & H').
        destruct (IHr Hr _ ((acc ++ tl) ++ [t0])%list _ H' eq_refl)
          as (tb & Hkb & Eb).
        apply at_app in H'. change ([41%N] ++ ?s)%list with (41%N :: s) in H'.
        destruct (punct_token _ 41 _ (((acc ++ tl) ++ [t0]) ++ tb)%list KRParen H'
                    ltac:(auto 10)) as (t4 & Hk4 & E4).
        exists ([t0] ++ tb ++ [t4])%list. split.
        + rewrite !map_app. simpl. rewrite Hk0, Hk4, Hkb. reflexivity.
        + rewrite E0, Eb, E4. f_equal.
          * rewrite <- !app_assoc. reflexivity.
          * rewrite !length_app. simpl. lia. }
    destruct Harg as (tr & Hkr & Er).
    exists (tl ++ tr)%list. split.
    + rewrite map_app, Hkl, Hkr. reflexivity.
    + rewrite El, Er. f_equal.
      * now rewrite app_assoc.
      * cbn [printed_units]. rewrite !length_app. unfold p1. simpl. lia.
Qed.

Lemma tokenize_loop_end (acc : list Token) :
  tokenize_loop input acc (List.length input)
  = Ok (acc ++ [mkToken TEOF None (List.length input)])%list.
Proof.
  assert (Hs : skipWhitespace input (List.length input) = List.length input).
  { apply skipWhitespace_stay. now rewrite charAt_end. }
  rewrite tokenize_loop_eq. unfold nextToken. rewrite Hs.
  unfold isAtEnd, inputLength. rewrite Nat.leb_refl. reflexivity.
Qed.

End WithInput.

Lemma nonspace (u : N) :
  (33 <= u <= 127)%N -> isTrimSpace u = false.
Proof.
  intros H. unfold isTrimSpace.
  assert (E1 : (u <=? 13)%N = false) by (apply N.leb_gt; lia).
  assert (E2 : (8192 <=? u)%N = false) by (apply N.leb_gt; lia).
  rewrite E1, E2, andb_false_r. cbn [andb orb].
  repeat match goal with
         | |- context [(u =? ?k)%N] =>
             replace (u =? k)%N with false by (symmetry; apply N.eqb_neq; lia)
         end.
  reflexivity.
Qed.

Lemma alnum_nonspace (u : N) : isAlphaNumeric [u] = true -> isTrimSpace u = false.
Proof. intros H. apply alnum_range in H. apply nonspace. lia. Qed.

Lemma identifier_first (name : string) :
  identifier name = true ->
  exists u s, units name = u :: s /\ isTrimSpace u = false.
Proof.
  intros H. destruct (identifier_units name H) as (u & cs & E & _ & Hall).
  exists u, cs. split; [assumption|]. inversion Hall; subst.
  now apply alnum_nonspace.
Qed.

Lemma identifier_last (name : string) :
  identifier name = true ->
  exists s u, units name = (s ++ [u])%list /\ isTrimSpace u = false.
Proof.
  intros H. destruct (identifier_units name H) as (u & cs & E & _ & Hall).
  rewrite E. destruct (@exists_last _ (u :: cs)) as (s & v & Es); [discriminate|].
  exists s, v. split; [assumption|]. rewrite Es in Hall.
  apply Forall_app in Hall. destruct Hall as [_ Hv]. inversion Hv; subst.
  now apply alnum_nonspace.
Qed.

Lemma printed_units_first (lam : N) (t : Node) :
  identifiers t = true ->
  exists u s, printed_units lam t = u :: s /\ isTrimSpace u = false.
Proof.
  induction t as [name | x b _ | l IHl r _]; intros H.
  - now apply identifier_first.
  - eexists _, _. split; [reflexivity | reflexivity].
  - simpl in H. apply andb_true_iff in H. destruct H as [Hl _].
    destruct (IHl Hl) as (u & s & E & Hu). cbn [printed_units]. rewrite E.
    eexists _, _. split; [reflexivity | assumption].
Qed.

Lemma printed_units_last (lam : N) (t : Node) :
  identifiers t = true ->
  exists s u, printed_units lam t = (s ++ [u])%list /\ isTrimSpace u = false.
Proof.
  destruct t as [name | x b | l r]; intros H.
  - now apply identifier_last.
  - exists ([40%N; lam] ++ units x ++ [46%N] ++ printed_units lam b)%list, 41%N.
    split; [|reflexivity]. cbn [printed_units]. now rewrite <- !app_assoc.
  - simpl in H. apply andb_true_iff in H. destruct H as [_ Hr].
    destruct r as [name | x b | r1 r2].
    + destruct (identifier_last name Hr) as (s & u & E & Hu).
      exists (printed_units lam l ++ [32%N] ++ s)%list, u. split; [|assumption].
      cbn [printed_units]. now rewrite E, <- !app_assoc.
    + exists (printed_units lam l ++ [32%N] ++ [40%N]
              ++ printed_units lam (abstraction x b))%list, 41%N.
      split; [|reflexivity].
      change (printed_units lam (Ast.application l (abstraction x b)))
        with (printed_units lam l ++ [32%N] ++ [40%N]
              ++ printed_units lam (abstraction x b) ++ [41%N])%list.
      now rewrite <- !app_assoc.
    + exists (printed_units lam l ++ [32%N] ++ [40%N]
              ++ printed_units lam (Ast.application r1 r2))%list, 41%N.
      split; [|reflexivity].
      change (printed_units lam (Ast.application l (Ast.application r1 r2)))
        with (printed_units lam l ++ [32%N] ++ [40%N]
              ++ printed_units lam (Ast.application r1 r2) ++ [41%N])%list.
      now rewrite <- !app_assoc.
Qed.

Lemma trim_printed_units (lam : N) (t : Node) :
  identifiers t = true -> trim (printed_units lam t) = printed_units lam t.
Proof.
  intros H. destruct (printed_units_first lam t H) as (u & s & E & Hu).
  destruct (printed_units_last lam t H) as (s' & v & E' & Hv).
  unfold trim.
  assert (E1 : trimStart (printed_units lam t) = printed_units lam t)
    by (rewrite E; simpl; now rewrite Hu).
  rewrite E1, E', rev_app_distr. simpl. rewrite Hv.
  change (v :: rev s') with (rev [v] ++ rev s')%list.
  now rewrite <- rev_app_distr, rev_involutive.
Qed.

(** Lexing the printed text of a term, respelled with the backslash,
    gives the printed tokens. *)
Lemma run_printed_units (t : Node) :
  identifiers t = true ->
  exists tokens, Lexer.run (printed_units 92 t) = Ok tokens /\
                 map kind tokens = (printed t ++ [KEOF])%list.
Proof.
  intros H. unfold Lexer.run, Lexer.tokenize. rewrite (trim_printed_units 92 t H).
  destruct (lex_printed (printed_units 92 t) t H 0 [] [])
    as (toks & Hk & E); [now rewrite app_nil_r | exact I |].
  simpl in E. rewrite E, tokenize_loop_end.
  eexists. split; [reflexivity|]. rewrite map_app, Hk. reflexivity.
Qed.

Lemma map_units (name : string) :
  identifier name = true ->
  map LexerMore.backslash_for_lambda (units name) = units name.
Proof.
  intros H. apply identifier_ascii in H.
  rewrite <- (map_id (units name)) at 2. apply map_ext_in. intros u Hu.
  rewrite Forall_forall in H. specialize (H u Hu).
  unfold LexerMore.backslash_for_lambda.
  destruct (N.eqb_spec u 955) as [->|]; [lia | reflexivity].
Qed.

(** Writing the backslash for the Greek letter in the printed text. *)
Lemma map_printed_units (t : Node) :
  identifiers t = true ->
  map LexerMore.backslash_for_lambda (printed_units 955 t) = printed_units 92 t.
Proof.
  induction t as [name | x b IH | l IHl r IHr]; intros H.
  - now apply map_units.
  - simpl in H. apply andb_true_iff in H. destruct H as [Hx Hb].
    cbn [printed_units]. rewrite !map_app, IH, map_units by assumption.
    reflexivity.
  - simpl in H. apply andb_true_iff in H. destruct H as [Hl Hr].
    cbn [printed_units]. rewrite !map_app, IHl by assumption.
    destruct r as [name | x b | r1 r2].
    + rewrite map_units by assumption. reflexivity.
    + rewrite !map_app, IHr by assumption. reflexivity.
    + rewrite !map_app, IHr by assumption. reflexivity.
Qed.

(** A term without an abstraction is printed without the Greek letter. *)
Lemma printed_units_no_abstraction (t : Node) (lam lam' : N) :
  has_abstraction t = false -> printed_units lam t = printed_units lam' t.
Proof.
  induction t as [name | x b IH | l IHl r IHr]; intros H.
  - reflexivity.
  - discriminate.
  - simpl in H. apply orb_false_iff in H. destruct H as [Hl Hr].
    cbn [printed_units]. rewrite (IHl Hl).
    destruct r as [name | x b | r1 r2]; [reflexivity | discriminate |].
    now rewrite (IHr Hr).
Qed.

Lemma In_printed_units (t : Node) (lam : N) :
  has_abstraction t = true -> In lam (printed_units lam t).
Proof.
  induction t as [name | x b IH | l IHl r IHr]; intros H.
  - discriminate.
  - simpl. auto.
  - simpl in H. cbn [printed_units]. apply in_or_app.
    destruct (has_abstraction l); [left; now apply IHl|]. right.
    apply in_or_app. right.
    destruct r as [name | x b | r1 r2]; [discriminate | |];
      apply in_or_app; right; apply in_or_app; left; now apply IHr.
Qed.

Lemma code_units_printed (t : Node) :
  identifiers t = true ->
  code_units (Interpreter.toString t) = printed_units 955 t.
Proof.
  intros H. pose proof (code_units_toString t H "") as E.
  rewrite InterpreterFacts.append_empty_r in E. simpl in E.
  now rewrite app_nil_r in E.
Qed.

(** Parsing the printed text, respelled with the backslash, gives the
    term back. *)
Lemma parse_printed_text (t : Node) :
  identifiers t = true ->
  LambdaCalculus.parse
    (map LexerMore.backslash_for_lambda (code_units (Interpreter.toString t)))
  = Ok t.
Proof.
  intros H. rewrite (code_units_printed t H), (map_printed_units t H).
  unfold LambdaCalculus.parse.
  destruct (run_printed_units t H) as (tokens & -> & Hk).
  now apply parse_printed.
Qed.

(** A term with two abstractions, a nested application and a name with a
    digit. *)
Definition sample : Node :=
  Ast.application
    (abstraction "f" (abstraction "x1"
       (Ast.application (variable "f")
          (Ast.application (variable "f") (variable "x1")))))
    (abstraction "y" (variable "y")).

(** X18 (interpreter.ts [toString], index.ts [parse], [formatExpression]):
    when every name of a term is an identifier ([a-zA-Z] followed by
    [a-zA-Z0-9]), parsing the text that [formatExpression] prints for
    it, with the backslash written for each Greek letter lambda, gives the
    term back; so does parsing the printed text as it is when the term
    has no abstraction. *)
Theorem parse_formatExpression_roundtrip (t : Node) :
  identifiers t = true ->
  LambdaCalculus.parse
    (map LexerMore.backslash_for_lambda
       (code_units (LambdaCalculus.formatExpression t))) = Ok t /\
  (has_abstraction t = false ->
   LambdaCalculus.parse (code_units (LambdaCalculus.formatExpression t)) = Ok t).
Proof.
  intros H. split; [now apply parse_printed_text|]. intros Hn.
  pose proof (parse_printed_text t H) as P.
  unfold LambdaCalculus.formatExpression.
  rewrite (code_units_printed t H) in *. rewrite (map_printed_units t H) in P.
  now rewrite (printed_units_no_abstraction t 955 92 Hn).
Qed.

Lemma parse_formatExpression_roundtrip_witness :
  identifiers sample = true /\
  LambdaCalculus.parse
    (map LexerMore.backslash_for_lambda
       (code_units (LambdaCalculus.formatExpression sample))) = Ok sample /\
  has_abstraction (Ast.application (variable "f") (variable "x1")) = false /\
  LambdaCalculus.parse
    (code_units (LambdaCalculus.formatExpression
                   (Ast.application (variable "f") (variable "x1"))))
  = Ok (Ast.application (variable "f") (variable "x1")).
Proof.
  split; [reflexivity|].
  split; [exact (proj1 (parse_formatExpression_roundtrip sample eq_refl))|].
  split; [reflexivity|].
  exact (proj2 (parse_formatExpression_roundtrip
                  (Ast.application (variable "f") (variable "x1")) eq_refl)
               eq_refl).
Defined.

(** X19 (interpreter.ts [toString]): two terms whose names are identifiers
    and that print as the same text are the same term. *)
Theorem toString_injective (t1 t2 : Node) :
  identifiers t1 = true -> identifiers t2 = true ->
  Interpreter.toString t1 = Interpreter.toString t2 -> t1 = t2.
Proof.
  intros H1 H2 E. pose proof (parse_printed_text t1 H1) as P1.
  rewrite E, (parse_printed_text t2 H2) in P1. congruence.
Qed.

Lemma toString_injective_witness :
  identifiers sample = true /\
  (Interpreter.toString sample = Interpreter.toString sample -> sample = sample).
Proof.
  split; [reflexivity|].
  exact (toString_injective sample sample eq_refl eq_refl).
Defined.

(** X24 (interpreter.ts [toString], lexer.ts [nextToken], index.ts
    [parse]): the printer writes an abstraction with the Greek letter
    lambda, which the lexer does not read: for a term that has an
    abstraction, and whose names are identifiers, [parse] throws
    "Unexpected character" on the text printed by [formatExpression], at a
    lambda of that text. *)
Theorem parse_formatExpression_lambda (t : Node) :
  identifiers t = true -> has_abstraction t = true ->
  exists q,
    LambdaCalculus.parse (code_units (LambdaCalculus.formatExpression t))
    = Throw (LexError [955%N] q) /\
    nth_error (code_units (LambdaCalculus.formatExpression t)) q = Some 955%N.
Proof.
  intros H Ha. unfold LambdaCalculus.formatExpression, LambdaCalculus.parse.
  rewrite (code_units_printed t H).
  destruct (run_printed_units t H) as (tokens & Hrun & _).
  rewrite <- (map_printed_units t H) in Hrun.
  destruct (LexerMore.run_respelled _ _ Hrun (In_printed_units t 955 Ha))
    as (q & -> & Hq).
  exists q. split; [reflexivity|].
  rewrite (trim_printed_units 955 t H) in Hq. unfold Lexer.charAt in Hq.
  destruct (nth_error (printed_units 955 t) q) as [u|]; [|discriminate].
  congruence.
Qed.

Lemma parse_formatExpression_lambda_witness :
  identifiers sample = true /\ has_abstraction sample = true /\
  LambdaCalculus.formatExpression sample = "(λf.(λx1.f (f x1))) ((λy.y))" /\
  exists q,
    LambdaCalculus.parse (code_units (LambdaCalculus.formatExpression sample))
    = Throw (LexError [955%N] q) /\
    nth_error (code_units (LambdaCalculus.formatExpression sample)) q = Some 955%N.
Proof.
  split; [reflexivity|]. split; [reflexivity|]. split; [reflexivity|].
  exact (parse_formatExpression_lambda sample eq_refl eq_refl).
Defined.

End RoundTrip.

(* ===================================================================== *)
(** ** index.ts: the errors of [parse] and [evaluate] *)
(* ===================================================================== *)

Module EntryPoints.
Import Lexer LexerMore ParserMore Vocabulary.

(** The errors that the lexer and the parser throw themselves. *)
Definition is_syntax_error (e : Error) : Prop :=
  match e with
  | LexError _ _ | ParseError _ _ | UnexpectedToken _ _ => True
  | _ => False
  end.

Lemma trimStart_blank (input : jsstring) :
  Forall (fun u => isTrimSpace u = true) input -> trimStart input = [].
Proof.
  induction 1 as [|u s Hu _ IH]; simpl; [reflexivity | now rewrite Hu].
Qed.

Lemma run_ends_with_EOF (input : jsstring) (tokens : list Token) :
  Lexer.run input = Ok tokens ->
  exists before last, tokens = (before ++ [last])%list /\ type last = TEOF.
Proof.
  unfold Lexer.run, tokenize. intros H.
  destruct (tokenize_loop_Ok (trim input) _ [] 0 tokens eq_refl (Nat.le_0_l _) H)
    as (new & last & E & _ & Hlast & _).
  exists new, last. split; assumption.
Qed.

Lemma run_error (input : jsstring) (e : Error) :
  Lexer.run input = Throw e -> is_syntax_error e.
Proof.
  unfold Lexer.run, tokenize. intros H.
  destruct (tokenize_loop_Throw (trim input) _ [] 0 e eq_refl H) as (q & -> & _).
  exact I.
Qed.

Lemma parse_error (input : jsstring) (e : Error) :
  LambdaCalculus.parse input = Throw e -> is_syntax_error e.
Proof.
  unfold LambdaCalculus.parse. destruct (Lexer.run input) as [tokens|e'] eqn:E.
  - intros H. pose proof (parse_safe tokens (run_ends_with_EOF input tokens E)) as Hs.
    rewrite H in Hs. destruct e; try contradiction; exact I.
  - intros [= <-]. now apply (run_error input).
Qed.

(** X20 (index.ts [parse]): whatever the input, [parse] returns a term or
    throws one of the errors of the lexer and the parser ("Unexpected
    character", "Expected ...", "Unexpected token"); the parser never reads
    a token beyond the [EOF] token that the lexer puts last. *)
Theorem parse_throws_syntax_errors (input : jsstring) (e : Error) :
  LambdaCalculus.parse input = Throw e -> is_syntax_error e.
Proof. apply parse_error. Qed.

Lemma parse_throws_syntax_errors_witness :
  LambdaCalculus.parse (units ")") = Throw (UnexpectedToken TRParen 0)
  /\ is_syntax_error (UnexpectedToken TRParen 0).
Proof.
  split; [reflexivity|].
  exact (parse_throws_syntax_errors (units ")") _ eq_refl).
Defined.

(** X21 (index.ts [evaluate]): [evaluate] throws the syntax error of
    [parse], or, for an input that parses, the error of the step bound with
    the bound it was given; the parsed term has then made as many steps
    as the tests of the loop allowed: for an integer bound [n] up to
    [2^53], [n] steps. *)
Theorem evaluate_throws (input : jsstring) (maxSteps : number) (e : Error) :
  returns (LambdaCalculus.evaluate input maxSteps) (Throw e) ->
  LambdaCalculus.parse input = Throw e /\ is_syntax_error e \/
  exists ast, LambdaCalculus.parse input = Ok ast /\
              e = NonTermination maxSteps /\
              (exists k, iter_step k ast <> None /\
                         lessThan (counter k) maxSteps = false /\
                         forall i, i < k -> lessThan (counter i) maxSteps = true) /\
              (forall n, maxSteps = int n -> (n <= maxExact)%Z ->
                         iter_step (Z.to_nat n) ast <> None).
Proof.
  intros [fuel H]. unfold LambdaCalculus.evaluate in H.
  destruct (LambdaCalculus.parse input) as [ast|e'] eqn:E.
  - right. exists ast. split; [reflexivity|].
    pose proof (InterpreterFacts.evaluate_spec ast maxSteps fuel) as Hs.
    rewrite H in Hs. destruct Hs as (-> & k & _ & Hlt & Hall & Hit).
    split; [reflexivity|]. split; [exists k; auto|].
    intros n -> Hn.
    rewrite InterpreterFacts.lessThan_counter_int in Hlt by assumption.
    apply Z.ltb_ge in Hlt.
    apply (InterpreterFacts.iter_step_prefix (Z.to_nat n) (k - Z.to_nat n)).
    now replace (Z.to_nat n + (k - Z.to_nat n)) with k by lia.
  - inversion H; subst e'. left. split; [reflexivity | now apply (parse_error input)].
Qed.

Lemma evaluate_throws_witness :
  returns (LambdaCalculus.evaluate (units "(\x.x) y") (int 1))
    (Throw (NonTermination (int 1))) /\
  (LambdaCalculus.parse (units "(\x.x) y") = Throw (NonTermination (int 1))
     /\ is_syntax_error (NonTermination (int 1)) \/
   exists ast, LambdaCalculus.parse (units "(\x.x) y") = Ok ast /\
               NonTermination (int 1) = NonTermination (int 1) /\
               (exists k, iter_step k ast <> None /\
                          lessThan (counter k) (int 1) = false /\
                          forall i, i < k -> lessThan (counter i) (int 1) = true) /\
               (forall n, int 1 = int n -> (n <= maxExact)%Z ->
                          iter_step (Z.to_nat n) ast <> None)).
Proof.
  assert (R : returns (LambdaCalculus.evaluate (units "(\x.x) y") (int 1))
                (Throw (NonTermination (int 1))))
    by (exists 2; vm_compute; reflexivity).
  split; [exact R|].
  exact (evaluate_throws (units "(\x.x) y") (int 1) _ R).
Defined.

(** X22 (index.ts [parse], lexer.ts constructor): an input made of white
    space only, the empty input included, makes [parse] throw "Unexpected
    token: EOF at position 0". *)
Theorem parse_blank_input (input : jsstring) :
  Forall (fun u => isTrimSpace u = true) input ->
  LambdaCalculus.parse input = Throw (UnexpectedToken TEOF 0).
Proof.
  intros H. unfold LambdaCalculus.parse, Lexer.run, trim.
  rewrite (trimStart_blank input H). reflexivity.
Qed.

Lemma parse_blank_input_witness :
  Forall (fun u => isTrimSpace u = true) [32%N; 9%N; 10%N] /\
  LambdaCalculus.parse [32%N; 9%N; 10%N] = Throw (UnexpectedToken TEOF 0).
Proof.
  assert (H : Forall (fun u => isTrimSpace u = true) [32%N; 9%N; 10%N])
    by (repeat constructor).
  split; [exact H | exact (parse_blank_input _ H)].
Defined.

End EntryPoints.

